(** * vltrace (strace.ebpf): the command-line parser, [src/cl_parser.c]

    A shallow embedding of [cl_parser] and of the C library routines it
    calls ([getopt_long], [atoi], [strcasecmp]), followed by the properties
    of the parser that the specification states.

    Conventions.
    - A C string is a [string]: its characters up to the terminating NUL.
      A [char *] that may be NULL is an [option string].
    - [argv] is a [list string] and [argc] is its length.
    - [exit(status)] is the outcome [Exit status]; everything written to a
      stream is recorded, in order, as a list of [event]s.
    - The C library is glibc on an LP64 Linux target: [long] has 64 bits and
      [int] has 32. *)

From Stdlib Require Import ZArith List String Ascii Bool Lia.
Import ListNotations.

Local Open Scope string_scope.
Local Open Scope Z_scope.

(** ** The C library: <ctype.h>, <string.h>, <stdlib.h> *)

Module Libc.

Definition char_code (c : ascii) : Z := Z.of_N (N_of_ascii c).

(** [isspace] in the C locale: space, and the controls \t \n \v \f \r. *)
Definition isspace (c : ascii) : bool :=
  let n := char_code c in
  (n =? 32) || ((9 <=? n) && (n <=? 13)).

Definition isdigit (c : ascii) : bool :=
  let n := char_code c in
  (48 <=? n) && (n <=? 57).

Definition isupper (c : ascii) : bool :=
  let n := char_code c in
  (65 <=? n) && (n <=? 90).

Definition tolower (c : ascii) : ascii :=
  if isupper c then ascii_of_N (N_of_ascii c + 32) else c.

(** [strcasecmp]: the difference of the first pair of characters that
    differ once lowered, 0 when there is none. *)
Fixpoint strcasecmp (s1 s2 : string) : Z :=
  match s1, s2 with
  | EmptyString, EmptyString => 0
  | EmptyString, String c2 _ => 0 - char_code (tolower c2)
  | String c1 _, EmptyString => char_code (tolower c1)
  | String c1 r1, String c2 r2 =>
      let d := char_code (tolower c1) - char_code (tolower c2) in
      if d =? 0 then strcasecmp r1 r2 else d
  end.

(** [strcmp(a, b) == 0]. *)
Definition streq (a b : string) : bool := String.eqb a b.

(** [strchr(s, c)] for a [c] other than NUL: the tail of [s] that starts at
    the first [c]. *)
Fixpoint strchr (s : string) (c : ascii) : option string :=
  match s with
  | EmptyString => None
  | String a r => if Ascii.eqb a c then Some s else strchr r c
  end.

(** [s[i]], the terminating NUL included. *)
Definition char_at (s : string) (i : nat) : ascii :=
  match String.get i s with
  | Some c => c
  | None => zero
  end.

Definition LONG_MAX : Z := 2 ^ 63 - 1.
Definition LONG_MIN : Z := - 2 ^ 63.

Fixpoint skip_space (s : string) : string :=
  match s with
  | String c r => if isspace c then skip_space r else s
  | EmptyString => s
  end.

(** The digits of [strtol], base 10: the value of the longest run of
    decimal digits at the head of [s], on top of [acc]. *)
Fixpoint strtol_digits (acc : Z) (s : string) : Z :=
  match s with
  | String c r =>
      if isdigit c then strtol_digits (acc * 10 + (char_code c - 48)) r
      else acc
  | EmptyString => acc
  end.

Definition strtol_sign (s : string) : bool * string :=
  match s with
  | String "-"%char r => (true, r)
  | String "+"%char r => (false, r)
  | _ => (false, s)
  end.

(** [strtol(nptr, NULL, 10)]: white space, an optional sign, digits; the
    value saturates at [LONG_MIN] and [LONG_MAX]; no digit gives 0. *)
Definition strtol10 (nptr : string) : Z :=
  let '(negative, s) := strtol_sign (skip_space nptr) in
  let m := strtol_digits 0 s in
  if negative then Z.max LONG_MIN (- m) else Z.min LONG_MAX m.

(** The conversion [(int) x] of a [long]: the low 32 bits, signed. *)
Definition int_of_long (x : Z) : Z := (x + 2 ^ 31) mod 2 ^ 32 - 2 ^ 31.

(** [atoi(nptr)] is [(int) strtol(nptr, NULL, 10)]. *)
Definition atoi (nptr : string) : Z := int_of_long (strtol10 nptr).

(** [strtol] converted nothing: after the white space and the sign there is
    no digit. *)
Definition no_conversion (nptr : string) : bool :=
  let '(_, s) := strtol_sign (skip_space nptr) in
  match s with
  | String c _ => negb (isdigit c)
  | EmptyString => true
  end.

End Libc.

Import Libc.

(** ** <getopt.h>: [getopt_long] as cl_parser calls it *)

Module Getopt.

Inductive has_arg_t : Type :=
| no_argument
| required_argument
| optional_argument.

(** [struct option]. The [flag] member is 0 in every row of the table of
    [cl_parser], so [getopt_long] returns [val] for a long option. *)
Record struct_option : Type := {
  name : string;
  has_arg : has_arg_t;
  val : ascii
}.

(** The diagnostics [getopt_long] writes to stderr on its own when [opterr]
    is set; the program name in front of each is left out. *)
Inductive getopt_msg : Type :=
| invalid_option (c : ascii)
| option_requires_an_argument (c : ascii)
| option_is_ambiguous (prefix nm : string)
| unrecognized_option (prefix nm : string)
| option_doesnt_allow_an_argument (prefix nm : string)
| long_option_requires_an_argument (prefix nm : string).

(** The variables of getopt: the public [optind], [opterr], [optopt] and
    [optarg], and the private ones of [struct _getopt_data]. [nextchar] is
    the text [__nextchar] points at; NULL and a pointer at the terminating
    NUL are both the empty string. [getopt_long] copies [optind] and
    [opterr] into the private data when called and copies [optind],
    [optarg] and [optopt] out of it when it returns, so that between two
    calls the public variables and the private members are the same. *)
Record getopt_data : Type := {
  optind : nat;
  opterr : bool;
  optopt : Z;
  optarg : option string;
  initialized : bool;
  nextchar : string;
  first_nonopt : nat;
  last_nonopt : nat
}.

Definition set_optind (n : nat) (d : getopt_data) : getopt_data :=
  {| optind := n; opterr := opterr d; optopt := optopt d; optarg := optarg d;
     initialized := initialized d; nextchar := nextchar d;
     first_nonopt := first_nonopt d; last_nonopt := last_nonopt d |}.

Definition set_optopt (c : Z) (d : getopt_data) : getopt_data :=
  {| optind := optind d; opterr := opterr d; optopt := c; optarg := optarg d;
     initialized := initialized d; nextchar := nextchar d;
     first_nonopt := first_nonopt d; last_nonopt := last_nonopt d |}.

Definition set_optarg (a : option string) (d : getopt_data) : getopt_data :=
  {| optind := optind d; opterr := opterr d; optopt := optopt d; optarg := a;
     initialized := initialized d; nextchar := nextchar d;
     first_nonopt := first_nonopt d; last_nonopt := last_nonopt d |}.

Definition set_nextchar (s : string) (d : getopt_data) : getopt_data :=
  {| optind := optind d; opterr := opterr d; optopt := optopt d;
     optarg := optarg d; initialized := initialized d; nextchar := s;
     first_nonopt := first_nonopt d; last_nonopt := last_nonopt d |}.

Definition set_first_nonopt (n : nat) (d : getopt_data) : getopt_data :=
  {| optind := optind d; opterr := opterr d; optopt := optopt d;
     optarg := optarg d; initialized := initialized d; nextchar := nextchar d;
     first_nonopt := n; last_nonopt := last_nonopt d |}.

Definition set_last_nonopt (n : nat) (d : getopt_data) : getopt_data :=
  {| optind := optind d; opterr := opterr d; optopt := optopt d;
     optarg := optarg d; initialized := initialized d; nextchar := nextchar d;
     first_nonopt := first_nonopt d; last_nonopt := n |}.

Definition set_initialized (b : bool) (d : getopt_data) : getopt_data :=
  {| optind := optind d; opterr := opterr d; optopt := optopt d;
     optarg := optarg d; initialized := b; nextchar := nextchar d;
     first_nonopt := first_nonopt d; last_nonopt := last_nonopt d |}.

Definition incr_optind (d : getopt_data) : getopt_data :=
  set_optind (S (optind d)) d.

(** The variables as the C library has them when the process starts.
    [optopt] is the member of the private data, zero in a process that
    starts, which is what the public variable holds after any call; the '?'
    the public variable is declared with is gone at the first call, and
    nothing reads it before. *)
Definition getopt_start : getopt_data :=
  {| optind := 1; opterr := true; optopt := 0;
     optarg := None; initialized := false; nextchar := EmptyString;
     first_nonopt := 0; last_nonopt := 0 |}.

(** [argv[i]]. *)
Definition arg (argv : list string) (i : nat) : string :=
  nth i argv EmptyString.

(** [_getopt_initialize]. The option string of [cl_parser] starts with '+',
    which selects the ordering REQUIRE_ORDER: the scan stops at the first
    argument that is not an option, and nothing in [argv] is permuted. The
    model below is of that ordering only. *)
Definition _getopt_initialize (d : getopt_data) : getopt_data :=
  let d := if (optind d =? 0)%nat then set_optind 1%nat d else d in
  let d := set_last_nonopt (optind d) (set_first_nonopt (optind d) d) in
  set_initialized true (set_nextchar EmptyString d).

(** The option string without its leading '+' or '-'. *)
Definition skip_ordering (optstring : string) : string :=
  match optstring with
  | String "+"%char r => r
  | String "-"%char r => r
  | _ => optstring
  end.

(** The macro NONOPTION_P on [argv[optind]]. *)
Definition NONOPTION_P (a : string) : bool :=
  negb (Ascii.eqb (char_at a 0) "-") || Ascii.eqb (char_at a 1) zero.

(** The character [getopt_long] returns for a missing required argument. *)
Definition missing_code (optstring : string) : Z :=
  if Ascii.eqb (char_at optstring 0) ":" then char_code ":"
  else char_code "?".

Definition diag (print_errors : bool) (m : getopt_msg) : list getopt_msg :=
  if print_errors then [m] else [].

(** The tail of [_getopt_internal_r]: "Look at and handle the next short
    option-character". [c] is the character read from [__nextchar] and
    [rest] what follows it in the same argument; [optstring] has lost its
    leading '+'. The branch for "W;" is left out: no 'W' is in the option
    string of [cl_parser]. *)
Definition short_option (argv : list string) (optstring : string)
    (print_errors : bool) (d : getopt_data) (c : ascii) (rest : string)
    : Z * getopt_data * list getopt_msg :=
  let argc := List.length argv in
  let d := set_nextchar rest d in
  let d := match rest with EmptyString => incr_optind d | _ => d end in
  match strchr optstring c with
  | None =>
      (char_code "?", set_optopt (char_code c) d,
       diag print_errors (invalid_option c))
  | Some temp =>
      if Ascii.eqb c ":" || Ascii.eqb c ";" then
        (char_code "?", set_optopt (char_code c) d,
         diag print_errors (invalid_option c))
      else if Ascii.eqb (char_at temp 1) ":" then
        if Ascii.eqb (char_at temp 2) ":" then
          (* an option that accepts an argument optionally *)
          match rest with
          | String _ _ =>
              (char_code c,
               set_nextchar EmptyString (incr_optind (set_optarg (Some rest) d)),
               [])
          | EmptyString =>
              (char_code c, set_nextchar EmptyString (set_optarg None d), [])
          end
        else
          (* an option that requires an argument *)
          match rest with
          | String _ _ =>
              (char_code c,
               set_nextchar EmptyString (incr_optind (set_optarg (Some rest) d)),
               [])
          | EmptyString =>
              if (optind d =? argc)%nat then
                (missing_code optstring,
                 set_nextchar EmptyString (set_optopt (char_code c) d),
                 diag print_errors (option_requires_an_argument c))
              else
                (char_code c,
                 set_nextchar EmptyString
                   (incr_optind (set_optarg (Some (arg argv (optind d))) d)),
                 [])
          end
      else (char_code c, d, [])
  end.

(** The name of a long option as typed: the text up to the first '=', and
    the text after it when there is one ([nameend + 1]). *)
Fixpoint split_name (s : string) : string * option string :=
  match s with
  | EmptyString => (EmptyString, None)
  | String c r =>
      if Ascii.eqb c "=" then (EmptyString, Some r)
      else let '(n, v) := split_name r in (String c n, v)
  end.

(** The first loop of [process_long_option]: an exact match. *)
Fixpoint exact_match (longopts : list struct_option) (nm : string)
    : option struct_option :=
  match longopts with
  | [] => None
  | p :: ps => if streq (name p) nm then Some p else exact_match ps nm
  end.

Definition same_option (p q : struct_option) : bool :=
  match has_arg p, has_arg q with
  | no_argument, no_argument
  | required_argument, required_argument
  | optional_argument, optional_argument => Ascii.eqb (val p) (val q)
  | _, _ => false
  end.

(** The second loop: abbreviations. [strncmp(p->name, nextchar, namelen)]
    is 0 when the typed name is a prefix of [p->name]. The result is the
    first such row and whether a later one differs from it in [has_arg] or
    [val] (the name is then ambiguous). *)
Fixpoint abbrev_match (longopts : list struct_option) (nm : string)
    (pfound : option struct_option) (ambig : bool)
    : option struct_option * bool :=
  match longopts with
  | [] => (pfound, ambig)
  | p :: ps =>
      if String.prefix nm (name p) then
        match pfound with
        | None => abbrev_match ps nm (Some p) ambig
        | Some q =>
            abbrev_match ps nm pfound (ambig || negb (same_option q p))
        end
      else abbrev_match ps nm pfound ambig
  end.

(** [process_long_option] for [getopt_long] (not [getopt_long_only]), with
    the prefix "--". On entry [__nextchar] is the argument without its two
    dashes. *)
Definition process_long_option (argv : list string) (optstring : string)
    (longopts : list struct_option) (print_errors : bool) (d : getopt_data)
    : Z * getopt_data * list getopt_msg :=
  let argc := List.length argv in
  let '(nm, nameend) := split_name (nextchar d) in
  let lookup :=
    match exact_match longopts nm with
    | Some p => (Some p, false)
    | None => abbrev_match longopts nm None false
    end in
  match lookup with
  | (_, true) =>
      (char_code "?",
       set_optopt 0 (incr_optind (set_nextchar EmptyString d)),
       diag print_errors (option_is_ambiguous "--" (nextchar d)))
  | (None, false) =>
      (char_code "?",
       set_optopt 0 (incr_optind (set_nextchar EmptyString d)),
       diag print_errors (unrecognized_option "--" (nextchar d)))
  | (Some pfound, false) =>
      (* We have found a matching long option.  Consume it. *)
      let d := set_nextchar EmptyString (incr_optind d) in
      match nameend with
      | Some v =>
          match has_arg pfound with
          | no_argument =>
              (char_code "?", set_optopt (char_code (val pfound)) d,
               diag print_errors
                 (option_doesnt_allow_an_argument "--" (name pfound)))
          | _ => (char_code (val pfound), set_optarg (Some v) d, [])
          end
      | None =>
          match has_arg pfound with
          | required_argument =>
              if (optind d <? argc)%nat then
                (char_code (val pfound),
                 incr_optind (set_optarg (Some (arg argv (optind d))) d), [])
              else
                (missing_code optstring,
                 set_optopt (char_code (val pfound)) d,
                 diag print_errors
                   (long_option_requires_an_argument "--" (name pfound)))
          | _ => (char_code (val pfound), d, [])
          end
      end
  end.

(** "Advance to the next ARGV-element": the special argument "--" ends the
    options; it is skipped, and [optind] ends on the argument after it. *)
Definition skip_double_dash (argv : list string) (d : getopt_data)
    : getopt_data :=
  let argc := List.length argv in
  if negb (optind d =? argc)%nat && streq (arg argv (optind d)) "--" then
    let d := incr_optind d in
    (* [exchange] is not called: under REQUIRE_ORDER [__first_nonopt] and
       [__last_nonopt] are equal for as long as the scan goes on *)
    let d :=
      if (first_nonopt d =? last_nonopt d)%nat
      then set_first_nonopt (optind d) d else d in
    set_optind argc (set_last_nonopt argc d)
  else d.

(** [getopt_long(argc, argv, optstring, longopts, &option_index)]: the
    value returned, the variables after the call and the diagnostics
    written. -1 ends the scan. *)
Definition getopt_long (argv : list string) (optstring : string)
    (longopts : list struct_option) (d : getopt_data)
    : Z * getopt_data * list getopt_msg :=
  let argc := List.length argv in
  if (argc <? 1)%nat then (-1, d, [])
  else
    let d := set_optarg None d in
    let d :=
      if (optind d =? 0)%nat || negb (initialized d)
      then _getopt_initialize d else d in
    let optstring := skip_ordering optstring in
    let print_errors :=
      opterr d && negb (Ascii.eqb (char_at optstring 0) ":") in
    match nextchar d with
    | String c rest => short_option argv optstring print_errors d c rest
    | EmptyString =>
        let d :=
          if (optind d <? last_nonopt d)%nat
          then set_last_nonopt (optind d) d else d in
        let d :=
          if (optind d <? first_nonopt d)%nat
          then set_first_nonopt (optind d) d else d in
        let d := skip_double_dash argv d in
        if (optind d =? argc)%nat then
          (-1,
           (if (first_nonopt d =? last_nonopt d)%nat then d
            else set_optind (first_nonopt d) d),
           [])
        else if NONOPTION_P (arg argv (optind d)) then (-1, d, [])
        else
          match arg argv (optind d) with
          | String _ (String "-"%char nm) =>
              process_long_option argv optstring longopts print_errors
                (set_nextchar nm d)
          | String _ (String c rest) =>
              short_option argv optstring print_errors d c rest
          | _ => (-1, d, [])
          end
    end.

End Getopt.

Import Getopt.

(** ** strace.ebpf.h and the other headers: what cl_parser uses of them *)

(** Modelled from the spec: [enum ff_mode] of strace.ebpf.h, which the
    sources at hand do not include. The parser names only [E_FF_FULL]; the
    spec gives the follow-fork mode the two values none and full. *)
Inductive ff_mode_t : Type :=
| E_FF_DISABLED
| E_FF_FULL.

(** [struct cl_options], the members [cl_parser] writes. The enumerations
    behind [fnr_mode] and the output format are integers, as in C. *)
Record cl_options : Type := {
  pid : Z;
  command : bool;
  timestamp : bool;
  failed : bool;
  debug : bool;
  do_not_print_progress : Z;
  out_fn : option string;
  out_lf_fld_sep_ch : ascii;
  ebpf_src_dir : option string;
  expr : option string;
  out_fmt_str : option string;
  fnr_mode : Z;
  ff_mode : ff_mode_t;
  ff_separate_logs : bool
}.

Definition set_pid (v : Z) (o : cl_options) : cl_options :=
  {| pid := v; command := command o; timestamp := timestamp o;
     failed := failed o; debug := debug o;
     do_not_print_progress := do_not_print_progress o; out_fn := out_fn o;
     out_lf_fld_sep_ch := out_lf_fld_sep_ch o;
     ebpf_src_dir := ebpf_src_dir o; expr := expr o;
     out_fmt_str := out_fmt_str o; fnr_mode := fnr_mode o;
     ff_mode := ff_mode o; ff_separate_logs := ff_separate_logs o |}.

Definition set_command (v : bool) (o : cl_options) : cl_options :=
  {| pid := pid o; command := v; timestamp := timestamp o;
     failed := failed o; debug := debug o;
     do_not_print_progress := do_not_print_progress o; out_fn := out_fn o;
     out_lf_fld_sep_ch := out_lf_fld_sep_ch o;
     ebpf_src_dir := ebpf_src_dir o; expr := expr o;
     out_fmt_str := out_fmt_str o; fnr_mode := fnr_mode o;
     ff_mode := ff_mode o; ff_separate_logs := ff_separate_logs o |}.

Definition set_timestamp (v : bool) (o : cl_options) : cl_options :=
  {| pid := pid o; command := command o; timestamp := v;
     failed := failed o; debug := debug o;
     do_not_print_progress := do_not_print_progress o; out_fn := out_fn o;
     out_lf_fld_sep_ch := out_lf_fld_sep_ch o;
     ebpf_src_dir := ebpf_src_dir o; expr := expr o;
     out_fmt_str := out_fmt_str o; fnr_mode := fnr_mode o;
     ff_mode := ff_mode o; ff_separate_logs := ff_separate_logs o |}.

Definition set_failed (v : bool) (o : cl_options) : cl_options :=
  {| pid := pid o; command := command o; timestamp := timestamp o;
     failed := v; debug := debug o;
     do_not_print_progress := do_not_print_progress o; out_fn := out_fn o;
     out_lf_fld_sep_ch := out_lf_fld_sep_ch o;
     ebpf_src_dir := ebpf_src_dir o; expr := expr o;
     out_fmt_str := out_fmt_str o; fnr_mode := fnr_mode o;
     ff_mode := ff_mode o; ff_separate_logs := ff_separate_logs o |}.

Definition set_debug (v : bool) (o : cl_options) : cl_options :=
  {| pid := pid o; command := command o; timestamp := timestamp o;
     failed := failed o; debug := v;
     do_not_print_progress := do_not_print_progress o; out_fn := out_fn o;
     out_lf_fld_sep_ch := out_lf_fld_sep_ch o;
     ebpf_src_dir := ebpf_src_dir o; expr := expr o;
     out_fmt_str := out_fmt_str o; fnr_mode := fnr_mode o;
     ff_mode := ff_mode o; ff_separate_logs := ff_separate_logs o |}.

Definition set_do_not_print_progress (v : Z) (o : cl_options) : cl_options :=
  {| pid := pid o; command := command o; timestamp := timestamp o;
     failed := failed o; debug := debug o;
     do_not_print_progress := v; out_fn := out_fn o;
     out_lf_fld_sep_ch := out_lf_fld_sep_ch o;
     ebpf_src_dir := ebpf_src_dir o; expr := expr o;
     out_fmt_str := out_fmt_str o; fnr_mode := fnr_mode o;
     ff_mode := ff_mode o; ff_separate_logs := ff_separate_logs o |}.

Definition set_out_fn (v : option string) (o : cl_options) : cl_options :=
  {| pid := pid o; command := command o; timestamp := timestamp o;
     failed := failed o; debug := debug o;
     do_not_print_progress := do_not_print_progress o; out_fn := v;
     out_lf_fld_sep_ch := out_lf_fld_sep_ch o;
     ebpf_src_dir := ebpf_src_dir o; expr := expr o;
     out_fmt_str := out_fmt_str o; fnr_mode := fnr_mode o;
     ff_mode := ff_mode o; ff_separate_logs := ff_separate_logs o |}.

Definition set_out_lf_fld_sep_ch (v : ascii) (o : cl_options) : cl_options :=
  {| pid := pid o; command := command o; timestamp := timestamp o;
     failed := failed o; debug := debug o;
     do_not_print_progress := do_not_print_progress o; out_fn := out_fn o;
     out_lf_fld_sep_ch := v;
     ebpf_src_dir := ebpf_src_dir o; expr := expr o;
     out_fmt_str := out_fmt_str o; fnr_mode := fnr_mode o;
     ff_mode := ff_mode o; ff_separate_logs := ff_separate_logs o |}.

Definition set_ebpf_src_dir (v : option string) (o : cl_options)
    : cl_options :=
  {| pid := pid o; command := command o; timestamp := timestamp o;
     failed := failed o; debug := debug o;
     do_not_print_progress := do_not_print_progress o; out_fn := out_fn o;
     out_lf_fld_sep_ch := out_lf_fld_sep_ch o;
     ebpf_src_dir := v; expr := expr o;
     out_fmt_str := out_fmt_str o; fnr_mode := fnr_mode o;
     ff_mode := ff_mode o; ff_separate_logs := ff_separate_logs o |}.

Definition set_expr (v : option string) (o : cl_options) : cl_options :=
  {| pid := pid o; command := command o; timestamp := timestamp o;
     failed := failed o; debug := debug o;
     do_not_print_progress := do_not_print_progress o; out_fn := out_fn o;
     out_lf_fld_sep_ch := out_lf_fld_sep_ch o;
     ebpf_src_dir := ebpf_src_dir o; expr := v;
     out_fmt_str := out_fmt_str o; fnr_mode := fnr_mode o;
     ff_mode := ff_mode o; ff_separate_logs := ff_separate_logs o |}.

Definition set_out_fmt_str (v : option string) (o : cl_options)
    : cl_options :=
  {| pid := pid o; command := command o; timestamp := timestamp o;
     failed := failed o; debug := debug o;
     do_not_print_progress := do_not_print_progress o; out_fn := out_fn o;
     out_lf_fld_sep_ch := out_lf_fld_sep_ch o;
     ebpf_src_dir := ebpf_src_dir o; expr := expr o;
     out_fmt_str := v; fnr_mode := fnr_mode o;
     ff_mode := ff_mode o; ff_separate_logs := ff_separate_logs o |}.

Definition set_fnr_mode (v : Z) (o : cl_options) : cl_options :=
  {| pid := pid o; command := command o; timestamp := timestamp o;
     failed := failed o; debug := debug o;
     do_not_print_progress := do_not_print_progress o; out_fn := out_fn o;
     out_lf_fld_sep_ch := out_lf_fld_sep_ch o;
     ebpf_src_dir := ebpf_src_dir o; expr := expr o;
     out_fmt_str := out_fmt_str o; fnr_mode := v;
     ff_mode := ff_mode o; ff_separate_logs := ff_separate_logs o |}.

Definition set_ff_mode (v : ff_mode_t) (o : cl_options) : cl_options :=
  {| pid := pid o; command := command o; timestamp := timestamp o;
     failed := failed o; debug := debug o;
     do_not_print_progress := do_not_print_progress o; out_fn := out_fn o;
     out_lf_fld_sep_ch := out_lf_fld_sep_ch o;
     ebpf_src_dir := ebpf_src_dir o; expr := expr o;
     out_fmt_str := out_fmt_str o; fnr_mode := fnr_mode o;
     ff_mode := v; ff_separate_logs := ff_separate_logs o |}.

Definition set_ff_separate_logs (v : bool) (o : cl_options) : cl_options :=
  {| pid := pid o; command := command o; timestamp := timestamp o;
     failed := failed o; debug := debug o;
     do_not_print_progress := do_not_print_progress o; out_fn := out_fn o;
     out_lf_fld_sep_ch := out_lf_fld_sep_ch o;
     ebpf_src_dir := ebpf_src_dir o; expr := expr o;
     out_fmt_str := out_fmt_str o; fnr_mode := fnr_mode o;
     ff_mode := ff_mode o; ff_separate_logs := v |}.

(** The routines of the other translation units that [cl_parser] calls for
    a value: the two lookups, and the status [print_syscalls_table(stdout)]
    returns. They are parameters of the model. *)
Record externals : Type := {
  out_fmt_str2enum : string -> Z;
  choose_fnr_mode : string -> Z;
  print_syscalls_table : Z
}.

Inductive FILE : Type := stdout | stderr.

(** The second argument of [get_sc_list]: the filter [is_a_sc], or NULL. *)
Inductive sc_filter : Type := is_a_sc.

Inductive fmt_arg : Type :=
| arg_s (s : string)
| arg_d (n : Z)
| arg_c (c : Z).

(** What the parser writes, call by call. [ERROR] and [INFO] are the macros
    of utils.h with their format and arguments. *)
Inductive event : Type :=
| getopt_error (m : getopt_msg)
| ERROR (fmt : string) (args : list fmt_arg)
| INFO (fmt : string)
| fprint_help (f : FILE)
| fprint_trace_list (f : FILE)
| get_sc_list (f : FILE) (filter : option sc_filter)
| print_syscalls_table_to (f : FILE).

Definition EXIT_SUCCESS : Z := 0.
Definition EXIT_FAILURE : Z := 1.

(** ** The state the parser works on, and its control flow *)

Record state : Type := {
  clo : cl_options;
  Out_lf_fmt : Z;
  getopt : getopt_data;
  output : list event
}.

Definition set_clo (o : cl_options) (st : state) : state :=
  {| clo := o; Out_lf_fmt := Out_lf_fmt st; getopt := getopt st;
     output := output st |}.

Definition set_Out_lf_fmt (v : Z) (st : state) : state :=
  {| clo := clo st; Out_lf_fmt := v; getopt := getopt st;
     output := output st |}.

Definition set_getopt (d : getopt_data) (st : state) : state :=
  {| clo := clo st; Out_lf_fmt := Out_lf_fmt st; getopt := d;
     output := output st |}.

Definition set_output (l : list event) (st : state) : state :=
  {| clo := clo st; Out_lf_fmt := Out_lf_fmt st; getopt := getopt st;
     output := l |}.

(** A statement either goes on with a value or ends the process. *)
Inductive result (A : Type) : Type :=
| Val (a : A)
| Exit (status : Z).

Arguments Val {A} a.
Arguments Exit {A} status.

Definition M (A : Type) : Type := state -> result A * state.

Definition ret {A : Type} (a : A) : M A := fun st => (Val a, st).

Definition bind {A B : Type} (m : M A) (k : A -> M B) : M B :=
  fun st =>
    match m st with
    | (Val a, st') => k a st'
    | (Exit s, st') => (Exit s, st')
    end.

Notation "x <- m ;; k" := (bind m (fun x => k))
  (at level 61, m at next level, right associativity).
Notation "m ;; k" := (bind m (fun _ => k))
  (at level 61, right associativity).

Definition exit {A : Type} (status : Z) : M A := fun st => (Exit status, st).

Definition emit (e : event) : M unit :=
  fun st => (Val tt, set_output (output st ++ [e]) st).

Definition update (f : cl_options -> cl_options) : M unit :=
  fun st => (Val tt, set_clo (f (clo st)) st).

Definition read_clo : M cl_options := fun st => (Val (clo st), st).

Definition read_optarg : M (option string) :=
  fun st => (Val (optarg (getopt st)), st).

Definition assign_Out_lf_fmt (v : Z) : M unit :=
  fun st => (Val tt, set_Out_lf_fmt v st).

(** ** cl_parser.c *)

(** [check_optarg]: a NULL argument ends the process; otherwise the model
    hands the string on to the caller (the C function returns nothing that
    is used). *)
Definition check_optarg (optarg : option string) : M string :=
  match optarg with
  | None =>
      emit (ERROR "missing mandatory option's argument" []) ;;
      emit (fprint_help stderr) ;;
      exit EXIT_FAILURE
  | Some s => ret s
  end.

Definition long_options : list struct_option :=
  [ {| name := "timestamp";        has_arg := no_argument;       val := "t" |};
    {| name := "failed";           has_arg := no_argument;       val := "X" |};
    {| name := "help";             has_arg := no_argument;       val := "h" |};
    {| name := "debug";            has_arg := no_argument;       val := "d" |};
    {| name := "list";             has_arg := no_argument;       val := "L" |};
    {| name := "ll-list";          has_arg := no_argument;       val := "R" |};
    {| name := "builtin-list";     has_arg := no_argument;       val := "B" |};
    {| name := "no-progress";      has_arg := no_argument;       val := "r" |};
    {| name := "pid";              has_arg := required_argument; val := "p" |};
    {| name := "format";           has_arg := required_argument; val := "l" |};
    {| name := "string-args";      has_arg := required_argument; val := "s" |};
    {| name := "expr";             has_arg := required_argument; val := "e" |};
    {| name := "output";           has_arg := required_argument; val := "o" |};
    {| name := "ebpf-src-dir";     has_arg := required_argument; val := "N" |};
    {| name := "hex-separator";    has_arg := required_argument; val := "K" |};
    {| name := "full-follow-fork"; has_arg := optional_argument; val := "f" |}
  ].

Definition optstring : string := "+tXhdLRBrp:l:s:e:o:N:K:f::".

(** [case 'x':] of the switch. *)
Definition is_case (c : Z) (x : ascii) : bool := c =? char_code x.

Section Parser.

Context (ext : externals).

(** The body of [switch (c)]: [Val tt] is a [break], after which the loop
    calls [getopt_long] again. *)
Definition dispatch (c : Z) : M unit :=
  if is_case c "r" then
    update (set_do_not_print_progress 1)
  else if is_case c "t" then
    update (set_timestamp true)
  else if is_case c "X" then
    update (set_failed true)
  else if is_case c "h" then
    emit (fprint_help stdout) ;;
    exit EXIT_SUCCESS
  else if is_case c "d" then
    update (set_debug true)
  else if is_case c "p" then
    a <- read_optarg ;;
    optarg <- check_optarg a ;;
    update (set_pid (atoi optarg)) ;;
    o <- read_clo ;;
    if pid o <? 1 then
      emit (ERROR "wrong value for pid option is provided: '%s' => '%d'"
              [arg_s optarg; arg_d (pid o)]) ;;
      exit EXIT_FAILURE
    else ret tt
  else if is_case c "o" then
    a <- read_optarg ;;
    optarg <- check_optarg a ;;
    update (set_out_fn (Some optarg))
  else if is_case c "K" then
    a <- read_optarg ;;
    optarg <- check_optarg a ;;
    update (set_out_lf_fld_sep_ch (char_at optarg 0))
  else if is_case c "N" then
    a <- read_optarg ;;
    optarg <- check_optarg a ;;
    update (set_ebpf_src_dir (Some optarg))
  else if is_case c "e" then
    a <- read_optarg ;;
    optarg <- check_optarg a ;;
    if (strcasecmp optarg "list" =? 0) || (strcasecmp optarg "help" =? 0) then
      emit (INFO
        "List of supported expressions: 'help', 'list', 'trace=set'") ;;
      emit (INFO
        "For list of supported sets you should use 'trace=help' or 'trace=list'") ;;
      exit EXIT_SUCCESS
    else if (strcasecmp optarg "trace=help" =? 0)
            || (strcasecmp optarg "trace=list" =? 0) then
      emit (fprint_trace_list stderr) ;;
      emit (INFO "You can combine sets by using comma.") ;;
      exit EXIT_SUCCESS
    else
      update (set_expr (Some optarg))
  else if is_case c "l" then
    a <- read_optarg ;;
    optarg <- check_optarg a ;;
    if (strcasecmp optarg "list" =? 0) || (strcasecmp optarg "help" =? 0) then
      emit (INFO
        "List of supported formats: 'bin', 'binary', 'hex', 'hex_raw', 'hex_sl', 'strace', 'list' & 'help'") ;;
      exit EXIT_SUCCESS
    else
      update (set_out_fmt_str (Some optarg)) ;;
      assign_Out_lf_fmt (out_fmt_str2enum ext optarg)
  else if is_case c "s" then
    a <- read_optarg ;;
    optarg <- check_optarg a ;;
    update (set_fnr_mode (choose_fnr_mode ext optarg))
  else if is_case c "L" then
    emit (get_sc_list stdout (Some is_a_sc)) ;;
    exit EXIT_SUCCESS
  else if is_case c "R" then
    emit (get_sc_list stdout None) ;;
    exit EXIT_SUCCESS
  else if is_case c "B" then
    emit (print_syscalls_table_to stdout) ;;
    let res := print_syscalls_table ext in
    if res =? 1 then exit EXIT_SUCCESS
    else if res =? 0 then exit EXIT_FAILURE
    else exit res
  else if is_case c "f" then
    update (set_ff_mode E_FF_FULL) ;;
    a <- read_optarg ;;
    match a with
    | Some _ => update (set_ff_separate_logs true)
    | None => ret tt
    end
  else if is_case c ":" then
    emit (ERROR "missing mandatory option's argument" []) ;;
    emit (fprint_help stderr) ;;
    exit EXIT_FAILURE
  else if is_case c "?" then
    emit (fprint_help stderr) ;;
    exit EXIT_FAILURE
  else
    (* default: falls through to case '?' *)
    emit (ERROR "unknown option: '-%c'" [arg_c c]) ;;
    emit (fprint_help stderr) ;;
    exit EXIT_FAILURE.

(** The call of [getopt_long] in the loop: its diagnostics go to stderr. *)
Definition call_getopt_long (argv : list string) : M Z :=
  fun st =>
    let '(c, d, msgs) := getopt_long argv optstring long_options (getopt st) in
    (Val c,
     set_output (output st ++ map getopt_error msgs) (set_getopt d st)).

(** One turn of [while (1)]: the call of [getopt_long], then the switch.
    [Val false] is the [break] on -1, [Val true] goes round again. *)
Definition cl_parser_turn (argv : list string) : M bool :=
  c <- call_getopt_long argv ;;
  if c =? -1 then ret false
  else dispatch c ;; ret true.

(** [while (1) { ... }]. Each turn of the loop uses one unit of [fuel];
    [None] is a loop that is still running when the fuel is spent. *)
Fixpoint cl_parser_loop (fuel : nat) (argv : list string) (st : state)
    : option (result unit * state) :=
  match fuel with
  | O => None
  | S fuel' =>
      match cl_parser_turn argv st with
      | (Val true, st') => cl_parser_loop fuel' argv st'
      | (Val false, st') => Some (Val tt, st')
      | (Exit s, st') => Some (Exit s, st')
      end
  end.

(** After the loop: [if (optind < argc) clo->command = true; return optind]. *)
Definition cl_parser_end (argv : list string) : M nat :=
  fun st =>
    let n := optind (getopt st) in
    let st' :=
      if (n <? List.length argv)%nat
      then set_clo (set_command true (clo st)) st else st in
    (Val n, st').

Definition cl_parser_fuel (fuel : nat) (argv : list string) (st : state)
    : option (result nat * state) :=
  match cl_parser_loop fuel argv st with
  | None => None
  | Some (Exit s, st') => Some (Exit s, st')
  | Some (Val tt, st') => Some (cl_parser_end argv st')
  end.

(** The size of [argv] from index [i] on: its characters, and two more for
    each argument. *)
Definition rest_size (argv : list string) (i : nat) : nat :=
  fold_right (fun a n => (String.length a + 2 + n)%nat) 0%nat (skipn i argv).

(** Every turn of the loop but the last consumes a character of [argv] or
    moves [optind] forward, so this many turns are enough (see
    [cl_parser_total] below). *)
Definition scan_budget (argv : list string) : nat := S (rest_size argv 0).

(** [cl_parser(clo, argc, argv)]: [st] holds [*clo], the global
    [Out_lf_fmt], the variables of getopt and what was written so far. *)
Definition cl_parser (argv : list string) (st : state)
    : option (result nat * state) :=
  cl_parser_fuel (scan_budget argv) argv st.

End Parser.

(** A configuration and a state to run examples from: a zeroed
    [struct cl_options], nothing written yet, getopt never called. *)
Definition clo_zero : cl_options :=
  {| pid := 0; command := false; timestamp := false; failed := false;
     debug := false; do_not_print_progress := 0; out_fn := None;
     out_lf_fld_sep_ch := zero; ebpf_src_dir := None; expr := None;
     out_fmt_str := None; fnr_mode := 0; ff_mode := E_FF_DISABLED;
     ff_separate_logs := false |}.

Definition entry_state (o : cl_options) (fmt : Z) : state :=
  {| clo := o; Out_lf_fmt := fmt; getopt := getopt_start; output := [] |}.

(** Externals to run examples with: the two lookups give the length of
    the name, and [print_syscalls_table] returns 1. *)
Definition ext_sample : externals :=
  {| out_fmt_str2enum := fun s => Z.of_nat (String.length s);
     choose_fnr_mode := fun s => Z.of_nat (String.length s);
     print_syscalls_table := 1 |}.

(** The externals with a [print_syscalls_table] that returns [r]. *)
Definition ext_returning (r : Z) : externals :=
  {| out_fmt_str2enum := out_fmt_str2enum ext_sample;
     choose_fnr_mode := choose_fnr_mode ext_sample;
     print_syscalls_table := r |}.

(** The state of the parser once it has dealt with a first argument "-t". *)
Definition state_after_t : state :=
  {| clo := set_timestamp true clo_zero; Out_lf_fmt := 0;
     getopt :=
       {| optind := 2; opterr := true; optopt := 0;
          optarg := None; initialized := true; nextchar := EmptyString;
          first_nonopt := 1; last_nonopt := 1 |};
     output := [] |}.

(** The row of the table for "--pid". *)
Definition pid_row : struct_option :=
  {| name := "pid"; has_arg := required_argument; val := "p" |}.

(** ** Notions the properties are stated with *)

(** A C string holds no NUL. *)
Definition is_c_string (s : string) : bool :=
  forallb (fun c => negb (Ascii.eqb c zero)) (list_ascii_of_string s).

Fixpoint lowered (s : string) : string :=
  match s with
  | EmptyString => EmptyString
  | String c r => String (tolower c) (lowered r)
  end.

(** Equality of two strings when case is ignored. *)
Definition eq_nocase (a b : string) : bool := String.eqb (lowered a) (lowered b).

(** What is left to scan: the characters of the cluster of short options
    under way, and the arguments not looked at yet. *)
Definition scan_measure (argv : list string) (d : getopt_data) : nat :=
  match nextchar d with
  | EmptyString => rest_size argv (optind d)
  | String _ r => (S (String.length r) + rest_size argv (S (optind d)))%nat
  end.

(** The states of getopt in which a scan can be: [optind] is inside [argv]
    (at a cluster under way when there is one), and no argument was set
    aside as a non-option, which is what REQUIRE_ORDER keeps. *)
Definition scanning (argv : list string) (d : getopt_data) : Prop :=
  (optind d <= List.length argv)%nat /\
  (nextchar d <> EmptyString ->
     (optind d < List.length argv)%nat /\ initialized d = true
     /\ optind d <> 0%nat) /\
  (initialized d = true -> optind d <> 0%nat ->
     first_nonopt d = last_nonopt d).

(** The complaint of [check_optarg] and of [case ':']. *)
Definition missing_argument_error : event :=
  ERROR "missing mandatory option's argument" [].

(** The characters of the switch whose case calls [check_optarg]: those
    the table gives a required argument. *)
Definition needs_optarg (c : Z) : bool :=
  existsb
    (fun p =>
       match has_arg p with
       | required_argument => c =? char_code (val p)
       | _ => false
       end)
    long_options.

(** What a caller or an onlooker sees of a run: how it ended, [*clo], the
    global [Out_lf_fmt], and what was written. *)
Definition report (r : option (result nat * state))
    : option (result nat * cl_options * Z * list event) :=
  match r with
  | Some (x, st) => Some (x, clo st, Out_lf_fmt st, output st)
  | None => None
  end.

(** The complaint of [case 'p']. *)
Definition wrong_pid_error (v : string) : event :=
  ERROR "wrong value for pid option is provided: '%s' => '%d'"
    [arg_s v; arg_d (atoi v)].

(** What [case 'e'] writes for "help" and "list", what it writes for
    "trace=help" and "trace=list", and what [case 'l'] writes for "help"
    and "list". *)
Definition expr_help : list event :=
  [INFO "List of supported expressions: 'help', 'list', 'trace=set'";
   INFO "For list of supported sets you should use 'trace=help' or 'trace=list'"].

Definition trace_sets_listing : list event :=
  [fprint_trace_list stderr; INFO "You can combine sets by using comma."].

Definition format_listing : list event :=
  [INFO "List of supported formats: 'bin', 'binary', 'hex', 'hex_raw', 'hex_sl', 'strace', 'list' & 'help'"].

(** The exit status [case 'B'] derives from what [print_syscalls_table]
    returned. *)
Definition builtin_list_status (res : Z) : Z :=
  if res =? 1 then EXIT_SUCCESS
  else if res =? 0 then EXIT_FAILURE
  else res.

(** An option of the table as it is typed, short and long, alone and with
    a value attached. *)
Definition short_form (p : struct_option) : string :=
  String "-" (String (val p) EmptyString).

Definition long_form (p : struct_option) : string := "--" ++ name p.

Definition short_attached (p : struct_option) (v : string) : string :=
  String "-" (String (val p) v).

Definition long_attached (p : struct_option) (v : string) : string :=
  "--" ++ name p ++ "=" ++ v.

(** The labels of the switch, in the order of the source; [default] is
    taken by a character that is none of them. *)
Definition case_labels : list ascii :=
  ["r"; "t"; "X"; "h"; "d"; "p"; "o"; "K"; "N"; "e"; "l"; "s"; "L"; "R";
   "B"; "f"; ":"; "?"]%char.

Definition has_case (c : Z) : bool := existsb (is_case c) case_labels.

(** The complaint of [default]. *)
Definition unknown_option_error (c : Z) : event :=
  ERROR "unknown option: '-%c'" [arg_c c].

(** The range of [int]. *)
Definition INT_MIN : Z := - 2 ^ 31.
Definition INT_MAX : Z := 2 ^ 31 - 1.

Definition starts_with_digit (s : string) : bool :=
  match s with
  | String c _ => isdigit c
  | EmptyString => false
  end.

(** The tests of [case 'e'] and of [case 'l'] on their argument. *)
Definition reserved_expr (v : string) : bool :=
  (strcasecmp v "list" =? 0) || (strcasecmp v "help" =? 0)
  || (strcasecmp v "trace=help" =? 0) || (strcasecmp v "trace=list" =? 0).

Definition reserved_format (v : string) : bool :=
  (strcasecmp v "list" =? 0) || (strcasecmp v "help" =? 0).

(** No name of the table starts with [nm]. *)
Definition no_long_option (nm : string) : bool :=
  forallb (fun p => negb (String.prefix nm (name p))) long_options.

(** [nm] is the start of the name of [p] and of no other row. *)
Definition abbreviates (nm : string) (p : struct_option) : bool :=
  forallb
    (fun q => negb (String.prefix nm (name q)) || String.eqb (name q) (name p))
    long_options
  && String.prefix nm (name p).

(** [nm] is the start of the names of two rows or more, and the whole
    name of none. *)
Definition ambiguous_name (nm : string) : bool :=
  (1 <? List.length
          (filter (fun q => String.prefix nm (name q)) long_options))%nat
  && negb (existsb (fun q => String.eqb (name q) nm) long_options).

(** What the switch may do to [*clo]: a flag that is set stays set, and the
    follow-fork mode, once full, stays full. *)
Definition flags_kept (o o' : cl_options) : Prop :=
  (timestamp o = true -> timestamp o' = true)
  /\ (failed o = true -> failed o' = true)
  /\ (debug o = true -> debug o' = true)
  /\ (command o = true -> command o' = true)
  /\ (ff_separate_logs o = true -> ff_separate_logs o' = true)
  /\ (ff_mode o = E_FF_FULL -> ff_mode o' = E_FF_FULL)
  /\ (do_not_print_progress o = 1 -> do_not_print_progress o' = 1).

(** Two argument vectors that are the same from index [i] on. *)
Definition agree_from (i : nat) (argv1 argv2 : list string) : Prop :=
  List.length argv1 = List.length argv2 /\
  forall j, (i <= j)%nat -> arg argv1 j = arg argv2 j.

(** ** The scan ends *)

#[local] Arguments Nat.eqb : simpl never.
#[local] Arguments Nat.ltb : simpl never.
#[local] Arguments Nat.leb : simpl never.

Lemma rest_size_at (argv : list string) (i : nat) :
  (i < List.length argv)%nat ->
  rest_size argv i
  = (String.length (arg argv i) + 2 + rest_size argv (S i))%nat.
Proof.
  revert i. induction argv as [|a argv IH]; intros i Hi; simpl in Hi.
  - lia.
  - destruct i as [|i]; [reflexivity|].
    unfold rest_size, arg in *. simpl. apply IH. lia.
Qed.

Lemma rest_size_S (argv : list string) (i : nat) :
  (rest_size argv (S i) <= rest_size argv i)%nat.
Proof.
  destruct (Nat.lt_ge_cases i (List.length argv)) as [H|H].
  - rewrite (rest_size_at argv i H). lia.
  - unfold rest_size. rewrite !skipn_all2 by lia. simpl. lia.
Qed.

Lemma rest_size_mono (argv : list string) (i j : nat) :
  (i <= j)%nat -> (rest_size argv j <= rest_size argv i)%nat.
Proof.
  induction 1 as [|j _ IH]; [lia|].
  pose proof (rest_size_S argv j). lia.
Qed.

Lemma short_option_step argv os pe d c rest code d' msgs :
  short_option argv os pe d c rest = (code, d', msgs) ->
  (optind d < List.length argv)%nat ->
  initialized d = true ->
  optind d <> 0%nat ->
  first_nonopt d = last_nonopt d ->
  scanning argv d'
  /\ (scan_measure argv d'
      <= String.length rest + rest_size argv (S (optind d)))%nat
  /\ (optind d <= optind d')%nat.
Proof.
  intros H Hlt Hinit Hnz Hfl. unfold short_option in H.
  pose proof (rest_size_S argv (S (optind d))) as Hs.
  assert (Hgoal : forall code0 d0 msgs0,
    (code0, d0, msgs0) = (code, d', msgs) ->
    initialized d0 = true -> first_nonopt d0 = last_nonopt d0 ->
    ((nextchar d0 = rest /\ optind d0 = optind d /\ rest <> EmptyString)
     \/ (nextchar d0 = EmptyString /\ optind d0 = S (optind d))
     \/ (nextchar d0 = EmptyString /\ optind d0 = S (S (optind d))
         /\ (S (S (optind d)) <= List.length argv)%nat)) ->
    scanning argv d'
    /\ (scan_measure argv d'
        <= String.length rest + rest_size argv (S (optind d)))%nat
    /\ (optind d <= optind d')%nat).
  { intros code0 d0 msgs0 E Hi Hf Hc. inversion E; subst code0 d0 msgs0.
    unfold scanning, scan_measure.
    destruct Hc as [(Hn & Ho & Hr) | [(Hn & Ho) | (Hn & Ho & Hle)]];
      rewrite Hn, Ho.
    - destruct rest as [|c0 r0]; [congruence|]. simpl.
      repeat split; try lia; auto.
    - repeat split; try lia; auto; congruence.
    - repeat split; try lia; auto; congruence. }
  destruct rest as [|c0 r0]; simpl in H.
  - destruct (strchr os c) as [temp|].
    + destruct (Ascii.eqb c ":" || Ascii.eqb c ";").
      { eapply Hgoal; [exact H | auto ..]. }
      destruct (Ascii.eqb (char_at temp 1) ":").
      * destruct (Ascii.eqb (char_at temp 2) ":").
        { eapply Hgoal; [exact H | auto ..]. }
        destruct (S (optind d) =? List.length argv)%nat eqn:E.
        { eapply Hgoal; [exact H | auto ..]. }
        apply Nat.eqb_neq in E.
        eapply Hgoal; [exact H | auto ..].
        right; right. simpl. repeat split; lia.
      * eapply Hgoal; [exact H | auto ..].
    + eapply Hgoal; [exact H | auto ..].
  - destruct (strchr os c) as [temp|].
    + destruct (Ascii.eqb c ":" || Ascii.eqb c ";").
      { eapply Hgoal; [exact H | auto ..]. left. simpl. repeat split; congruence. }
      destruct (Ascii.eqb (char_at temp 1) ":").
      * destruct (Ascii.eqb (char_at temp 2) ":");
          (eapply Hgoal; [exact H | auto ..]).
      * eapply Hgoal; [exact H | auto ..]. left. simpl. repeat split; congruence.
    + eapply Hgoal; [exact H | auto ..]. left. simpl. repeat split; congruence.
Qed.

Lemma process_long_option_step argv os lo pe d code d' msgs :
  process_long_option argv os lo pe d = (code, d', msgs) ->
  (optind d < List.length argv)%nat ->
  initialized d = true ->
  first_nonopt d = last_nonopt d ->
  scanning argv d' /\ nextchar d' = EmptyString
  /\ (S (optind d) <= optind d')%nat.
Proof.
  intros H Hlt Hinit Hfl. unfold process_long_option in H.
  assert (Hgoal : forall code0 d0 msgs0,
    (code0, d0, msgs0) = (code, d', msgs) ->
    initialized d0 = true -> first_nonopt d0 = last_nonopt d0 ->
    nextchar d0 = EmptyString ->
    (S (optind d) <= optind d0 <= List.length argv)%nat ->
    scanning argv d' /\ nextchar d' = EmptyString
    /\ (S (optind d) <= optind d')%nat).
  { intros code0 d0 msgs0 E Hi Hf Hn Ho. inversion E; subst code0 d0 msgs0.
    unfold scanning. rewrite Hn. repeat split; try lia; auto; congruence. }
  destruct (split_name (nextchar d)) as [nm nameend].
  destruct (match exact_match lo nm with
            | Some p => (Some p, false)
            | None => abbrev_match lo nm None false
            end) as [[pfound|] [|]].
  - eapply Hgoal; [exact H | simpl; auto; lia ..].
  - destruct nameend as [v|].
    + destruct (has_arg pfound);
        (eapply Hgoal; [exact H | simpl; auto; lia ..]).
    + destruct (has_arg pfound);
        try (eapply Hgoal; [exact H | simpl; auto; lia ..]).
      simpl in H.
      destruct (S (optind d) <? List.length argv)%nat eqn:E.
      * apply Nat.ltb_lt in E.
        eapply Hgoal; [exact H | simpl; auto; lia ..].
      * eapply Hgoal; [exact H | simpl; auto; lia ..].
  - eapply Hgoal; [exact H | simpl; auto; lia ..].
  - eapply Hgoal; [exact H | simpl; auto; lia ..].
Qed.

(** A call of [getopt_long] that does not end the scan leaves less to
    scan, and a state a scan can be in. *)
Lemma getopt_long_step argv os lo d code d' msgs :
  getopt_long argv os lo d = (code, d', msgs) ->
  scanning argv d ->
  code <> -1 ->
  scanning argv d'
  /\ (scan_measure argv d' < scan_measure argv d)%nat
  /\ (optind d <= optind d')%nat.
Proof.
  intros H (Hle & Hnc & Hfl) Hcode. unfold getopt_long in H.
  destruct (List.length argv <? 1)%nat eqn:Hargc;
    [inversion H; congruence|].
  apply Nat.ltb_ge in Hargc.
  set (d1 := if (optind (set_optarg None d) =? 0)%nat
                || negb (initialized (set_optarg None d))
             then _getopt_initialize (set_optarg None d)
             else set_optarg None d) in H.
  assert (H1 : initialized d1 = true /\ optind d1 <> 0%nat
               /\ (optind d <= optind d1 <= List.length argv)%nat
               /\ nextchar d1 = nextchar d
               /\ first_nonopt d1 = last_nonopt d1
               /\ (nextchar d = EmptyString \/ optind d1 = optind d)).
  { subst d1. unfold _getopt_initialize. simpl.
    destruct (Nat.eqb_spec (optind d) 0) as [E0|E0]; simpl;
      destruct (initialized d) eqn:Ei; simpl;
      destruct (nextchar d) eqn:En;
      try (destruct Hnc as (? & ? & ?); [congruence|]);
      repeat split; auto; try lia; try congruence. }
  clearbody d1.
  destruct H1 as (Hi1 & Hnz1 & Ho1 & Hn1 & Hf1 & Hor).
  unfold scan_measure at 2.
  rewrite <- Hn1.
  destruct (nextchar d1) as [|c rest] eqn:En1.
  - (* a new element of argv *)
    assert (Hm : (rest_size argv (optind d1) <= rest_size argv (optind d))%nat)
      by (apply rest_size_mono; lia).
    set (d2 := if (optind d1 <? last_nonopt d1)%nat
               then set_last_nonopt (optind d1) d1 else d1) in H.
    set (d3 := if (optind d2 <? first_nonopt d2)%nat
               then set_first_nonopt (optind d2) d2 else d2) in H.
    assert (H3 : initialized d3 = true /\ optind d3 = optind d1
                 /\ nextchar d3 = EmptyString
                 /\ first_nonopt d3 = last_nonopt d3).
    { subst d3 d2.
      destruct (optind d1 <? last_nonopt d1)%nat eqn:E2; simpl.
      - rewrite Hf1, E2. simpl. auto.
      - rewrite Hf1, E2. auto. }
    clearbody d3. clear d2.
    destruct H3 as (Hi3 & Ho3 & Hn3 & Hf3).
    unfold skip_double_dash in H.
    destruct (negb (optind d3 =? List.length argv)%nat
              && streq (arg argv (optind d3)) "--") eqn:Edd.
    { simpl in H. rewrite Nat.eqb_refl in H. inversion H; congruence. }
    destruct (optind d3 =? List.length argv)%nat eqn:Eend;
      [inversion H; congruence|].
    apply Nat.eqb_neq in Eend.
    destruct (NONOPTION_P (arg argv (optind d3))); [inversion H; congruence|].
    assert (Hlt : (optind d3 < List.length argv)%nat) by lia.
    pose proof (rest_size_at argv (optind d3) Hlt) as Hsz.
    destruct (arg argv (optind d3)) as [|c0 [|c1 rest]] eqn:Ea;
      try (inversion H; congruence).
    simpl in Hsz. rewrite Ho3 in Hsz.
    destruct (Ascii.eqb_spec c1 "-") as [->|Hc1].
    + apply process_long_option_step in H; simpl; auto.
      destruct H as (Hs & Hn & Ho). simpl in Ho.
      split; [exact Hs|]. unfold scan_measure. rewrite Hn.
      pose proof (rest_size_mono argv _ _ Ho). rewrite Ho3 in *.
      split; lia.
    + assert (H' : short_option argv (skip_ordering os)
                     (opterr d1
                      && negb (Ascii.eqb (char_at (skip_ordering os) 0) ":"))
                     d3 c1 rest = (code, d', msgs)).
      { destruct c1 as [[] [] [] [] [] [] [] []]; try exact H.
        exfalso; apply Hc1; reflexivity. }
      apply short_option_step in H'; auto; try lia.
      destruct H' as (Hs & Hm' & Ho). rewrite Ho3 in *.
      split; [exact Hs|]. split; lia.
  - (* the cluster of short options under way *)
    destruct Hnc as (Hlt & _ & _); [congruence|].
    destruct Hor as [Hor|Hor]; [congruence|].
    apply short_option_step in H; auto; try lia.
    destruct H as (Hs & Hm' & Ho). rewrite Hor in *.
    split; [exact Hs|]. split; lia.
Qed.

(** ** What the switch can and cannot do *)

Ltac switch_cases H :=
  unfold dispatch in H;
  repeat match type of H with
         | context [is_case ?c ?x] => destruct (is_case c x) eqn:?
         end;
  unfold bind, read_optarg, read_clo, check_optarg, update, emit, exit, ret,
    assign_Out_lf_fmt in H;
  repeat match type of H with
         | context [optarg ?d] => destruct (optarg d) eqn:?
         | context [if ?b then _ else _] => destruct b eqn:?
         end;
  simpl in H.

Lemma dispatch_effect ext c st r st' :
  dispatch ext c st = (r, st') ->
  getopt st' = getopt st
  /\ command (clo st') = command (clo st)
  /\ exists new,
       output st' = (output st ++ new)%list
       /\ (In missing_argument_error new ->
           is_case c ":" = true
           \/ (optarg (getopt st) = None /\ needs_optarg c = true)).
Proof.
  intros H. switch_cases H;
    inversion H; subst r st'; clear H; simpl;
    (split; [reflexivity|]); (split; [reflexivity|]);
    eexists; (split; [first [symmetry; apply app_nil_r
                            | rewrite <- ?app_assoc; reflexivity]|]);
    unfold missing_argument_error; simpl;
    intuition (try discriminate);
    first [ left; reflexivity
          | right; split; [reflexivity|];
            match goal with
            | E : is_case c _ = true |- _ =>
                unfold is_case in E; apply Z.eqb_eq in E; rewrite E;
                reflexivity
            end ].
Qed.

Lemma turn_spec ext argv st r st' :
  cl_parser_turn ext argv st = (r, st') ->
  exists c d1 msgs,
    getopt_long argv optstring long_options (getopt st) = (c, d1, msgs)
    /\ getopt st' = d1
    /\ command (clo st') = command (clo st)
    /\ (r = Val true -> c <> -1)
    /\ (r = Val false -> c = -1)
    /\ exists new,
         output st' = (output st ++ map getopt_error msgs ++ new)%list
         /\ (In missing_argument_error new ->
             c = char_code ":"
             \/ (optarg d1 = None /\ needs_optarg c = true)).
Proof.
  unfold cl_parser_turn, bind, call_getopt_long, ret.
  destruct (getopt_long argv optstring long_options (getopt st))
    as [[c d1] msgs].
  intros H. exists c, d1, msgs. split; [reflexivity|].
  destruct (Z.eqb_spec c (-1)) as [Hc|Hc].
  - inversion H; subst r st'; clear H. simpl.
    repeat split; try congruence.
    exists []. rewrite app_nil_r. split; [reflexivity | intros []].
  - destruct (dispatch ext c _) as [[[]|s] st2] eqn:Hd;
      inversion H; subst r st'; clear H;
      apply dispatch_effect in Hd;
      destruct Hd as (Hg & Hcmd & new & Hout & Hmiss); simpl in *;
      (repeat split; try congruence);
      exists new; rewrite Hout, app_assoc; (split; [reflexivity|]);
      intros Hin; destruct (Hmiss Hin) as [E|E]; auto;
      left; unfold is_case in E; apply Z.eqb_eq in E; exact E.
Qed.

(** ** The loop: fuel *)

Lemma cl_parser_loop_mono ext argv n m st r :
  cl_parser_loop ext n argv st = Some r ->
  (n <= m)%nat ->
  cl_parser_loop ext m argv st = Some r.
Proof.
  revert m st. induction n as [|n IH]; intros m st H Hle; [discriminate|].
  destruct m as [|m]; [lia|]. simpl in *.
  destruct (cl_parser_turn ext argv st) as [[[|]|s] st1]; auto.
  apply IH; [exact H | lia].
Qed.

Lemma cl_parser_fuel_mono ext argv n m st r :
  cl_parser_fuel ext n argv st = Some r ->
  (n <= m)%nat ->
  cl_parser_fuel ext m argv st = Some r.
Proof.
  unfold cl_parser_fuel. intros H Hle.
  destruct (cl_parser_loop ext n argv st) as [r0|] eqn:E; [|discriminate].
  rewrite (cl_parser_loop_mono _ _ _ _ _ _ E Hle). exact H.
Qed.

(** The loop ends within as many turns as there is left to scan. *)
Lemma cl_parser_loop_total ext argv n st :
  scanning argv (getopt st) ->
  (scan_measure argv (getopt st) < n)%nat ->
  exists r, cl_parser_loop ext n argv st = Some r.
Proof.
  revert st. induction n as [|n IH]; intros st Hs Hm; [lia|]. simpl.
  destruct (cl_parser_turn ext argv st) as [[[|]|s] st1] eqn:Ht;
    try (eexists; reflexivity).
  apply turn_spec in Ht.
  destruct Ht as (c & d1 & msgs & Hg & Hd1 & _ & Hc & _).
  destruct (getopt_long_step _ _ _ _ _ _ _ Hg Hs (Hc eq_refl))
    as (Hs1 & Hm1 & _).
  apply IH; rewrite Hd1; [exact Hs1 | lia].
Qed.

Lemma cl_parser_total ext argv st :
  scanning argv (getopt st) ->
  nextchar (getopt st) = EmptyString ->
  exists r, cl_parser ext argv st = Some r.
Proof.
  intros Hs Hn. unfold cl_parser, cl_parser_fuel.
  destruct (cl_parser_loop_total ext argv (scan_budget argv) st Hs)
    as [[[[]|s] st1] ->]; [|eexists; reflexivity ..].
  unfold scan_measure, scan_budget. rewrite Hn.
  pose proof (rest_size_mono argv 0 (optind (getopt st))). lia.
Qed.

Lemma scanning_start argv :
  argv <> [] -> scanning argv getopt_start.
Proof.
  intros H. destruct argv as [|a argv]; [congruence|].
  unfold scanning; simpl. repeat split; try lia; congruence.
Qed.

(** From the state a process starts in, [cl_parser] comes to an end on
    every argument vector. *)
Lemma cl_parser_total_entry ext argv o fmt :
  exists r, cl_parser ext argv (entry_state o fmt) = Some r.
Proof.
  destruct argv as [|a argv].
  - eexists; reflexivity.
  - apply cl_parser_total; [apply scanning_start; discriminate | reflexivity].
Qed.

(** A result found with some fuel is the result of [cl_parser]. *)
Lemma cl_parser_of_fuel ext argv n st r :
  cl_parser_fuel ext n argv st = Some r ->
  (n <= scan_budget argv)%nat ->
  cl_parser ext argv st = Some r.
Proof.
  intros H Hle. exact (cl_parser_fuel_mono _ _ _ _ _ _ H Hle).
Qed.

Lemma report_of_fuel ext argv n st r :
  cl_parser_fuel ext n argv st = Some r ->
  (n <= scan_budget argv)%nat ->
  report (cl_parser ext argv st) = report (Some r).
Proof.
  intros H Hle. rewrite (cl_parser_of_fuel _ _ _ _ _ H Hle). reflexivity.
Qed.

(** What [report] shows of a run is read in the state the run ends in. *)
Lemma report_state x r o f out :
  report x = Some (r, o, f, out) ->
  exists st',
    x = Some (r, st')
    /\ clo st' = o /\ Out_lf_fmt st' = f /\ output st' = out.
Proof.
  destruct x as [[r0 st0]|]; simpl; [|discriminate].
  intros E. inversion E. subst. exists st0. repeat split.
Qed.

(** ** Running the loop turn by turn *)

Lemma turn_run ext argv st c d msgs r st2 :
  getopt_long argv optstring long_options (getopt st) = (c, d, msgs) ->
  c <> -1 ->
  dispatch ext c
    (set_output (output st ++ map getopt_error msgs) (set_getopt d st))
  = (r, st2) ->
  cl_parser_turn ext argv st
  = (match r with Val _ => Val true | Exit s => Exit s end, st2).
Proof.
  intros Hg Hc Hd. unfold cl_parser_turn, bind, call_getopt_long.
  rewrite Hg. apply Z.eqb_neq in Hc. rewrite Hc, Hd.
  destruct r; reflexivity.
Qed.

Lemma turn_end ext argv st d msgs :
  getopt_long argv optstring long_options (getopt st) = (-1, d, msgs) ->
  cl_parser_turn ext argv st
  = (Val false,
     set_output (output st ++ map getopt_error msgs) (set_getopt d st)).
Proof.
  intros Hg. unfold cl_parser_turn, bind, call_getopt_long.
  rewrite Hg. reflexivity.
Qed.

Lemma loop_continue ext n argv st st' :
  cl_parser_turn ext argv st = (Val true, st') ->
  cl_parser_loop ext (S n) argv st = cl_parser_loop ext n argv st'.
Proof. intros H. simpl. rewrite H. reflexivity. Qed.

Lemma loop_break ext n argv st st' :
  cl_parser_turn ext argv st = (Val false, st') ->
  cl_parser_loop ext (S n) argv st = Some (Val tt, st').
Proof. intros H. simpl. rewrite H. reflexivity. Qed.

Lemma loop_exit ext n argv st s st' :
  cl_parser_turn ext argv st = (Exit s, st') ->
  cl_parser_loop ext (S n) argv st = Some (Exit s, st').
Proof. intros H. simpl. rewrite H. reflexivity. Qed.

(** ** The pid option *)



Ltac scan_now := lazy; reflexivity.

Ltac state_now :=
  lazy [set_output set_getopt set_clo entry_state clo Out_lf_fmt getopt
        output map app].

Ltac budget_now := unfold scan_budget, rest_size; simpl; lia.

(** One turn: the scan by evaluation, the switch by [tac]. *)
Ltac turn tac :=
  erewrite turn_run; cycle 1;
  [ scan_now | discriminate | state_now; tac | ].

Ltac continue_with tac :=
  erewrite loop_continue; cycle 1; [ turn tac; reflexivity | ].

Ltac exit_with tac :=
  erewrite loop_exit; cycle 1; [ turn tac; reflexivity | ].

Ltac break_now :=
  erewrite loop_break; [ | apply turn_end; scan_now ].

(** With [c] known, the switch takes its one case. *)
Ltac pick_case :=
  unfold dispatch;
  repeat match goal with
         | |- context [is_case ?c ?x] =>
             let b := eval vm_compute in (is_case c x) in
             change (is_case c x) with b
         end;
  cbv iota;
  unfold bind, read_optarg, check_optarg, update, read_clo, ret, emit, exit,
    assign_Out_lf_fmt.

(** [case 'p'] of the switch, on the argument [v]. *)
Lemma dispatch_pid ext o f d out v :
  optarg d = Some v ->
  dispatch ext (char_code "p")
    {| clo := o; Out_lf_fmt := f; getopt := d; output := out |}
  = if atoi v <? 1
    then (Exit EXIT_FAILURE,
          {| clo := set_pid (atoi v) o; Out_lf_fmt := f; getopt := d;
             output := out ++ [wrong_pid_error v] |})
    else (Val tt,
          {| clo := set_pid (atoi v) o; Out_lf_fmt := f; getopt := d;
             output := out |}).
Proof.
  intros H. pick_case. cbn [getopt]. rewrite H. cbn -[atoi Z.ltb].
  destruct (atoi v <? 1); reflexivity.
Qed.

Lemma pid_run ext prog opt v o fmt :
  opt = "--pid" \/ opt = "-p" ->
  report (cl_parser ext [prog; opt; v] (entry_state o fmt))
  = Some (if atoi v <? 1
          then (Exit EXIT_FAILURE, set_pid (atoi v) o, fmt,
                [wrong_pid_error v])
          else (Val 3%nat, set_pid (atoi v) o, fmt, [])).
Proof.
  intros Hopt.
  destruct (atoi v <? 1) eqn:E.
  - erewrite report_of_fuel with (n := 1%nat); cycle 1.
    + unfold cl_parser_fuel.
      destruct Hopt; subst opt;
        (exit_with ltac:(erewrite dispatch_pid by reflexivity;
                         rewrite E; reflexivity));
        reflexivity.
    + budget_now.
    + reflexivity.
  - erewrite report_of_fuel with (n := 2%nat); cycle 1.
    + unfold cl_parser_fuel.
      destruct Hopt; subst opt;
        (continue_with ltac:(erewrite dispatch_pid by reflexivity;
                             rewrite E; reflexivity));
        break_now; reflexivity.
    + budget_now.
    + reflexivity.
Qed.


(** ** Comparing without case *)

Lemma char_code_inj c1 c2 : char_code c1 = char_code c2 -> c1 = c2.
Proof.
  unfold char_code. intros H. apply N2Z.inj in H.
  rewrite <- (ascii_N_embedding c1), <- (ascii_N_embedding c2), H.
  reflexivity.
Qed.

Lemma tolower_code_nonzero c :
  Ascii.eqb c zero = false -> char_code (tolower c) <> 0.
Proof.
  destruct c as [[] [] [] [] [] [] [] []]; vm_compute; congruence.
Qed.

(** On C strings [strcasecmp] is 0 exactly when the two strings are equal
    once lowered. *)
Lemma strcasecmp_eq_nocase a b :
  is_c_string a = true -> is_c_string b = true ->
  (strcasecmp a b =? 0) = eq_nocase a b.
Proof.
  unfold is_c_string, eq_nocase. revert b.
  induction a as [|c1 r1 IH]; intros [|c2 r2] Ha Hb; simpl in *.
  - reflexivity.
  - apply andb_true_iff in Hb. destruct Hb as [Hb _].
    apply negb_true_iff, tolower_code_nonzero in Hb.
    apply Z.eqb_neq. lia.
  - apply andb_true_iff in Ha. destruct Ha as [Ha _].
    apply negb_true_iff, tolower_code_nonzero in Ha.
    apply Z.eqb_neq. lia.
  - apply andb_true_iff in Ha. destruct Ha as [_ Ha].
    apply andb_true_iff in Hb. destruct Hb as [_ Hb].
    destruct (Z.eqb_spec (char_code (tolower c1) - char_code (tolower c2)) 0)
      as [E|E].
    + assert (Et : tolower c1 = tolower c2) by (apply char_code_inj; lia).
      rewrite Et, Ascii.eqb_refl. apply IH; assumption.
    + destruct (Ascii.eqb_spec (tolower c1) (tolower c2)) as [Et|Et].
      * rewrite Et in E. lia.
      * apply Z.eqb_neq. exact E.
Qed.

(** ** The expr and format options *)

(** [case 'e'] of the switch, on the argument [v]. *)
Lemma dispatch_expr ext o f d out v :
  optarg d = Some v ->
  dispatch ext (char_code "e")
    {| clo := o; Out_lf_fmt := f; getopt := d; output := out |}
  = if (strcasecmp v "list" =? 0) || (strcasecmp v "help" =? 0)
    then (Exit EXIT_SUCCESS,
          {| clo := o; Out_lf_fmt := f; getopt := d;
             output := out ++ expr_help |})
    else if (strcasecmp v "trace=help" =? 0)
            || (strcasecmp v "trace=list" =? 0)
    then (Exit EXIT_SUCCESS,
          {| clo := o; Out_lf_fmt := f; getopt := d;
             output := out ++ trace_sets_listing |})
    else (Val tt,
          {| clo := set_expr (Some v) o; Out_lf_fmt := f; getopt := d;
             output := out |}).
Proof.
  intros H. pick_case. cbn [getopt]. rewrite H. cbn -[strcasecmp Z.eqb].
  destruct ((strcasecmp v "list" =? 0) || (strcasecmp v "help" =? 0)).
  - cbn. rewrite <- app_assoc. reflexivity.
  - destruct ((strcasecmp v "trace=help" =? 0)
              || (strcasecmp v "trace=list" =? 0)).
    + cbn. rewrite <- app_assoc. reflexivity.
    + reflexivity.
Qed.

(** [case 'l'] of the switch, on the argument [v]. *)
Lemma dispatch_format ext o f d out v :
  optarg d = Some v ->
  dispatch ext (char_code "l")
    {| clo := o; Out_lf_fmt := f; getopt := d; output := out |}
  = if (strcasecmp v "list" =? 0) || (strcasecmp v "help" =? 0)
    then (Exit EXIT_SUCCESS,
          {| clo := o; Out_lf_fmt := f; getopt := d;
             output := out ++ format_listing |})
    else (Val tt,
          {| clo := set_out_fmt_str (Some v) o;
             Out_lf_fmt := out_fmt_str2enum ext v; getopt := d;
             output := out |}).
Proof.
  intros H. pick_case. cbn [getopt]. rewrite H. cbn -[strcasecmp Z.eqb].
  destruct ((strcasecmp v "list" =? 0) || (strcasecmp v "help" =? 0));
    reflexivity.
Qed.

(** [case 'B'] of the switch. *)
Lemma dispatch_builtin_list ext st :
  dispatch ext (char_code "B") st
  = (Exit (builtin_list_status (print_syscalls_table ext)),
     set_output (output st ++ [print_syscalls_table_to stdout]) st).
Proof.
  pick_case. unfold builtin_list_status. cbn -[Z.eqb].
  destruct (print_syscalls_table ext =? 1); [reflexivity|].
  destruct (print_syscalls_table ext =? 0); reflexivity.
Qed.

Lemma expr_run ext prog opt v o fmt :
  opt = "--expr" \/ opt = "-e" ->
  report (cl_parser ext [prog; opt; v] (entry_state o fmt))
  = Some (if (strcasecmp v "list" =? 0) || (strcasecmp v "help" =? 0)
          then (Exit EXIT_SUCCESS, o, fmt, expr_help)
          else if (strcasecmp v "trace=help" =? 0)
                  || (strcasecmp v "trace=list" =? 0)
          then (Exit EXIT_SUCCESS, o, fmt, trace_sets_listing)
          else (Val 3%nat, set_expr (Some v) o, fmt, [])).
Proof.
  intros Hopt.
  destruct ((strcasecmp v "list" =? 0) || (strcasecmp v "help" =? 0)) eqn:E1;
    [|destruct ((strcasecmp v "trace=help" =? 0)
                || (strcasecmp v "trace=list" =? 0)) eqn:E2].
  - erewrite report_of_fuel with (n := 1%nat); cycle 1.
    + unfold cl_parser_fuel.
      destruct Hopt; subst opt;
        (exit_with ltac:(erewrite dispatch_expr by reflexivity;
                         rewrite E1; reflexivity));
        reflexivity.
    + budget_now.
    + reflexivity.
  - erewrite report_of_fuel with (n := 1%nat); cycle 1.
    + unfold cl_parser_fuel.
      destruct Hopt; subst opt;
        (exit_with ltac:(erewrite dispatch_expr by reflexivity;
                         rewrite E1, E2; reflexivity));
        reflexivity.
    + budget_now.
    + reflexivity.
  - erewrite report_of_fuel with (n := 2%nat); cycle 1.
    + unfold cl_parser_fuel.
      destruct Hopt; subst opt;
        (continue_with ltac:(erewrite dispatch_expr by reflexivity;
                             rewrite E1, E2; reflexivity));
        break_now; reflexivity.
    + budget_now.
    + reflexivity.
Qed.

Lemma format_run ext prog opt v o fmt :
  opt = "--format" \/ opt = "-l" ->
  report (cl_parser ext [prog; opt; v] (entry_state o fmt))
  = Some (if (strcasecmp v "list" =? 0) || (strcasecmp v "help" =? 0)
          then (Exit EXIT_SUCCESS, o, fmt, format_listing)
          else (Val 3%nat, set_out_fmt_str (Some v) o,
                out_fmt_str2enum ext v, [])).
Proof.
  intros Hopt.
  destruct ((strcasecmp v "list" =? 0) || (strcasecmp v "help" =? 0)) eqn:E1.
  - erewrite report_of_fuel with (n := 1%nat); cycle 1.
    + unfold cl_parser_fuel.
      destruct Hopt; subst opt;
        (exit_with ltac:(erewrite dispatch_format by reflexivity;
                         rewrite E1; reflexivity));
        reflexivity.
    + budget_now.
    + reflexivity.
  - erewrite report_of_fuel with (n := 2%nat); cycle 1.
    + unfold cl_parser_fuel.
      destruct Hopt; subst opt;
        (continue_with ltac:(erewrite dispatch_format by reflexivity;
                             rewrite E1; reflexivity));
        break_now; reflexivity.
    + budget_now.
    + reflexivity.
Qed.

Lemma builtin_list_run ext prog opt o fmt :
  opt = "--builtin-list" \/ opt = "-B" ->
  report (cl_parser ext [prog; opt] (entry_state o fmt))
  = Some (Exit (builtin_list_status (print_syscalls_table ext)), o, fmt,
          [print_syscalls_table_to stdout]).
Proof.
  intros Hopt.
  erewrite report_of_fuel with (n := 1%nat); cycle 1.
  - unfold cl_parser_fuel.
    destruct Hopt; subst opt;
      (exit_with ltac:(rewrite dispatch_builtin_list; reflexivity));
      reflexivity.
  - budget_now.
  - reflexivity.
Qed.

(** C3. The expr option, on a value [v]: when [v] is "help" or "list" up to
    case, the help on expressions is written and the process ends with
    EXIT_SUCCESS; when it is "trace=help" or "trace=list" up to case, the
    listing of the sets is written and the process ends with EXIT_SUCCESS;
    in both cases [clo->expr] is left alone. Any other value is stored in
    [clo->expr] as it is. This holds of [case 'e'] and of a whole run on
    "--expr v" and "-e v"; after such a run on a value that is none of the
    four words, [clo->expr] reads [v] and nothing has been written. *)
Theorem expr_option_reserved_values ext (v : string) :
  is_c_string v = true ->
  (forall o f d out,
     optarg d = Some v ->
     dispatch ext (char_code "e")
       {| clo := o; Out_lf_fmt := f; getopt := d; output := out |}
     = if eq_nocase v "help" || eq_nocase v "list"
       then (Exit EXIT_SUCCESS,
             {| clo := o; Out_lf_fmt := f; getopt := d;
                output := out ++ expr_help |})
       else if eq_nocase v "trace=help" || eq_nocase v "trace=list"
       then (Exit EXIT_SUCCESS,
             {| clo := o; Out_lf_fmt := f; getopt := d;
                output := out ++ trace_sets_listing |})
       else (Val tt,
             {| clo := set_expr (Some v) o; Out_lf_fmt := f; getopt := d;
                output := out |}))
  /\ (forall prog opt o fmt,
        opt = "--expr" \/ opt = "-e" ->
        report (cl_parser ext [prog; opt; v] (entry_state o fmt))
        = Some (if eq_nocase v "help" || eq_nocase v "list"
                then (Exit EXIT_SUCCESS, o, fmt, expr_help)
                else if eq_nocase v "trace=help" || eq_nocase v "trace=list"
                then (Exit EXIT_SUCCESS, o, fmt, trace_sets_listing)
                else (Val 3%nat, set_expr (Some v) o, fmt, [])))
  /\ (eq_nocase v "help" || eq_nocase v "list" = false ->
      eq_nocase v "trace=help" || eq_nocase v "trace=list" = false ->
      (forall st,
         optarg (getopt st) = Some v ->
         exists st',
           dispatch ext (char_code "e") st = (Val tt, st')
           /\ expr (clo st') = Some v
           /\ output st' = output st)
      /\ (forall prog opt o fmt,
            opt = "--expr" \/ opt = "-e" ->
            exists st',
              cl_parser ext [prog; opt; v] (entry_state o fmt)
              = Some (Val 3%nat, st')
              /\ expr (clo st') = Some v
              /\ output st' = [])).
Proof.
  intros Hv.
  assert (E : forall w, is_c_string w = true ->
                        (strcasecmp v w =? 0) = eq_nocase v w)
    by (intros; apply strcasecmp_eq_nocase; assumption).
  rewrite <- !E by reflexivity.
  rewrite (orb_comm (strcasecmp v "help" =? 0)).
  split; [|split].
  - intros. apply dispatch_expr; assumption.
  - intros. apply expr_run; assumption.
  - intros H1 H2. split.
    + intros [o f d out] Ha. simpl in Ha.
      rewrite (dispatch_expr ext o f d out v Ha), H1, H2.
      eexists. split; [reflexivity|]. split; reflexivity.
    + intros prog opt o fmt Hopt.
      pose proof (expr_run ext prog opt v o fmt Hopt) as Hrun.
      rewrite H1, H2 in Hrun.
      destruct (report_state _ _ _ _ _ Hrun) as (st' & Hst & Hclo & _ & Hout).
      exists st'. split; [exact Hst|]. rewrite Hclo.
      split; [reflexivity | exact Hout].
Qed.

(** C4. The format option, on a value [v]: when [v] is "help" or "list" up
    to case, the listing of the formats is written and the process ends
    with EXIT_SUCCESS, and neither [clo->out_fmt_str] nor [Out_lf_fmt] has
    changed; any other value is stored in [clo->out_fmt_str] and
    [Out_lf_fmt] becomes what [out_fmt_str2enum] makes of it. This holds of
    [case 'l'] and of a whole run on "--format v" and "-l v"; after such a
    run on a value that is neither word, [clo->out_fmt_str] reads [v],
    [Out_lf_fmt] is [out_fmt_str2enum v] and nothing has been written. *)
Theorem format_option_reserved_values ext (v : string) :
  is_c_string v = true ->
  (forall o f d out,
     optarg d = Some v ->
     dispatch ext (char_code "l")
       {| clo := o; Out_lf_fmt := f; getopt := d; output := out |}
     = if eq_nocase v "help" || eq_nocase v "list"
       then (Exit EXIT_SUCCESS,
             {| clo := o; Out_lf_fmt := f; getopt := d;
                output := out ++ format_listing |})
       else (Val tt,
             {| clo := set_out_fmt_str (Some v) o;
                Out_lf_fmt := out_fmt_str2enum ext v; getopt := d;
                output := out |}))
  /\ (forall prog opt o fmt,
        opt = "--format" \/ opt = "-l" ->
        report (cl_parser ext [prog; opt; v] (entry_state o fmt))
        = Some (if eq_nocase v "help" || eq_nocase v "list"
                then (Exit EXIT_SUCCESS, o, fmt, format_listing)
                else (Val 3%nat, set_out_fmt_str (Some v) o,
                      out_fmt_str2enum ext v, [])))
  /\ (eq_nocase v "help" || eq_nocase v "list" = false ->
      (forall st,
         optarg (getopt st) = Some v ->
         exists st',
           dispatch ext (char_code "l") st = (Val tt, st')
           /\ out_fmt_str (clo st') = Some v
           /\ Out_lf_fmt st' = out_fmt_str2enum ext v
           /\ output st' = output st)
      /\ (forall prog opt o fmt,
            opt = "--format" \/ opt = "-l" ->
            exists st',
              cl_parser ext [prog; opt; v] (entry_state o fmt)
              = Some (Val 3%nat, st')
              /\ out_fmt_str (clo st') = Some v
              /\ Out_lf_fmt st' = out_fmt_str2enum ext v
              /\ output st' = [])).
Proof.
  intros Hv.
  assert (E : forall w, is_c_string w = true ->
                        (strcasecmp v w =? 0) = eq_nocase v w)
    by (intros; apply strcasecmp_eq_nocase; assumption).
  rewrite <- !E by reflexivity.
  rewrite (orb_comm (strcasecmp v "help" =? 0)).
  split; [|split].
  - intros. apply dispatch_format; assumption.
  - intros. apply format_run; assumption.
  - intros H1. split.
    + intros [o f d out] Ha. simpl in Ha.
      rewrite (dispatch_format ext o f d out v Ha), H1.
      eexists. split; [reflexivity|]. repeat split.
    + intros prog opt o fmt Hopt.
      pose proof (format_run ext prog opt v o fmt Hopt) as Hrun.
      rewrite H1 in Hrun.
      destruct (report_state _ _ _ _ _ Hrun)
        as (st' & Hst & Hclo & Hfmt & Hout).
      exists st'. split; [exact Hst|]. rewrite Hclo.
      split; [reflexivity|]. split; [exact Hfmt | exact Hout].
Qed.

(** C8. The listing of the builtin table: [print_syscalls_table(stdout)] is
    called and the process ends with a status made from what it returned:
    EXIT_SUCCESS for 1, EXIT_FAILURE for 0, and the value itself for
    anything else. This holds of [case 'B'] and of a whole run on
    "--builtin-list" and "-B". *)
Theorem builtin_list_exit_status ext :
  (forall st,
     dispatch ext (char_code "B") st
     = (Exit (builtin_list_status (print_syscalls_table ext)),
        set_output (output st ++ [print_syscalls_table_to stdout]) st))
  /\ (forall prog opt o fmt,
        opt = "--builtin-list" \/ opt = "-B" ->
        report (cl_parser ext [prog; opt] (entry_state o fmt))
        = Some (Exit (builtin_list_status (print_syscalls_table ext)),
                o, fmt, [print_syscalls_table_to stdout]))
  /\ builtin_list_status 1 = EXIT_SUCCESS
  /\ builtin_list_status 0 = EXIT_FAILURE
  /\ (forall r, r <> 1 -> r <> 0 -> builtin_list_status r = r).
Proof.
  split; [apply dispatch_builtin_list|].
  split; [intros; apply builtin_list_run; assumption|].
  repeat split.
  intros r H1 H0. unfold builtin_list_status.
  apply Z.eqb_neq in H1, H0. rewrite H1, H0. reflexivity.
Qed.

(** ** Where the scan stops *)

Lemma nonoption_not_double_dash a :
  NONOPTION_P a = true -> streq a "--" = false.
Proof.
  destruct a as [|c0 [|c1 r]]; unfold NONOPTION_P, streq; simpl.
  - reflexivity.
  - intros _. destruct (Ascii.eqb c0 "-"); reflexivity.
  - destruct (Ascii.eqb_spec c0 "-") as [->|]; [|reflexivity].
    unfold char_at. simpl.
    destruct (Ascii.eqb_spec c1 zero) as [->|]; [reflexivity|discriminate].
Qed.

(** At an argument that is not an option, with no cluster under way,
    [getopt_long] ends the scan and leaves [optind] on that argument. *)
Lemma getopt_long_nonoption argv os lo d :
  nextchar d = EmptyString ->
  optind d <> 0%nat ->
  (optind d < List.length argv)%nat ->
  NONOPTION_P (arg argv (optind d)) = true ->
  exists d', getopt_long argv os lo d = (-1, d', [])
             /\ optind d' = optind d.
Proof.
  destruct d as [oi oe oo oa ini nc fn ln]. simpl.
  intros -> Hnz Hlt Hnon.
  pose proof (nonoption_not_double_dash _ Hnon) as Hdd.
  assert (E1 : (List.length argv <? 1)%nat = false)
    by (apply Nat.ltb_ge; lia).
  assert (E2 : (oi =? 0)%nat = false) by (apply Nat.eqb_neq; lia).
  assert (E3 : (oi =? List.length argv)%nat = false)
    by (apply Nat.eqb_neq; lia).
  unfold getopt_long, _getopt_initialize, skip_double_dash. simpl.
  rewrite E1, E2. simpl.
  destruct ini; simpl;
    repeat match goal with
           | |- context [(oi <? ?x)%nat] => destruct (oi <? x)%nat; simpl
           end;
    rewrite ?E3, ?Hdd; simpl; rewrite ?E3, ?Hnon;
    eexists; split; reflexivity.
Qed.

Ltac switch_now := lazy; reflexivity.

Lemma stop_at_nonoption ext argv st :
  nextchar (getopt st) = EmptyString ->
  optind (getopt st) <> 0%nat ->
  (optind (getopt st) < List.length argv)%nat ->
  NONOPTION_P (arg argv (optind (getopt st))) = true ->
  report (cl_parser ext argv st)
  = Some (Val (optind (getopt st)), set_command true (clo st),
          Out_lf_fmt st, output st).
Proof.
  intros Hn Hnz Hlt Hnon.
  destruct (getopt_long_nonoption argv optstring long_options _
              Hn Hnz Hlt Hnon) as (d' & Hg & Ho).
  unfold cl_parser, cl_parser_fuel, scan_budget.
  erewrite loop_break by (apply turn_end; exact Hg).
  unfold cl_parser_end. simpl. rewrite Ho.
  apply Nat.ltb_lt in Hlt. rewrite Hlt. simpl.
  rewrite app_nil_r. reflexivity.
Qed.

(** C6. On "-t -p 100 -- ls -l" the parser sets [timestamp], sets [pid] to
    100, sets [command], and returns 5, the index of "ls". In general, when
    [getopt_long] comes to an argument that is not an option (with no
    cluster of short options under way), the loop ends there: [cl_parser]
    returns the index of that argument with [command] set, whatever comes
    after it; so in "-t ls -p 0 -Z" neither "-p 0" nor "-Z" is looked at.
    In the state each of these runs ends in, [timestamp] and [command] read
    true and [pid] reads 100, or what it was where "-p" is not looked at. *)
Theorem scan_stops_at_command ext :
  (forall prog o fmt,
     report (cl_parser ext [prog; "-t"; "-p"; "100"; "--"; "ls"; "-l"]
               (entry_state o fmt))
     = Some (Val 5%nat, set_command true (set_pid 100 (set_timestamp true o)),
             fmt, [])
     /\ arg [prog; "-t"; "-p"; "100"; "--"; "ls"; "-l"] 5 = "ls")
  /\ (forall argv st,
        nextchar (getopt st) = EmptyString ->
        optind (getopt st) <> 0%nat ->
        (optind (getopt st) < List.length argv)%nat ->
        NONOPTION_P (arg argv (optind (getopt st))) = true ->
        report (cl_parser ext argv st)
        = Some (Val (optind (getopt st)), set_command true (clo st),
                Out_lf_fmt st, output st))
  /\ (forall prog o fmt,
        report (cl_parser ext [prog; "-t"; "ls"; "-p"; "0"; "-Z"]
                  (entry_state o fmt))
        = Some (Val 2%nat, set_command true (set_timestamp true o), fmt, []))
  /\ (forall prog o fmt,
        exists st',
          cl_parser ext [prog; "-t"; "-p"; "100"; "--"; "ls"; "-l"]
            (entry_state o fmt)
          = Some (Val 5%nat, st')
          /\ timestamp (clo st') = true
          /\ pid (clo st') = 100
          /\ command (clo st') = true
          /\ output st' = [])
  /\ (forall argv st,
        nextchar (getopt st) = EmptyString ->
        optind (getopt st) <> 0%nat ->
        (optind (getopt st) < List.length argv)%nat ->
        NONOPTION_P (arg argv (optind (getopt st))) = true ->
        exists st',
          cl_parser ext argv st = Some (Val (optind (getopt st)), st')
          /\ command (clo st') = true
          /\ timestamp (clo st') = timestamp (clo st)
          /\ pid (clo st') = pid (clo st)
          /\ output st' = output st)
  /\ (forall prog o fmt,
        exists st',
          cl_parser ext [prog; "-t"; "ls"; "-p"; "0"; "-Z"]
            (entry_state o fmt)
          = Some (Val 2%nat, st')
          /\ timestamp (clo st') = true
          /\ pid (clo st') = pid o
          /\ command (clo st') = true
          /\ output st' = []).
Proof.
  assert (H1 : forall prog o fmt,
             report (cl_parser ext [prog; "-t"; "-p"; "100"; "--"; "ls"; "-l"]
                       (entry_state o fmt))
             = Some (Val 5%nat,
                     set_command true (set_pid 100 (set_timestamp true o)),
                     fmt, [])).
  { intros prog o fmt.
    erewrite report_of_fuel with (n := 3%nat); cycle 1.
    + unfold cl_parser_fuel.
      continue_with switch_now. continue_with switch_now. break_now.
      reflexivity.
    + budget_now.
    + reflexivity. }
  assert (H3 : forall prog o fmt,
             report (cl_parser ext [prog; "-t"; "ls"; "-p"; "0"; "-Z"]
                       (entry_state o fmt))
             = Some (Val 2%nat, set_command true (set_timestamp true o),
                     fmt, [])).
  { intros prog o fmt.
    erewrite report_of_fuel with (n := 2%nat); cycle 1.
    + unfold cl_parser_fuel.
      continue_with switch_now. break_now. reflexivity.
    + budget_now.
    + reflexivity. }
  split; [|split; [|split; [|split; [|split]]]].
  - intros prog o fmt. split; [apply H1 | reflexivity].
  - apply stop_at_nonoption.
  - exact H3.
  - intros prog o fmt.
    destruct (report_state _ _ _ _ _ (H1 prog o fmt))
      as (st' & Hst & Hclo & _ & Hout).
    exists st'. split; [exact Hst|]. rewrite Hclo, Hout. repeat split.
  - intros argv st Hn Hnz Hlt Hnon.
    destruct (report_state _ _ _ _ _ (stop_at_nonoption ext argv st
                                        Hn Hnz Hlt Hnon))
      as (st' & Hst & Hclo & _ & Hout).
    exists st'. split; [exact Hst|]. rewrite Hclo, Hout. repeat split.
  - intros prog o fmt.
    destruct (report_state _ _ _ _ _ (H3 prog o fmt))
      as (st' & Hst & Hclo & _ & Hout).
    exists st'. split; [exact Hst|]. rewrite Hclo, Hout. repeat split.
Qed.

(** ** The follow-fork option *)

Lemma follow_fork_then_command ext prog v o fmt :
  NONOPTION_P v = true ->
  report (cl_parser ext [prog; "-f"; v] (entry_state o fmt))
  = Some (Val 2%nat, set_command true (set_ff_mode E_FF_FULL o), fmt, []).
Proof.
  intros Hnon.
  destruct (getopt_long_nonoption [prog; "-f"; v] optstring long_options
              {| optind := 2; opterr := true; optopt := 0;
                 optarg := None; initialized := true;
                 nextchar := EmptyString;
                 first_nonopt := 1; last_nonopt := 1 |})
    as (d' & Hg & Ho); simpl; try lia; try reflexivity; try exact Hnon.
  erewrite report_of_fuel with (n := 2%nat); cycle 1.
  - unfold cl_parser_fuel.
    continue_with switch_now.
    erewrite loop_break; [ | apply turn_end; exact Hg ].
    reflexivity.
  - budget_now.
  - unfold cl_parser_end. simpl. rewrite Ho. reflexivity.
Qed.

(** C2, as the code has it. "-f" alone sets [ff_mode] to E_FF_FULL and
    leaves [ff_separate_logs] as it was. The option takes a value only when
    the value is attached, "-fVALUE" or "--full-follow-fork=VALUE", and then
    [ff_separate_logs] is set as well. In "-f anything" the second argument
    is not the value of the option: it is where the scan stops, so
    [ff_separate_logs] is left as it was and [command] is set. In the state
    each of these runs ends in, [ff_mode] reads E_FF_FULL, and
    [ff_separate_logs] reads true after an attached value and what it was
    otherwise. *)
Theorem follow_fork_value_attached ext prog o fmt :
  report (cl_parser ext [prog; "-f"] (entry_state o fmt))
  = Some (Val 2%nat, set_ff_mode E_FF_FULL o, fmt, [])
  /\ (forall c r,
        report (cl_parser ext [prog; "-f" ++ String c r] (entry_state o fmt))
        = Some (Val 2%nat,
                set_ff_separate_logs true (set_ff_mode E_FF_FULL o),
                fmt, []))
  /\ (forall v,
        report (cl_parser ext [prog; "--full-follow-fork=" ++ v]
                  (entry_state o fmt))
        = Some (Val 2%nat,
                set_ff_separate_logs true (set_ff_mode E_FF_FULL o),
                fmt, []))
  /\ (forall v,
        NONOPTION_P v = true ->
        report (cl_parser ext [prog; "-f"; v] (entry_state o fmt))
        = Some (Val 2%nat, set_command true (set_ff_mode E_FF_FULL o),
                fmt, []))
  /\ (exists st',
        cl_parser ext [prog; "-f"] (entry_state o fmt) = Some (Val 2%nat, st')
        /\ ff_mode (clo st') = E_FF_FULL
        /\ ff_separate_logs (clo st') = ff_separate_logs o
        /\ command (clo st') = command o)
  /\ (forall c r,
        exists st',
          cl_parser ext [prog; "-f" ++ String c r] (entry_state o fmt)
          = Some (Val 2%nat, st')
          /\ ff_mode (clo st') = E_FF_FULL
          /\ ff_separate_logs (clo st') = true
          /\ command (clo st') = command o)
  /\ (forall v,
        exists st',
          cl_parser ext [prog; "--full-follow-fork=" ++ v] (entry_state o fmt)
          = Some (Val 2%nat, st')
          /\ ff_mode (clo st') = E_FF_FULL
          /\ ff_separate_logs (clo st') = true
          /\ command (clo st') = command o)
  /\ (forall v,
        NONOPTION_P v = true ->
        exists st',
          cl_parser ext [prog; "-f"; v] (entry_state o fmt)
          = Some (Val 2%nat, st')
          /\ ff_mode (clo st') = E_FF_FULL
          /\ ff_separate_logs (clo st') = ff_separate_logs o
          /\ command (clo st') = true).
Proof.
  assert (H1 : report (cl_parser ext [prog; "-f"] (entry_state o fmt))
               = Some (Val 2%nat, set_ff_mode E_FF_FULL o, fmt, [])).
  { erewrite report_of_fuel with (n := 2%nat); cycle 1.
    + unfold cl_parser_fuel. continue_with switch_now. break_now.
      reflexivity.
    + budget_now.
    + reflexivity. }
  assert (H2 : forall c r,
             report (cl_parser ext [prog; "-f" ++ String c r]
                       (entry_state o fmt))
             = Some (Val 2%nat,
                     set_ff_separate_logs true (set_ff_mode E_FF_FULL o),
                     fmt, [])).
  { intros c r.
    erewrite report_of_fuel with (n := 2%nat); cycle 1.
    + unfold cl_parser_fuel. continue_with switch_now. break_now.
      reflexivity.
    + budget_now.
    + reflexivity. }
  assert (H3 : forall v,
             report (cl_parser ext [prog; "--full-follow-fork=" ++ v]
                       (entry_state o fmt))
             = Some (Val 2%nat,
                     set_ff_separate_logs true (set_ff_mode E_FF_FULL o),
                     fmt, [])).
  { intros v.
    erewrite report_of_fuel with (n := 2%nat); cycle 1.
    + unfold cl_parser_fuel. continue_with switch_now. break_now.
      reflexivity.
    + budget_now.
    + reflexivity. }
  split; [exact H1|]. split; [exact H2|]. split; [exact H3|].
  split; [intros v; apply follow_fork_then_command|].
  split; [|split; [|split]].
  - destruct (report_state _ _ _ _ _ H1) as (st' & Hst & Hclo & _).
    exists st'. split; [exact Hst|]. rewrite Hclo. repeat split.
  - intros c r.
    destruct (report_state _ _ _ _ _ (H2 c r)) as (st' & Hst & Hclo & _).
    exists st'. split; [exact Hst|]. rewrite Hclo. repeat split.
  - intros v.
    destruct (report_state _ _ _ _ _ (H3 v)) as (st' & Hst & Hclo & _).
    exists st'. split; [exact Hst|]. rewrite Hclo. repeat split.
  - intros v Hnon.
    destruct (report_state _ _ _ _ _
                (follow_fork_then_command ext prog v o fmt Hnon))
      as (st' & Hst & Hclo & _).
    exists st'. split; [exact Hst|]. rewrite Hclo. repeat split.
Qed.

(** ** A required argument that is not there *)

(** [case '?'] of the switch. *)
Lemma dispatch_question ext st :
  dispatch ext (char_code "?") st
  = (Exit EXIT_FAILURE, set_output (output st ++ [fprint_help stderr]) st).
Proof. pick_case. reflexivity. Qed.

Ltac last_element_scan E1 E2 E3 E4 Ha :=
  unfold getopt_long, _getopt_initialize, skip_double_dash; simpl;
  rewrite E1, E2; simpl;
  match goal with
  | |- context [negb ?ini] => destruct ini; simpl
  end;
  repeat match goal with
         | |- context [(?oi <? ?x)%nat] => destruct (oi <? x)%nat; simpl
         end;
  rewrite ?E3, ?Ha; simpl; rewrite ?E3, ?Ha;
  unfold short_option, process_long_option; cbn;
  rewrite ?E4; cbn;
  eexists; reflexivity.

(** On a last argument that is an option with a required argument,
    [getopt_long] complains and returns '?'. *)
Lemma getopt_long_missing argv d p :
  In p long_options ->
  has_arg p = required_argument ->
  nextchar d = EmptyString ->
  optind d <> 0%nat ->
  S (optind d) = List.length argv ->
  opterr d = true ->
  (arg argv (optind d) = short_form p ->
   exists d',
     getopt_long argv optstring long_options d
     = (char_code "?", d', [option_requires_an_argument (val p)]))
  /\ (arg argv (optind d) = long_form p ->
      exists d',
        getopt_long argv optstring long_options d
        = (char_code "?", d',
           [long_option_requires_an_argument "--" (name p)])).
Proof.
  destruct d as [oi oe oo oa ini nc fn ln]. simpl.
  intros Hin Hreq -> Hnz Hlen ->.
  assert (E1 : (List.length argv <? 1)%nat = false)
    by (apply Nat.ltb_ge; lia).
  assert (E2 : (oi =? 0)%nat = false) by (apply Nat.eqb_neq; lia).
  assert (E3 : (oi =? List.length argv)%nat = false)
    by (apply Nat.eqb_neq; lia).
  assert (E4 : (S oi =? List.length argv)%nat = true)
    by (apply Nat.eqb_eq; lia).
  assert (E5 : (S oi <? List.length argv)%nat = false)
    by (apply Nat.ltb_ge; lia).
  simpl in Hin.
  repeat (destruct Hin as [<-|Hin]; [try discriminate Hreq|]);
    try contradiction;
    (split; intros Ha;
     [ last_element_scan E1 E2 E3 E4 Ha
     | last_element_scan E1 E2 E3 E5 Ha ]).
Qed.

(** The same at the end of a cluster of short options, as in "-tp". *)
Lemma getopt_long_missing_cluster argv d p :
  In p long_options ->
  has_arg p = required_argument ->
  nextchar d = String (val p) EmptyString ->
  initialized d = true ->
  optind d <> 0%nat ->
  S (optind d) = List.length argv ->
  opterr d = true ->
  exists d',
    getopt_long argv optstring long_options d
    = (char_code "?", d', [option_requires_an_argument (val p)]).
Proof.
  destruct d as [oi oe oo oa ini nc fn ln]. simpl.
  intros Hin Hreq -> -> Hnz Hlen ->.
  assert (E1 : (List.length argv <? 1)%nat = false)
    by (apply Nat.ltb_ge; lia).
  assert (E2 : (oi =? 0)%nat = false) by (apply Nat.eqb_neq; lia).
  assert (E4 : (S oi =? List.length argv)%nat = true)
    by (apply Nat.eqb_eq; lia).
  simpl in Hin.
  repeat (destruct Hin as [<-|Hin]; [try discriminate Hreq|]);
    try contradiction;
    unfold getopt_long; simpl; rewrite E1, E2; simpl;
    unfold short_option; cbn; rewrite E4; cbn;
    eexists; reflexivity.
Qed.

Lemma missing_argument_run ext argv st m :
  (exists d',
     getopt_long argv optstring long_options (getopt st)
     = (char_code "?", d', [m])) ->
  report (cl_parser ext argv st)
  = Some (Exit EXIT_FAILURE, clo st, Out_lf_fmt st,
          (output st ++ [getopt_error m; fprint_help stderr])%list).
Proof.
  intros (d' & Hg).
  unfold cl_parser, cl_parser_fuel, scan_budget.
  erewrite loop_exit; cycle 1.
  - erewrite turn_run;
      [ | exact Hg | discriminate | apply dispatch_question ].
    reflexivity.
  - simpl. rewrite <- app_assoc. reflexivity.
Qed.

(** C5. An argument vector that ends with an option whose argument is
    required and missing: [getopt_long] writes its complaint about the
    missing argument to stderr and returns '?', on which the parser writes
    the usage text to stderr and ends the process with EXIT_FAILURE;
    [*clo] and [Out_lf_fmt] are as they were before that option, so nothing
    stands in for the missing value. This holds on "-p" alone, and from
    every state of the scan for each of the seven options with a required
    argument, when it is the last argument, typed short or long, or the
    last character of a last cluster of short options. *)
Theorem missing_argument_is_fatal ext :
  (forall prog o fmt,
     report (cl_parser ext [prog; "-p"] (entry_state o fmt))
     = Some (Exit EXIT_FAILURE, o, fmt,
             [getopt_error (option_requires_an_argument "p");
              fprint_help stderr]))
  /\ (forall p argv st,
        In p long_options ->
        has_arg p = required_argument ->
        optind (getopt st) <> 0%nat ->
        S (optind (getopt st)) = List.length argv ->
        opterr (getopt st) = true ->
        (nextchar (getopt st) = EmptyString ->
         arg argv (optind (getopt st)) = short_form p ->
         report (cl_parser ext argv st)
         = Some (Exit EXIT_FAILURE, clo st, Out_lf_fmt st,
                 (output st
                  ++ [getopt_error (option_requires_an_argument (val p));
                      fprint_help stderr])%list))
        /\ (nextchar (getopt st) = EmptyString ->
            arg argv (optind (getopt st)) = long_form p ->
            report (cl_parser ext argv st)
            = Some (Exit EXIT_FAILURE, clo st, Out_lf_fmt st,
                    (output st
                     ++ [getopt_error
                           (long_option_requires_an_argument "--" (name p));
                         fprint_help stderr])%list))
        /\ (nextchar (getopt st) = String (val p) EmptyString ->
            initialized (getopt st) = true ->
            report (cl_parser ext argv st)
            = Some (Exit EXIT_FAILURE, clo st, Out_lf_fmt st,
                    (output st
                     ++ [getopt_error (option_requires_an_argument (val p));
                         fprint_help stderr])%list))).
Proof.
  split.
  - intros prog o fmt.
    rewrite (missing_argument_run ext _ _ (option_requires_an_argument "p"));
      [reflexivity|].
    eexists. lazy. reflexivity.
  - intros p argv st Hin Hreq Hnz Hlen Herr.
    split; [|split].
    + intros Hn Ha. apply missing_argument_run.
      apply (getopt_long_missing argv (getopt st) p); auto.
    + intros Hn Ha. apply missing_argument_run.
      apply (getopt_long_missing argv (getopt st) p); auto.
    + intros Hn Hi. apply missing_argument_run.
      apply (getopt_long_missing_cluster argv (getopt st) p); auto.
Qed.

(** ** The command flag *)

Lemma loop_command ext n argv st r st' :
  cl_parser_loop ext n argv st = Some (r, st') ->
  command (clo st') = command (clo st).
Proof.
  revert st. induction n as [|n IH]; intros st H; [discriminate|].
  simpl in H.
  destruct (cl_parser_turn ext argv st) as [[[|]|s] st1] eqn:Ht;
    apply turn_spec in Ht;
    destruct Ht as (c & d1 & msgs & _ & _ & Hcmd & _).
  - rewrite (IH _ H). exact Hcmd.
  - inversion H; subst. exact Hcmd.
  - inversion H; subst. exact Hcmd.
Qed.

(** C7. When the parser returns, it returns [optind], and, for a [*clo]
    that came in with [command] clear, [command] is set exactly when that
    index is below [argc], which is when arguments are left. *)
Theorem command_flag_iff_tokens_remain ext argv st idx st' :
  cl_parser ext argv st = Some (Val idx, st') ->
  command (clo st) = false ->
  idx = optind (getopt st')
  /\ (command (clo st') = true <-> (idx < List.length argv)%nat).
Proof.
  unfold cl_parser, cl_parser_fuel. intros H Hc.
  destruct (cl_parser_loop ext (scan_budget argv) argv st)
    as [[[[]|s] st1]|] eqn:Hl; try discriminate.
  apply loop_command in Hl. rewrite Hc in Hl.
  unfold cl_parser_end in H.
  destruct (Nat.ltb_spec (optind (getopt st1)) (List.length argv)) as [L|L];
    inversion H; subst idx st'; clear H; simpl.
  - split; [reflexivity|]. split; auto.
  - split; [reflexivity|]. rewrite Hl. split; [discriminate | lia].
Qed.

(** ** The value of a required argument is always there *)

Lemma short_option_code argv os pe d c rest code d' msgs :
  short_option argv os pe d c rest = (code, d', msgs) ->
  code = char_code "?" \/ code = missing_code os
  \/ (code = char_code c /\ Ascii.eqb c ":" = false
      /\ exists temp,
           strchr os c = Some temp
           /\ (Ascii.eqb (char_at temp 1) ":" = true ->
               Ascii.eqb (char_at temp 2) ":" = false ->
               optarg d' <> None)).
Proof.
  unfold short_option. intros H.
  destruct (strchr os c) as [temp|]; [|inversion H; auto].
  destruct (Ascii.eqb c ":") eqn:Ec; [inversion H; auto|].
  destruct (Ascii.eqb c ";") eqn:Es; [inversion H; auto|].
  simpl in H.
  destruct (Ascii.eqb (char_at temp 1) ":") eqn:E1.
  - destruct (Ascii.eqb (char_at temp 2) ":") eqn:E2.
    + destruct rest; inversion H; subst; right; right;
        (split; [reflexivity|]); (split; [reflexivity|]);
        exists temp; (split; [reflexivity|]); intros; congruence.
    + destruct rest.
      * match type of H with
        | context [if ?b then _ else _] => destruct b
        end; inversion H; subst; auto.
        right; right. split; [reflexivity|]. split; [reflexivity|].
        exists temp. split; [reflexivity|]. intros _ _. discriminate.
      * inversion H; subst. right; right.
        split; [reflexivity|]. split; [reflexivity|].
        exists temp. split; [reflexivity|]. intros _ _. discriminate.
  - inversion H; subst. right; right.
    split; [reflexivity|]. split; [reflexivity|].
    exists temp. split; [reflexivity|]. intros; congruence.
Qed.

Lemma exact_match_in lo nm p : exact_match lo nm = Some p -> In p lo.
Proof.
  induction lo as [|q lo IH]; simpl; [discriminate|].
  destruct (streq (name q) nm).
  - intros H; inversion H; auto.
  - auto.
Qed.

Lemma abbrev_match_in lo nm pf amb p amb' :
  abbrev_match lo nm pf amb = (Some p, amb') -> In p lo \/ pf = Some p.
Proof.
  revert pf amb. induction lo as [|q lo IH]; simpl; intros pf amb H.
  - inversion H; auto.
  - destruct (String.prefix nm (name q)).
    + destruct pf as [q0|].
      * destruct (IH _ _ H); auto.
      * destruct (IH _ _ H) as [|E]; auto. inversion E; auto.
    + destruct (IH _ _ H); auto.
Qed.

Lemma process_long_option_code argv os lo pe d code d' msgs :
  process_long_option argv os lo pe d = (code, d', msgs) ->
  code = char_code "?" \/ code = missing_code os
  \/ exists p, In p lo /\ code = char_code (val p)
               /\ (has_arg p = required_argument -> optarg d' <> None).
Proof.
  unfold process_long_option. intros H.
  destruct (split_name (nextchar d)) as [nm nameend].
  destruct (match exact_match lo nm with
            | Some p => (Some p, false)
            | None => abbrev_match lo nm None false
            end) as [[pfound|] [|]] eqn:El;
    try (inversion H; auto; fail).
  assert (Hin : In pfound lo).
  { destruct (exact_match lo nm) as [q|] eqn:Ee.
    - inversion El; subst. eapply exact_match_in; eassumption.
    - destruct (abbrev_match_in _ _ _ _ _ _ El); [assumption|discriminate]. }
  destruct nameend as [v|].
  - destruct (has_arg pfound) eqn:Eh; inversion H; subst; auto;
      right; right; exists pfound; repeat split; auto; intros; simpl; congruence.
  - destruct (has_arg pfound) eqn:Eh.
    + inversion H; subst. right; right. exists pfound.
      repeat split; auto; intros; simpl; congruence.
    + match type of H with
      | context [if ?b then _ else _] => destruct b
      end; inversion H; subst; auto.
      right; right. exists pfound. repeat split; auto; intros; simpl; congruence.
    + inversion H; subst. right; right. exists pfound.
      repeat split; auto; intros; simpl; congruence.
Qed.

(** What a call of [getopt_long] can return. *)
Lemma getopt_long_code argv os lo d code d' msgs :
  getopt_long argv os lo d = (code, d', msgs) ->
  code = -1 \/ code = char_code "?"
  \/ code = missing_code (skip_ordering os)
  \/ (exists c temp,
        code = char_code c /\ Ascii.eqb c ":" = false
        /\ strchr (skip_ordering os) c = Some temp
        /\ (Ascii.eqb (char_at temp 1) ":" = true ->
            Ascii.eqb (char_at temp 2) ":" = false ->
            optarg d' <> None))
  \/ (exists p, In p lo /\ code = char_code (val p)
                /\ (has_arg p = required_argument -> optarg d' <> None)).
Proof.
  unfold getopt_long. intros H.
  assert (Hshort : forall pe d0 c rest,
    short_option argv (skip_ordering os) pe d0 c rest = (code, d', msgs) ->
    code = -1 \/ code = char_code "?"
    \/ code = missing_code (skip_ordering os)
    \/ (exists c temp,
          code = char_code c /\ Ascii.eqb c ":" = false
          /\ strchr (skip_ordering os) c = Some temp
          /\ (Ascii.eqb (char_at temp 1) ":" = true ->
              Ascii.eqb (char_at temp 2) ":" = false ->
              optarg d' <> None))
    \/ (exists p, In p lo /\ code = char_code (val p)
                  /\ (has_arg p = required_argument -> optarg d' <> None))).
  { intros pe d0 c rest Hs. apply short_option_code in Hs.
    destruct Hs as [Hs|[Hs|(Hc & Hcolon & temp & Ht & Ho)]]; auto.
    right; right; right; left. exists c, temp. auto. }
  destruct (List.length argv <? 1)%nat; [inversion H; auto|].
  match type of H with
  | match nextchar ?d1 with _ => _ end = _ =>
      destruct (nextchar d1) as [|c rest]
  end.
  - repeat match type of H with
           | (if ?b then _ else _) = _ => destruct b
           end; try (inversion H; auto; fail).
    match type of H with
    | match ?a with _ => _ end = _ => destruct a as [|c0 [|c1 rest]]
    end; try (inversion H; auto; fail).
    destruct (Ascii.eqb_spec c1 "-") as [->|Hc1].
    + apply process_long_option_code in H.
      destruct H as [H|[H|H]]; auto 6.
    + destruct c1 as [[] [] [] [] [] [] [] []];
        try (eapply Hshort; exact H).
      exfalso; apply Hc1; reflexivity.
  - eapply Hshort; exact H.
Qed.

(** With the option string and the table of [cl_parser], [getopt_long]
    never returns ':', and with a character whose case calls
    [check_optarg] it always leaves a value in [optarg]. *)
Lemma scanner_hands_over_value argv d c d' msgs :
  getopt_long argv optstring long_options d = (c, d', msgs) ->
  c <> char_code ":" /\ (needs_optarg c = true -> optarg d' <> None).
Proof.
  intros H. apply getopt_long_code in H.
  destruct H as [->|[->|[->|[(c0 & temp & -> & Hcolon & Ht & Ho)
                            |(p & Hin & -> & Ho)]]]].
  - split; [discriminate | intros X; discriminate X].
  - split; [discriminate | intros X; discriminate X].
  - split; [discriminate | intros X; discriminate X].
  - split.
    + intros E. apply char_code_inj in E. subst c0. discriminate Hcolon.
    + intros Hn.
      destruct c0 as [[] [] [] [] [] [] [] []];
        vm_compute in Hn; try discriminate Hn;
        vm_compute in Ht; inversion Ht; subst temp;
        apply Ho; reflexivity.
  - simpl in Hin.
    repeat (destruct Hin as [<-|Hin]; [split; [discriminate|]|]);
      try contradiction;
      intros Hn; vm_compute in Hn; try discriminate Hn;
      apply Ho; reflexivity.
Qed.

Lemma loop_no_missing_error ext n argv st r st' :
  cl_parser_loop ext n argv st = Some (r, st') ->
  exists new,
    output st' = (output st ++ new)%list
    /\ ~ In missing_argument_error new.
Proof.
  revert st. induction n as [|n IH]; intros st H; [discriminate|].
  simpl in H.
  destruct (cl_parser_turn ext argv st) as [x st1] eqn:Ht.
  apply turn_spec in Ht.
  destruct Ht as (c & d1 & msgs & Hg & _ & _ & _ & _ & new & Hout & Hmiss).
  destruct (scanner_hands_over_value _ _ _ _ _ Hg) as [Hcolon Hval].
  assert (Hnew : ~ In missing_argument_error (map getopt_error msgs ++ new)).
  { intros Hin. apply in_app_or in Hin. destruct Hin as [Hin|Hin].
    - apply in_map_iff in Hin. destruct Hin as (m & Hm & _). discriminate Hm.
    - destruct (Hmiss Hin) as [E|[E1 E2]]; [auto|].
      apply (Hval E2). exact E1. }
  destruct x as [[|]|s].
  - destruct (IH _ H) as (new' & Hout' & Hnew').
    exists ((map getopt_error msgs ++ new) ++ new')%list. split.
    + rewrite Hout', Hout, <- app_assoc. reflexivity.
    + intros Hin. apply in_app_or in Hin. tauto.
  - inversion H; subst. eauto.
  - inversion H; subst. eauto.
Qed.

(** C10. Whatever the arguments and the state of the scan, [getopt_long]
    never returns ':' to [cl_parser], and whenever it returns the
    character of an option with a required argument, [optarg] is not NULL:
    a required argument that is missing comes back as '?', since the
    option string, once past its '+', does not start with ':'. So no run
    of the parser writes the complaint of [check_optarg] and of
    [case ':']. *)
Theorem check_optarg_never_fails ext :
  (forall argv d c d' msgs,
     getopt_long argv optstring long_options d = (c, d', msgs) ->
     c <> char_code ":" /\ (needs_optarg c = true -> optarg d' <> None))
  /\ missing_code (skip_ordering optstring) = char_code "?"
  /\ (forall argv st r st',
        cl_parser ext argv st = Some (r, st') ->
        exists new,
          output st' = (output st ++ new)%list
          /\ ~ In missing_argument_error new).
Proof.
  split; [exact scanner_hands_over_value|].
  split; [reflexivity|].
  intros argv st r st'. unfold cl_parser, cl_parser_fuel. intros H.
  destruct (cl_parser_loop ext (scan_budget argv) argv st)
    as [[[[]|s] st1]|] eqn:Hl; try discriminate.
  - apply loop_no_missing_error in Hl.
    destruct Hl as (new & Hout & Hnew).
    unfold cl_parser_end in H.
    destruct (optind (getopt st1) <? List.length argv)%nat;
      inversion H; subst; simpl; eauto.
  - inversion H; subst. eapply loop_no_missing_error; eassumption.
Qed.

(** ** The scan only looks ahead *)

Lemma agree_from_mono i j argv1 argv2 :
  agree_from i argv1 argv2 -> (i <= j)%nat -> agree_from j argv1 argv2.
Proof.
  intros [Hl Ha] Hij. split; [exact Hl|]. intros k Hk. apply Ha. lia.
Qed.

Lemma short_option_frame argv1 argv2 os pe d c rest :
  agree_from (optind d) argv1 argv2 ->
  short_option argv1 os pe d c rest = short_option argv2 os pe d c rest.
Proof.
  intros [Hl Ha]. unfold short_option. rewrite Hl.
  destruct rest; simpl; [|reflexivity].
  rewrite (Ha (S (optind d))) by lia. reflexivity.
Qed.

Lemma process_long_option_frame argv1 argv2 os lo pe d :
  agree_from (optind d) argv1 argv2 ->
  process_long_option argv1 os lo pe d = process_long_option argv2 os lo pe d.
Proof.
  intros [Hl Ha]. unfold process_long_option. rewrite Hl. simpl.
  rewrite (Ha (S (optind d))) by lia. reflexivity.
Qed.

Lemma skip_double_dash_frame argv1 argv2 d :
  agree_from (optind d) argv1 argv2 ->
  skip_double_dash argv1 d = skip_double_dash argv2 d.
Proof.
  intros [Hl Ha]. unfold skip_double_dash.
  rewrite Hl, (Ha (optind d)) by lia. reflexivity.
Qed.

(** [getopt_long] reads [argv] from [optind] on only. *)
Lemma getopt_long_frame argv1 argv2 os lo d :
  agree_from (optind d) argv1 argv2 ->
  getopt_long argv1 os lo d = getopt_long argv2 os lo d.
Proof.
  intros Hag. pose proof Hag as [Hl Ha]. unfold getopt_long. rewrite Hl.
  destruct (List.length argv2 <? 1)%nat; [reflexivity|].
  set (d1 := if (optind (set_optarg None d) =? 0)%nat
                || negb (initialized (set_optarg None d))
             then _getopt_initialize (set_optarg None d)
             else set_optarg None d).
  assert (H1 : (optind d <= optind d1)%nat).
  { subst d1. unfold _getopt_initialize. simpl.
    destruct (Nat.eqb_spec (optind d) 0) as [E0|E0]; simpl;
      [lia|]. destruct (negb (initialized d)); simpl; [|lia].
    destruct (Nat.eqb_spec (optind d) 0); simpl; lia. }
  clearbody d1.
  destruct (nextchar d1) as [|c rest].
  - set (d2 := if (optind d1 <? last_nonopt d1)%nat
               then set_last_nonopt (optind d1) d1 else d1).
    set (d3 := if (optind d2 <? first_nonopt d2)%nat
               then set_first_nonopt (optind d2) d2 else d2).
    assert (H3 : optind d3 = optind d1).
    { subst d3 d2.
      destruct (optind d1 <? last_nonopt d1)%nat; simpl;
        match goal with
        | |- context [if ?b then _ else _] => destruct b
        end; reflexivity. }
    clearbody d3. clear d2.
    assert (Hag3 : agree_from (optind d3) argv1 argv2)
      by (apply (agree_from_mono _ _ _ _ Hag); lia).
    rewrite (skip_double_dash_frame _ _ _ Hag3).
    unfold skip_double_dash.
    destruct (negb (optind d3 =? List.length argv2)%nat
              && streq (arg argv2 (optind d3)) "--").
    + simpl. rewrite Nat.eqb_refl. reflexivity.
    + destruct (optind d3 =? List.length argv2)%nat; [reflexivity|].
      rewrite (Ha (optind d3)) by lia.
      destruct (NONOPTION_P (arg argv2 (optind d3))); [reflexivity|].
      destruct (arg argv2 (optind d3)) as [|c0 [|c1 rest]];
        try reflexivity.
      rewrite (short_option_frame _ _ _ _ _ _ _ Hag3).
      rewrite (process_long_option_frame argv1 argv2);
        [reflexivity | exact Hag3].
  - apply short_option_frame. apply (agree_from_mono _ _ _ _ Hag). lia.
Qed.

Lemma turn_congr ext argv1 argv2 st :
  getopt_long argv1 optstring long_options (getopt st)
  = getopt_long argv2 optstring long_options (getopt st) ->
  cl_parser_turn ext argv1 st = cl_parser_turn ext argv2 st.
Proof.
  intros H. unfold cl_parser_turn, bind, call_getopt_long. rewrite H.
  reflexivity.
Qed.

Lemma scanning_length argv1 argv2 d :
  List.length argv1 = List.length argv2 ->
  scanning argv1 d -> scanning argv2 d.
Proof. unfold scanning. intros <-. auto. Qed.

(** Two argument vectors that are the same from [optind] on are scanned
    alike. *)
Lemma loop_frame ext n argv1 argv2 st :
  agree_from (optind (getopt st)) argv1 argv2 ->
  scanning argv1 (getopt st) ->
  cl_parser_loop ext n argv1 st = cl_parser_loop ext n argv2 st.
Proof.
  revert st. induction n as [|n IH]; intros st Hag Hs; [reflexivity|].
  simpl.
  rewrite <- (turn_congr ext argv1 argv2 st)
    by (apply getopt_long_frame; exact Hag).
  destruct (cl_parser_turn ext argv1 st) as [[[|]|s] st1] eqn:Ht;
    try reflexivity.
  apply turn_spec in Ht.
  destruct Ht as (c & d1 & msgs & Hg & Hd1 & _ & Hc & _).
  destruct (getopt_long_step _ _ _ _ _ _ _ Hg Hs (Hc eq_refl))
    as (Hs1 & _ & Ho).
  apply IH; rewrite Hd1; [|exact Hs1].
  apply (agree_from_mono _ _ _ _ Hag Ho).
Qed.

Lemma cl_parser_frame ext argv1 argv2 st :
  (forall n, cl_parser_loop ext n argv1 st = cl_parser_loop ext n argv2 st) ->
  List.length argv1 = List.length argv2 ->
  scanning argv1 (getopt st) ->
  nextchar (getopt st) = EmptyString ->
  cl_parser ext argv1 st = cl_parser ext argv2 st.
Proof.
  intros Hloop Hl Hs Hn.
  assert (Hm : forall argv, (scan_measure argv (getopt st)
                             < scan_budget argv)%nat).
  { intros argv. unfold scan_measure, scan_budget. rewrite Hn.
    pose proof (rest_size_mono argv 0 (optind (getopt st))). lia. }
  destruct (cl_parser_loop_total ext argv1 _ st Hs (Hm argv1)) as [r1 H1].
  destruct (cl_parser_loop_total ext argv2 _ st
              (scanning_length _ _ _ Hl Hs) (Hm argv2)) as [r2 H2].
  assert (E : r1 = r2).
  { pose proof (cl_parser_loop_mono _ _ _
                  (Nat.max (scan_budget argv1) (scan_budget argv2)) _ _
                  H1 (Nat.le_max_l _ _)) as M1.
    pose proof (cl_parser_loop_mono _ _ _
                  (Nat.max (scan_budget argv1) (scan_budget argv2)) _ _
                  H2 (Nat.le_max_r _ _)) as M2.
    rewrite Hloop in M1. congruence. }
  unfold cl_parser, cl_parser_fuel. rewrite H1, H2, E.
  destruct r2 as [[[]|s] st']; [|reflexivity].
  unfold cl_parser_end. rewrite Hl. reflexivity.
Qed.

(** Two argument vectors of one length on which the first call of
    [getopt_long] does the same, and which are the same from where that
    call leaves [optind], are parsed alike. *)
Lemma run_same_after_first_turn ext argv1 argv2 st :
  List.length argv1 = List.length argv2 ->
  scanning argv1 (getopt st) ->
  nextchar (getopt st) = EmptyString ->
  getopt_long argv1 optstring long_options (getopt st)
  = getopt_long argv2 optstring long_options (getopt st) ->
  (forall c d msgs,
     getopt_long argv1 optstring long_options (getopt st) = (c, d, msgs) ->
     agree_from (optind d) argv1 argv2) ->
  cl_parser ext argv1 st = cl_parser ext argv2 st.
Proof.
  intros Hl Hs Hn Hg Hag.
  apply cl_parser_frame; auto.
  intros [|n]; [reflexivity|]. simpl.
  rewrite <- (turn_congr ext argv1 argv2 st Hg).
  destruct (cl_parser_turn ext argv1 st) as [[[|]|s] st1] eqn:Ht;
    try reflexivity.
  apply turn_spec in Ht.
  destruct Ht as (c & d1 & msgs & Hg1 & Hd1 & _ & Hc & _).
  destruct (getopt_long_step _ _ _ _ _ _ _ Hg1 Hs (Hc eq_refl))
    as (Hs1 & _ & _).
  apply loop_frame; rewrite Hd1; [|exact Hs1].
  eapply Hag; exact Hg1.
Qed.

Ltac same_first_turn :=
  apply run_same_after_first_turn;
  [ reflexivity
  | apply scanning_start; discriminate
  | reflexivity
  | lazy; reflexivity
  | let c := fresh "c" in
    let d := fresh "d" in
    let msgs := fresh "msgs" in
    let Hg := fresh "Hg" in
    let j := fresh "j" in
    let Hj := fresh "Hj" in
    intros c d msgs Hg; lazy in Hg; inversion Hg; subst c d msgs;
    split; [reflexivity|];
    intros j Hj; simpl in Hj;
    repeat (destruct j as [|j]; [lia|]); reflexivity ].

(** C9. Each option of the table does the same typed short or long: alone
    for an option without argument or whose argument is optional, followed
    by its value for an option whose argument is required, and with a value
    attached ("-xVALUE" against "--name=VALUE") for an option that takes
    one. The two runs end the same way, with the same [*clo], the same
    [Out_lf_fmt], the same variables of getopt and the same text
    written. *)
Theorem short_and_long_forms_agree ext p prog rest o fmt :
  In p long_options ->
  (has_arg p <> required_argument ->
   cl_parser ext (prog :: short_form p :: rest) (entry_state o fmt)
   = cl_parser ext (prog :: long_form p :: rest) (entry_state o fmt))
  /\ (has_arg p = required_argument ->
      forall v,
        cl_parser ext (prog :: short_form p :: v :: rest) (entry_state o fmt)
        = cl_parser ext (prog :: long_form p :: v :: rest)
            (entry_state o fmt))
  /\ (has_arg p <> no_argument ->
      forall c r,
        cl_parser ext (prog :: short_attached p (String c r) :: rest)
          (entry_state o fmt)
        = cl_parser ext (prog :: long_attached p (String c r) :: rest)
            (entry_state o fmt)).
Proof.
  intros Hin. simpl in Hin.
  repeat (destruct Hin as [<-|Hin];
          [ split; [|split]; simpl has_arg; intros Hh;
            try congruence; intros; same_first_turn | ]).
  contradiction.
Qed.

(** ** The properties at work on sample command lines *)


(** On "-f anything" [ff_separate_logs] is not set: "anything" is not
    taken as the value of the option, it is the command. *)
Lemma follow_fork_detached_value_ignored :
  exists st',
    cl_parser ext_sample ["vltrace"; "-f"; "anything"]
      (entry_state clo_zero 0)
    = Some (Val 2%nat, st')
    /\ ff_mode (clo st') = E_FF_FULL
    /\ ff_separate_logs (clo st') <> true
    /\ command (clo st') = true.
Proof.
  eexists. split; [vm_compute; reflexivity|].
  split; [reflexivity|]. split; [discriminate|reflexivity].
Qed.

Lemma follow_fork_value_attached_witness :
  report (cl_parser ext_sample ["vltrace"; "-f"; "anything"]
            (entry_state clo_zero 0))
  = Some (Val 2%nat, set_command true (set_ff_mode E_FF_FULL clo_zero),
          0, [])
  /\ report (cl_parser ext_sample ["vltrace"; "-fanything"]
               (entry_state clo_zero 0))
     = Some (Val 2%nat,
             set_ff_separate_logs true (set_ff_mode E_FF_FULL clo_zero),
             0, [])
  /\ (exists st',
        cl_parser ext_sample ["vltrace"; "-fanything"]
          (entry_state clo_zero 0)
        = Some (Val 2%nat, st')
        /\ ff_mode (clo st') = E_FF_FULL
        /\ ff_separate_logs (clo st') = true
        /\ command (clo st') = false)
  /\ (exists st',
        cl_parser ext_sample ["vltrace"; "-f"; "anything"]
          (entry_state clo_zero 0)
        = Some (Val 2%nat, st')
        /\ ff_mode (clo st') = E_FF_FULL
        /\ ff_separate_logs (clo st') = false
        /\ command (clo st') = true).
Proof.
  split; [|split; [|split]].
  - apply (proj1 (proj2 (proj2 (proj2
             (follow_fork_value_attached ext_sample "vltrace" clo_zero 0))))).
    reflexivity.
  - exact (proj1 (proj2
             (follow_fork_value_attached ext_sample "vltrace" clo_zero 0))
             "a"%char "nything").
  - exact (proj1 (proj2 (proj2 (proj2 (proj2 (proj2
             (follow_fork_value_attached ext_sample "vltrace" clo_zero 0))))))
             "a"%char "nything").
  - exact (proj2 (proj2 (proj2 (proj2 (proj2 (proj2 (proj2
             (follow_fork_value_attached ext_sample "vltrace" clo_zero 0)))))))
             "anything" eq_refl).
Defined.

Lemma expr_option_reserved_values_witness :
  report (cl_parser ext_sample ["vltrace"; "--expr"; "trace=list"]
            (entry_state clo_zero 0))
  = Some (Exit EXIT_SUCCESS, clo_zero, 0, trace_sets_listing)
  /\ report (cl_parser ext_sample ["vltrace"; "--expr"; "trace=HELP"]
               (entry_state clo_zero 0))
     = Some (Exit EXIT_SUCCESS, clo_zero, 0, trace_sets_listing)
  /\ report (cl_parser ext_sample ["vltrace"; "--expr"; "Help"]
               (entry_state clo_zero 0))
     = Some (Exit EXIT_SUCCESS, clo_zero, 0, expr_help)
  /\ report (cl_parser ext_sample ["vltrace"; "--expr"; "openat"]
               (entry_state clo_zero 0))
     = Some (Val 3%nat, set_expr (Some "openat") clo_zero, 0, [])
  /\ (exists st',
        cl_parser ext_sample ["vltrace"; "--expr"; "openat"]
          (entry_state clo_zero 0)
        = Some (Val 3%nat, st')
        /\ expr (clo st') = Some "openat"
        /\ output st' = []).
Proof.
  split; [|split; [|split; [|split]]].
  - exact (proj1 (proj2 (expr_option_reserved_values ext_sample "trace=list"
                           eq_refl))
             "vltrace" "--expr" clo_zero 0 (or_introl eq_refl)).
  - exact (proj1 (proj2 (expr_option_reserved_values ext_sample "trace=HELP"
                           eq_refl))
             "vltrace" "--expr" clo_zero 0 (or_introl eq_refl)).
  - exact (proj1 (proj2 (expr_option_reserved_values ext_sample "Help"
                           eq_refl))
             "vltrace" "--expr" clo_zero 0 (or_introl eq_refl)).
  - exact (proj1 (proj2 (expr_option_reserved_values ext_sample "openat"
                           eq_refl))
             "vltrace" "--expr" clo_zero 0 (or_introl eq_refl)).
  - exact (proj2 (proj2 (proj2 (expr_option_reserved_values ext_sample
                                  "openat" eq_refl))
                    eq_refl eq_refl)
             "vltrace" "--expr" clo_zero 0 (or_introl eq_refl)).
Defined.

Lemma format_option_reserved_values_witness :
  report (cl_parser ext_sample ["vltrace"; "--format"; "list"]
            (entry_state clo_zero 0))
  = Some (Exit EXIT_SUCCESS, clo_zero, 0, format_listing)
  /\ report (cl_parser ext_sample ["vltrace"; "--format"; "LIST"]
               (entry_state clo_zero 0))
     = Some (Exit EXIT_SUCCESS, clo_zero, 0, format_listing)
  /\ report (cl_parser ext_sample ["vltrace"; "--format"; "help"]
               (entry_state clo_zero 0))
     = Some (Exit EXIT_SUCCESS, clo_zero, 0, format_listing)
  /\ report (cl_parser ext_sample ["vltrace"; "--format"; "hex"]
               (entry_state clo_zero 0))
     = Some (Val 3%nat, set_out_fmt_str (Some "hex") clo_zero,
             out_fmt_str2enum ext_sample "hex", [])
  /\ (exists st',
        cl_parser ext_sample ["vltrace"; "--format"; "hex"]
          (entry_state clo_zero 0)
        = Some (Val 3%nat, st')
        /\ out_fmt_str (clo st') = Some "hex"
        /\ Out_lf_fmt st' = out_fmt_str2enum ext_sample "hex"
        /\ output st' = []).
Proof.
  split; [|split; [|split; [|split]]].
  - exact (proj1 (proj2 (format_option_reserved_values ext_sample "list"
                           eq_refl))
             "vltrace" "--format" clo_zero 0 (or_introl eq_refl)).
  - exact (proj1 (proj2 (format_option_reserved_values ext_sample "LIST"
                           eq_refl))
             "vltrace" "--format" clo_zero 0 (or_introl eq_refl)).
  - exact (proj1 (proj2 (format_option_reserved_values ext_sample "help"
                           eq_refl))
             "vltrace" "--format" clo_zero 0 (or_introl eq_refl)).
  - exact (proj1 (proj2 (format_option_reserved_values ext_sample "hex"
                           eq_refl))
             "vltrace" "--format" clo_zero 0 (or_introl eq_refl)).
  - exact (proj2 (proj2 (proj2 (format_option_reserved_values ext_sample
                                  "hex" eq_refl))
                    eq_refl)
             "vltrace" "--format" clo_zero 0 (or_introl eq_refl)).
Defined.

Lemma missing_argument_is_fatal_witness :
  report (cl_parser ext_sample ["vltrace"; "-t"; "--pid"] state_after_t)
  = Some (Exit EXIT_FAILURE, set_timestamp true clo_zero, 0,
          [getopt_error (long_option_requires_an_argument "--" "pid");
           fprint_help stderr])
  /\ report (cl_parser ext_sample ["vltrace"; "-t"; "-p"] state_after_t)
     = Some (Exit EXIT_FAILURE, set_timestamp true clo_zero, 0,
             [getopt_error (option_requires_an_argument "p");
              fprint_help stderr]).
Proof.
  assert (Hin : In pid_row long_options) by (simpl; tauto).
  pose proof (proj2 (missing_argument_is_fatal ext_sample) pid_row
                ["vltrace"; "-t"; "--pid"] state_after_t Hin eq_refl
                (fun E => O_S 1 (eq_sym E)) eq_refl eq_refl) as Hlong.
  pose proof (proj2 (missing_argument_is_fatal ext_sample) pid_row
                ["vltrace"; "-t"; "-p"] state_after_t Hin eq_refl
                (fun E => O_S 1 (eq_sym E)) eq_refl eq_refl) as Hshort.
  split.
  - exact (proj1 (proj2 Hlong) eq_refl eq_refl).
  - exact (proj1 Hshort eq_refl eq_refl).
Defined.

Lemma scan_stops_at_command_witness :
  report (cl_parser ext_sample ["vltrace"; "-t"; "ls"; "-p"; "0"]
            state_after_t)
  = Some (Val 2%nat, set_command true (set_timestamp true clo_zero), 0, [])
  /\ (exists st',
        cl_parser ext_sample ["vltrace"; "-t"; "ls"; "-p"; "0"] state_after_t
        = Some (Val 2%nat, st')
        /\ command (clo st') = true
        /\ timestamp (clo st') = true
        /\ pid (clo st') = 0
        /\ output st' = [])
  /\ (exists st',
        cl_parser ext_sample ["vltrace"; "-t"; "-p"; "100"; "--"; "ls"; "-l"]
          (entry_state clo_zero 0)
        = Some (Val 5%nat, st')
        /\ timestamp (clo st') = true
        /\ pid (clo st') = 100
        /\ command (clo st') = true
        /\ output st' = []).
Proof.
  split; [|split].
  - apply (proj1 (proj2 (scan_stops_at_command ext_sample))
             ["vltrace"; "-t"; "ls"; "-p"; "0"] state_after_t).
    + reflexivity.
    + discriminate.
    + simpl. lia.
    + reflexivity.
  - apply (proj1 (proj2 (proj2 (proj2 (proj2
             (scan_stops_at_command ext_sample)))))
             ["vltrace"; "-t"; "ls"; "-p"; "0"] state_after_t).
    + reflexivity.
    + discriminate.
    + simpl. lia.
    + reflexivity.
  - exact (proj1 (proj2 (proj2 (proj2 (scan_stops_at_command ext_sample))))
             "vltrace" clo_zero 0).
Defined.

Lemma command_flag_iff_tokens_remain_witness :
  exists st',
    cl_parser ext_sample ["vltrace"; "-t"; "ls"] (entry_state clo_zero 0)
    = Some (Val 2%nat, st')
    /\ 2%nat = optind (getopt st')
    /\ (command (clo st') = true <-> (2 < 3)%nat).
Proof.
  eexists. split; [vm_compute; reflexivity|].
  apply (command_flag_iff_tokens_remain ext_sample
           ["vltrace"; "-t"; "ls"] (entry_state clo_zero 0)).
  - vm_compute. reflexivity.
  - reflexivity.
Defined.

Lemma builtin_list_exit_status_witness :
  report (cl_parser (ext_returning 7) ["vltrace"; "-B"]
            (entry_state clo_zero 0))
  = Some (Exit 7, clo_zero, 0, [print_syscalls_table_to stdout])
  /\ report (cl_parser (ext_returning 1) ["vltrace"; "--builtin-list"]
               (entry_state clo_zero 0))
     = Some (Exit EXIT_SUCCESS, clo_zero, 0, [print_syscalls_table_to stdout])
  /\ report (cl_parser (ext_returning 0) ["vltrace"; "-B"]
               (entry_state clo_zero 0))
     = Some (Exit EXIT_FAILURE, clo_zero, 0, [print_syscalls_table_to stdout])
  /\ builtin_list_status 7 = 7.
Proof.
  split; [|split; [|split]].
  - exact (proj1 (proj2 (builtin_list_exit_status (ext_returning 7)))
             "vltrace" "-B" clo_zero 0 (or_intror eq_refl)).
  - exact (proj1 (proj2 (builtin_list_exit_status (ext_returning 1)))
             "vltrace" "--builtin-list" clo_zero 0 (or_introl eq_refl)).
  - exact (proj1 (proj2 (builtin_list_exit_status (ext_returning 0)))
             "vltrace" "-B" clo_zero 0 (or_intror eq_refl)).
  - apply (proj2 (proj2 (proj2 (proj2
             (builtin_list_exit_status ext_sample))))); discriminate.
Defined.

Lemma short_and_long_forms_agree_witness :
  cl_parser ext_sample ["vltrace"; "-p"; "42"; "ls"] (entry_state clo_zero 0)
  = cl_parser ext_sample ["vltrace"; "--pid"; "42"; "ls"]
      (entry_state clo_zero 0)
  /\ cl_parser ext_sample ["vltrace"; "-p42"; "ls"] (entry_state clo_zero 0)
     = cl_parser ext_sample ["vltrace"; "--pid=42"; "ls"]
         (entry_state clo_zero 0).
Proof.
  assert (Hin : In pid_row long_options) by (simpl; tauto).
  pose proof (short_and_long_forms_agree ext_sample pid_row "vltrace"
                ["ls"] clo_zero 0 Hin) as (_ & Hreq & Hatt).
  split.
  - exact (Hreq eq_refl "42").
  - apply (Hatt ltac:(discriminate) "4"%char "2").
Defined.

Lemma check_optarg_never_fails_witness :
  (forall c d' msgs,
     getopt_long ["vltrace"; "-p"; "7"] optstring long_options getopt_start
     = (c, d', msgs) ->
     optarg d' <> None)
  /\ exists st',
       cl_parser ext_sample ["vltrace"; "-t"; "-p"] (entry_state clo_zero 0)
       = Some (Exit EXIT_FAILURE, st')
       /\ ~ In missing_argument_error (output st').
Proof.
  split.
  - intros c d' msgs E.
    destruct (proj1 (check_optarg_never_fails ext_sample) _ _ _ _ _ E)
      as [_ H].
    apply H. vm_compute in E. inversion E. reflexivity.
  - eexists. split; [vm_compute; reflexivity|].
    destruct (proj2 (proj2 (check_optarg_never_fails ext_sample))
                ["vltrace"; "-t"; "-p"] (entry_state clo_zero 0)
                (Exit EXIT_FAILURE) _ ltac:(vm_compute; reflexivity))
      as (new & Hout & Hnew).
    simpl in Hout. rewrite Hout. exact Hnew.
Defined.

(** * Further properties of the parser *)

(** ** Each turn of the loop, taken apart *)

Lemma turn_cases ext argv st x st' :
  cl_parser_turn ext argv st = (x, st') ->
  exists c d msgs,
    getopt_long argv optstring long_options (getopt st) = (c, d, msgs)
    /\ ((c = -1 /\ x = Val false
         /\ st' = set_output (output st ++ map getopt_error msgs)
                    (set_getopt d st))
        \/ (c <> -1
            /\ exists r,
                 dispatch ext c
                   (set_output (output st ++ map getopt_error msgs)
                      (set_getopt d st)) = (r, st')
                 /\ x = match r with
                        | Val _ => Val true
                        | Exit s => Exit s
                        end)).
Proof.
  unfold cl_parser_turn, bind, call_getopt_long, ret.
  destruct (getopt_long argv optstring long_options (getopt st))
    as [[c d] msgs].
  intros H. exists c, d, msgs. split; [reflexivity|].
  destruct (Z.eqb_spec c (-1)) as [Hc|Hc].
  - left. inversion H. auto.
  - right. split; [exact Hc|].
    destruct (dispatch ext c _) as [[[]|s] st2];
      inversion H; subst; eexists; split; reflexivity.
Qed.

(** Induction on a run: a relation [R] that every turn that goes on keeps,
    and the statement after the loop too, holds between the state
    [cl_parser] is entered in and the state it returns in; a relation [Q]
    that holds of the turn that calls [exit] holds, after turns that keep
    [R], of the whole run. *)
Lemma cl_parser_run_ind ext argv
    (R : state -> state -> Prop) (Q : Z -> state -> state -> Prop) :
  (forall st, R st st) ->
  (forall st1 st2 st3, R st1 st2 -> R st2 st3 -> R st1 st3) ->
  (forall s st1 st2 st3, R st1 st2 -> Q s st2 st3 -> Q s st1 st3) ->
  (forall st b st', cl_parser_turn ext argv st = (Val b, st') -> R st st') ->
  (forall st s st', cl_parser_turn ext argv st = (Exit s, st') -> Q s st st') ->
  (forall st, R st (set_clo (set_command true (clo st)) st)) ->
  forall st r st',
    cl_parser ext argv st = Some (r, st') ->
    match r with
    | Val _ => R st st'
    | Exit s => Q s st st'
    end.
Proof.
  intros Hrefl Htrans Hcomp Hturn Hexit Hend.
  assert (Hloop : forall n st r st',
            cl_parser_loop ext n argv st = Some (r, st') ->
            match r with
            | Val _ => R st st'
            | Exit s => Q s st st'
            end).
  { induction n as [|n IH]; intros st r st' H; [discriminate|].
    simpl in H.
    destruct (cl_parser_turn ext argv st) as [[[|]|s] st1] eqn:Ht.
    - apply Hturn in Ht. apply IH in H.
      destruct r; [eapply Htrans | eapply Hcomp]; eassumption.
    - inversion H; subst. eapply Hturn; exact Ht.
    - inversion H; subst. eapply Hexit; exact Ht. }
  intros st r st'. unfold cl_parser, cl_parser_fuel. intros H.
  destruct (cl_parser_loop ext (scan_budget argv) argv st)
    as [[[[]|s] st1]|] eqn:Hl; try discriminate.
  - apply Hloop in Hl. unfold cl_parser_end in H.
    destruct (optind (getopt st1) <? List.length argv)%nat;
      inversion H; subst; [|exact Hl].
    eapply Htrans; [exact Hl | apply Hend].
  - inversion H; subst. apply Hloop in Hl. exact Hl.
Qed.

(** ** The switch, case by case *)



Lemma atoi_range v : INT_MIN <= atoi v <= INT_MAX.
Proof.
  unfold atoi, int_of_long, INT_MIN, INT_MAX.
  pose proof (Z.mod_pos_bound (strtol10 v + 2 ^ 31) (2 ^ 32) eq_refl). lia.
Qed.

(** In a case of the switch the character is the label. *)
Ltac know_case :=
  match goal with
  | E : is_case ?c _ = true |- _ =>
      unfold is_case in E; apply Z.eqb_eq in E; subst c
  end.

Ltac no_case :=
  unfold has_case, case_labels; simpl;
  repeat match goal with
         | E : is_case _ _ = false |- _ => rewrite E; clear E
         end;
  reflexivity.

(** How a case of the switch ends: on a [break] nothing was written, the
    character has a case of its own other than '?', and the pid is as it
    was or at least 1; on [exit] something was written, and the status is
    EXIT_SUCCESS, EXIT_FAILURE or what [print_syscalls_table] returned. *)
Lemma dispatch_outcome ext c st r st' :
  dispatch ext c st = (r, st') ->
  match r with
  | Val _ =>
      output st' = output st
      /\ is_case c "?" = false /\ has_case c = true
      /\ (pid (clo st') = pid (clo st) \/ 1 <= pid (clo st') <= INT_MAX)
  | Exit s =>
      (s = EXIT_SUCCESS \/ s = EXIT_FAILURE \/ s = print_syscalls_table ext)
      /\ exists e new, output st' = (output st ++ e :: new)%list
  end.
Proof.
  intros H. switch_cases H;
    inversion H; subst r st'; clear H; simpl;
    try (know_case;
         split; [reflexivity|]; split; [reflexivity|];
         split; [reflexivity|];
         first [ left; reflexivity
               | right;
                 match goal with
                 | E : (_ <? 1) = false |- _ =>
                     cbn [pid clo set_clo set_pid] in E;
                     apply Z.ltb_ge in E;
                     pose proof (atoi_range s); lia
                 end ]);
    try (split; [auto|];
         rewrite <- ?app_assoc; simpl; eexists; eexists; reflexivity).
Qed.

(** The switch never clears a flag. *)
Lemma dispatch_flags_kept ext c st r st' :
  dispatch ext c st = (r, st') -> flags_kept (clo st) (clo st').
Proof.
  intros H. switch_cases H;
    inversion H; subst r st'; clear H; unfold flags_kept; simpl;
    repeat split; auto.
Qed.

(** What the switch leaves in [expr] and in the output format is never one
    of the reserved words. *)
Lemma dispatch_reserved ext c st r st' :
  dispatch ext c st = (r, st') ->
  (expr (clo st') = expr (clo st)
   \/ exists v, expr (clo st') = Some v /\ reserved_expr v = false)
  /\ ((out_fmt_str (clo st') = out_fmt_str (clo st)
       /\ Out_lf_fmt st' = Out_lf_fmt st)
      \/ exists v, out_fmt_str (clo st') = Some v
                   /\ Out_lf_fmt st' = out_fmt_str2enum ext v
                   /\ reserved_format v = false).
Proof.
  intros H. switch_cases H;
    inversion H; subst r st'; clear H; simpl;
    (split;
     [ first [ left; reflexivity
             | right; eexists; split; [reflexivity|];
               unfold reserved_expr;
               repeat match goal with
                      | E : (_ || _) = false |- _ =>
                          apply orb_false_iff in E; destruct E
                      end;
               repeat match goal with
                      | E : (_ =? 0) = false |- _ => rewrite E; clear E
                      end;
               reflexivity ]
     | first [ left; split; reflexivity
             | right; eexists; split; [reflexivity|];
               split; [reflexivity|]; assumption ] ]).
Qed.

(** The complaint of [default] is written by [default] only. *)
Lemma dispatch_unknown ext c st r st' :
  dispatch ext c st = (r, st') ->
  exists new,
    output st' = (output st ++ new)%list
    /\ (forall c', In (unknown_option_error c') new -> has_case c = false).
Proof.
  intros H. switch_cases H;
    inversion H; subst r st'; clear H; simpl;
    eexists; (split; [first [symmetry; apply app_nil_r
                            | rewrite <- ?app_assoc; reflexivity]|]);
    unfold unknown_option_error; simpl; intros c' Hin;
    first [ no_case
          | exfalso; intuition discriminate ].
Qed.

(** ** What [getopt_long] writes, and where it stops *)

Lemma short_option_msgs argv os pe d c rest code d' msgs :
  short_option argv os pe d c rest = (code, d', msgs) ->
  msgs = [] \/ code = char_code "?" \/ code = missing_code os.
Proof.
  unfold short_option. intros H.
  repeat match type of H with
         | match ?x with _ => _ end = _ => destruct x
         end;
    inversion H; auto.
Qed.

Lemma process_long_option_msgs argv os lo pe d code d' msgs :
  process_long_option argv os lo pe d = (code, d', msgs) ->
  msgs = [] \/ code = char_code "?" \/ code = missing_code os.
Proof.
  unfold process_long_option. intros H.
  destruct (split_name (nextchar d)) as [nm nameend].
  repeat match type of H with
         | match ?x with _ => _ end = _ => destruct x
         end;
    inversion H; auto.
Qed.

(** [getopt_long] writes a diagnostic only when it returns '?' (or ':',
    with an option string that asks for it). *)
Lemma getopt_long_msgs argv os lo d code d' msgs :
  getopt_long argv os lo d = (code, d', msgs) ->
  msgs = [] \/ code = char_code "?"
  \/ code = missing_code (skip_ordering os).
Proof.
  unfold getopt_long. intros H.
  destruct (List.length argv <? 1)%nat; [inversion H; auto|].
  match type of H with
  | match nextchar ?d1 with _ => _ end = _ =>
      destruct (nextchar d1) as [|c rest]
  end.
  - repeat match type of H with
           | (if ?b then _ else _) = _ => destruct b
           end; try (inversion H; auto; fail).
    match type of H with
    | match ?a with _ => _ end = _ => destruct a as [|c0 [|c1 rest]]
    end; try (inversion H; auto; fail).
    destruct (Ascii.eqb_spec c1 "-") as [->|Hc1].
    + eapply process_long_option_msgs; exact H.
    + destruct c1 as [[] [] [] [] [] [] [] []];
        try (eapply short_option_msgs; exact H).
      exfalso; apply Hc1; reflexivity.
  - eapply short_option_msgs; exact H.
Qed.

(** With the option string and the table of [cl_parser], what
    [getopt_long] returns is -1 or a character that has a case of its own
    in the switch. *)
Lemma getopt_long_has_case argv d c d' msgs :
  getopt_long argv optstring long_options d = (c, d', msgs) ->
  c = -1 \/ has_case c = true.
Proof.
  intros H. apply getopt_long_code in H.
  destruct H as [->|[->|[->|[(c0 & temp & -> & Hcolon & Ht & _)
                            |(p & Hin & -> & _)]]]]; auto.
  - right.
    destruct c0 as [[] [] [] [] [] [] [] []];
      vm_compute in Ht; try discriminate Ht; reflexivity.
  - right. simpl in Hin.
    repeat (destruct Hin as [<-|Hin]; [reflexivity|]). contradiction.
Qed.

(** ** What every run keeps *)

Lemma turn_output ext argv st x st' :
  cl_parser_turn ext argv st = (x, st') ->
  match x with
  | Val _ => output st' = output st
  | Exit s =>
      (s = EXIT_SUCCESS \/ s = EXIT_FAILURE \/ s = print_syscalls_table ext)
      /\ exists e new, output st' = (output st ++ e :: new)%list
  end.
Proof.
  intros H. apply turn_cases in H.
  destruct H as (c & d & msgs & Hg & [(-> & -> & ->)|(Hc & r & Hd & ->)]).
  - destruct (getopt_long_msgs _ _ _ _ _ _ _ Hg) as [->|[E|E]];
      [|discriminate E ..].
    simpl. apply app_nil_r.
  - apply dispatch_outcome in Hd. simpl in Hd.
    destruct r as [[]|s].
    + destruct Hd as (Hout & Hq & _).
      rewrite Hout.
      destruct (getopt_long_msgs _ _ _ _ _ _ _ Hg) as [->|[E|E]].
      * apply app_nil_r.
      * subst c. discriminate Hq.
      * subst c. discriminate Hq.
    + destruct Hd as (Hs & e & new & Hout). split; [exact Hs|].
      rewrite Hout, <- app_assoc.
      destruct msgs as [|m ms]; simpl; eauto.
Qed.

(** X3. A run that returns has written nothing; a run that ends in
    [exit] has written something. *)
Theorem returns_in_silence ext argv st r st' :
  cl_parser ext argv st = Some (r, st') ->
  match r with
  | Val _ => output st' = output st
  | Exit _ => exists e new, output st' = (output st ++ e :: new)%list
  end.
Proof.
  apply (cl_parser_run_ind ext argv
           (fun a b => output b = output a)
           (fun _ a b => exists e new, output b = (output a ++ e :: new)%list)).
  - reflexivity.
  - intros a b c H1 H2. congruence.
  - intros s a b c H1 (e & new & H2). rewrite H2, H1. eauto.
  - intros a b a' H. apply turn_output in H. exact H.
  - intros a s a' H. apply turn_output in H. apply H.
  - reflexivity.
Qed.

(** X4. The status a run ends with is EXIT_SUCCESS, EXIT_FAILURE or
    what [print_syscalls_table] returned. *)
Theorem exit_status_values ext argv st s st' :
  cl_parser ext argv st = Some (Exit s, st') ->
  s = EXIT_SUCCESS \/ s = EXIT_FAILURE \/ s = print_syscalls_table ext.
Proof.
  intros H.
  apply (cl_parser_run_ind ext argv
           (fun _ _ => True)
           (fun s _ _ =>
              s = EXIT_SUCCESS \/ s = EXIT_FAILURE
              \/ s = print_syscalls_table ext)) in H; auto.
  intros a s0 a' Ht. apply turn_output in Ht. apply Ht.
Qed.

Lemma turn_dispatch ext argv st x st' (P : state -> state -> Prop) :
  cl_parser_turn ext argv st = (x, st') ->
  (forall d out, P st (set_output out (set_getopt d st))) ->
  (forall c st1 r,
     c <> -1 ->
     (exists d msgs,
        getopt_long argv optstring long_options (getopt st) = (c, d, msgs)) ->
     dispatch ext c st1 = (r, st') ->
     x = match r with Val _ => Val true | Exit s => Exit s end ->
     P st st1 -> P st st') ->
  P st st'.
Proof.
  intros H Hscan Hd. apply turn_cases in H.
  destruct H as (c & d & msgs & Hg & [(-> & -> & ->)|(Hc & r & Hr & ->)]).
  - apply Hscan.
  - eapply Hd; eauto.
Qed.

(** X6. No run clears a flag that was set: [timestamp], [failed],
    [debug], [command], [ff_separate_logs], [do_not_print_progress] and a
    full follow-fork mode stay as they are once set. *)
Theorem flags_never_cleared ext argv st r st' :
  cl_parser ext argv st = Some (r, st') ->
  flags_kept (clo st) (clo st').
Proof.
  intros H.
  assert (Hrefl : forall o, flags_kept o o)
    by (intros o; unfold flags_kept; tauto).
  assert (Htrans : forall o1 o2 o3,
            flags_kept o1 o2 -> flags_kept o2 o3 -> flags_kept o1 o3)
    by (unfold flags_kept; intros o1 o2 o3 H1 H2; tauto).
  assert (Hturn : forall a x a',
            cl_parser_turn ext argv a = (x, a') ->
            flags_kept (clo a) (clo a')).
  { intros a x a' Ht.
    apply (turn_dispatch ext argv a x a'
             (fun s1 s2 => flags_kept (clo s1) (clo s2)) Ht).
    - intros; apply Hrefl.
    - intros c st1 r0 _ _ Hd _ H1.
      eapply Htrans; [exact H1|]. eapply dispatch_flags_kept; exact Hd. }
  apply (cl_parser_run_ind ext argv
           (fun a b => flags_kept (clo a) (clo b))
           (fun _ a b => flags_kept (clo a) (clo b))) in H.
  - destruct r; exact H.
  - intros; apply Hrefl.
  - intros; eapply Htrans; eassumption.
  - intros; eapply Htrans; eassumption.
  - intros; eapply Hturn; eassumption.
  - intros; eapply Hturn; eassumption.
  - intros a. unfold flags_kept. simpl. tauto.
Qed.

(** X7. In the configuration of a run that returns, [pid] is as it came
    in or a value from 1 to INT_MAX. *)
Theorem returned_pid_is_valid ext argv st idx st' :
  cl_parser ext argv st = Some (Val idx, st') ->
  pid (clo st') = pid (clo st) \/ 1 <= pid (clo st') <= INT_MAX.
Proof.
  intros H.
  apply (cl_parser_run_ind ext argv
           (fun a b => pid (clo b) = pid (clo a)
                       \/ 1 <= pid (clo b) <= INT_MAX)
           (fun _ _ _ => True)) in H; auto.
  - intros a b c [E1|V1] [E2|V2]; auto; rewrite E2; auto.
  - intros a b a' Ht.
    apply (turn_dispatch ext argv a (Val b) a'
             (fun s1 s2 => pid (clo s2) = pid (clo s1)
                           \/ 1 <= pid (clo s2) <= INT_MAX) Ht).
    + intros. left. reflexivity.
    + intros c st1 r0 _ _ Hd Hx [E1|V1];
        destruct r0 as [[]|s]; try discriminate Hx;
        apply dispatch_outcome in Hd; destruct Hd as (_ & _ & _ & [E|V]);
        auto; rewrite E; auto.
Qed.

(** X8. Whatever the arguments, a run never leaves a reserved word
    in the configuration: [expr] is as it came in or a value that is none
    of "help", "list", "trace=help" and "trace=list" for [strcasecmp]; the
    output format is as it came in, or [out_fmt_str] is a value that is
    neither "help" nor "list" and [Out_lf_fmt] is what [out_fmt_str2enum]
    makes of that same value. *)
Theorem reserved_words_never_stored ext argv st r st' :
  cl_parser ext argv st = Some (r, st') ->
  (expr (clo st') = expr (clo st)
   \/ exists v, expr (clo st') = Some v /\ reserved_expr v = false)
  /\ ((out_fmt_str (clo st') = out_fmt_str (clo st)
       /\ Out_lf_fmt st' = Out_lf_fmt st)
      \/ exists v, out_fmt_str (clo st') = Some v
                   /\ Out_lf_fmt st' = out_fmt_str2enum ext v
                   /\ reserved_format v = false).
Proof.
  intros H.
  set (R := fun a b : state =>
    (expr (clo b) = expr (clo a)
     \/ exists v, expr (clo b) = Some v /\ reserved_expr v = false)
    /\ ((out_fmt_str (clo b) = out_fmt_str (clo a)
         /\ Out_lf_fmt b = Out_lf_fmt a)
        \/ exists v, out_fmt_str (clo b) = Some v
                     /\ Out_lf_fmt b = out_fmt_str2enum ext v
                     /\ reserved_format v = false)).
  assert (Hrefl : forall a, R a a) by (intros a; split; left; auto).
  assert (Htrans : forall a b c, R a b -> R b c -> R a c).
  { intros a b c [E1 F1] [E2 F2]. split.
    - destruct E2 as [E2|E2]; [|right; exact E2].
      rewrite E2. exact E1.
    - destruct F2 as [[F2 G2]|F2]; [|right; exact F2].
      rewrite F2, G2. exact F1. }
  assert (Hturn : forall a x a',
            cl_parser_turn ext argv a = (x, a') -> R a a').
  { intros a x a' Ht.
    apply (turn_dispatch ext argv a x a' R Ht).
    - intros. split; left; auto.
    - intros c st1 r0 _ _ Hd _ H1.
      eapply Htrans; [exact H1|]. apply dispatch_reserved in Hd. exact Hd. }
  apply (cl_parser_run_ind ext argv R (fun _ => R)) in H; eauto.
  destruct r; exact H.
Qed.

(** X9. [getopt_long] hands the switch nothing but characters that
    have a case of their own, so [default] is never taken and no run
    writes its complaint about an unknown option. *)
Theorem default_case_is_dead ext :
  (forall argv d c d' msgs,
     getopt_long argv optstring long_options d = (c, d', msgs) ->
     c = -1 \/ has_case c = true)
  /\ (forall argv st r st',
        cl_parser ext argv st = Some (r, st') ->
        exists new,
          output st' = (output st ++ new)%list
          /\ forall c, ~ In (unknown_option_error c) new).
Proof.
  split; [exact getopt_long_has_case|].
  intros argv st r st' H.
  set (R := fun a b : state =>
    exists new, output b = (output a ++ new)%list
                /\ forall c, ~ In (unknown_option_error c) new).
  assert (Hrefl : forall a, R a a).
  { intros a. exists []. split; [symmetry; apply app_nil_r|]. intros c []. }
  assert (Htrans : forall a b c, R a b -> R b c -> R a c).
  { intros a b c (n1 & E1 & N1) (n2 & E2 & N2). exists (n1 ++ n2)%list.
    split; [rewrite E2, E1, app_assoc; reflexivity|].
    intros c0 Hin. apply in_app_or in Hin.
    destruct Hin; [eapply N1 | eapply N2]; eassumption. }
  assert (Hturn : forall a x a',
            cl_parser_turn ext argv a = (x, a') -> R a a').
  { intros a x a' Ht. apply turn_cases in Ht.
    destruct Ht as (c & d & msgs & Hg & [(-> & -> & ->)|(Hc & r0 & Hd & ->)]).
    - exists (map getopt_error msgs). split; [reflexivity|].
      intros c Hin. apply in_map_iff in Hin.
      destruct Hin as (m & Hm & _). discriminate Hm.
    - apply dispatch_unknown in Hd. destruct Hd as (new & Hout & Hnew).
      simpl in Hout.
      exists (map getopt_error msgs ++ new)%list.
      split; [rewrite Hout, app_assoc; reflexivity|].
      intros c0 Hin. apply in_app_or in Hin. destruct Hin as [Hin|Hin].
      + apply in_map_iff in Hin. destruct Hin as (m & Hm & _).
        discriminate Hm.
      + apply Hnew in Hin.
        destruct (getopt_long_has_case _ _ _ _ _ Hg) as [E|E]; congruence. }
  apply (cl_parser_run_ind ext argv R (fun _ => R)) in H; eauto.
  destruct r; exact H.
Qed.

(** X5. A case of the switch writes the members of its own option
    and no other: each member of [*clo], and [Out_lf_fmt], is as it was
    unless the character is the one of its option; [command] and the
    variables of getopt are never written by the switch. *)
Theorem switch_writes_own_fields_only ext c st r st' :
  dispatch ext c st = (r, st') ->
  (is_case c "p" = false -> pid (clo st') = pid (clo st))
  /\ (is_case c "t" = false -> timestamp (clo st') = timestamp (clo st))
  /\ (is_case c "X" = false -> failed (clo st') = failed (clo st))
  /\ (is_case c "d" = false -> debug (clo st') = debug (clo st))
  /\ (is_case c "r" = false ->
      do_not_print_progress (clo st') = do_not_print_progress (clo st))
  /\ (is_case c "o" = false -> out_fn (clo st') = out_fn (clo st))
  /\ (is_case c "K" = false ->
      out_lf_fld_sep_ch (clo st') = out_lf_fld_sep_ch (clo st))
  /\ (is_case c "N" = false -> ebpf_src_dir (clo st') = ebpf_src_dir (clo st))
  /\ (is_case c "e" = false -> expr (clo st') = expr (clo st))
  /\ (is_case c "l" = false ->
      out_fmt_str (clo st') = out_fmt_str (clo st)
      /\ Out_lf_fmt st' = Out_lf_fmt st)
  /\ (is_case c "s" = false -> fnr_mode (clo st') = fnr_mode (clo st))
  /\ (is_case c "f" = false ->
      ff_mode (clo st') = ff_mode (clo st)
      /\ ff_separate_logs (clo st') = ff_separate_logs (clo st))
  /\ command (clo st') = command (clo st)
  /\ getopt st' = getopt st.
Proof.
  intros H. switch_cases H;
    inversion H; subst r st'; clear H; simpl;
    repeat split; intros; try reflexivity; congruence.
Qed.

(** ** The loop ends, and where *)

(** X1. The loop of [cl_parser] ends on every argument vector:
    from the state a process starts in, and from every state a scan can be
    in between two arguments, [cl_parser] returns or calls [exit] within
    [scan_budget argv] turns. Each call of [getopt_long] that does not end
    the scan leaves strictly less to scan. *)
Theorem cl_parser_terminates ext argv :
  (forall o fmt, exists r, cl_parser ext argv (entry_state o fmt) = Some r)
  /\ (forall st,
        scanning argv (getopt st) ->
        nextchar (getopt st) = EmptyString ->
        exists r, cl_parser ext argv st = Some r)
  /\ (forall d c d' msgs,
        getopt_long argv optstring long_options d = (c, d', msgs) ->
        scanning argv d ->
        c <> -1 ->
        scanning argv d'
        /\ (scan_measure argv d' < scan_measure argv d)%nat).
Proof.
  split; [intros; apply cl_parser_total_entry|].
  split; [intros; apply cl_parser_total; assumption|].
  intros d c d' msgs Hg Hs Hc.
  destruct (getopt_long_step _ _ _ _ _ _ _ Hg Hs Hc) as (H1 & H2 & _).
  auto.
Qed.

Lemma char_code_nonneg c : 0 <= char_code c.
Proof. unfold char_code. apply N2Z.is_nonneg. Qed.

Lemma missing_code_nonneg os : 0 <= missing_code os.
Proof.
  unfold missing_code. destruct (Ascii.eqb _ _); apply char_code_nonneg.
Qed.

Lemma short_option_not_end argv os pe d c rest d' msgs :
  short_option argv os pe d c rest <> (-1, d', msgs).
Proof.
  intros H. apply short_option_code in H.
  pose proof (char_code_nonneg "?"). pose proof (missing_code_nonneg os).
  pose proof (char_code_nonneg c).
  destruct H as [H|[H|(H & _)]]; lia.
Qed.

Lemma process_long_option_not_end argv os lo pe d d' msgs :
  process_long_option argv os lo pe d <> (-1, d', msgs).
Proof.
  intros H. apply process_long_option_code in H.
  pose proof (char_code_nonneg "?"). pose proof (missing_code_nonneg os).
  destruct H as [H|[H|(p & _ & H & _)]]; try lia.
  pose proof (char_code_nonneg (val p)). lia.
Qed.

(** Where [getopt_long] ends the scan: past every argument, at an argument
    that is not an option, or just past the argument "--". *)
Lemma getopt_long_end argv os lo d d' msgs :
  getopt_long argv os lo d = (-1, d', msgs) ->
  argv <> [] ->
  scanning argv d ->
  (optind d <= optind d' <= List.length argv)%nat
  /\ optind d' <> 0%nat
  /\ ((optind d' < List.length argv)%nat ->
      NONOPTION_P (arg argv (optind d')) = true
      \/ arg argv (optind d' - 1) = "--").
Proof.
  intros H Hne (Hle & Hnc & Hfl). unfold getopt_long in H.
  destruct (List.length argv <? 1)%nat eqn:Hargc.
  { apply Nat.ltb_lt in Hargc. destruct argv; [congruence|simpl in Hargc; lia]. }
  apply Nat.ltb_ge in Hargc.
  set (d1 := if (optind (set_optarg None d) =? 0)%nat
                || negb (initialized (set_optarg None d))
             then _getopt_initialize (set_optarg None d)
             else set_optarg None d) in H.
  assert (H1 : initialized d1 = true /\ optind d1 <> 0%nat
               /\ (optind d <= optind d1 <= List.length argv)%nat
               /\ first_nonopt d1 = last_nonopt d1).
  { subst d1. unfold _getopt_initialize. simpl.
    destruct (Nat.eqb_spec (optind d) 0) as [E0|E0]; simpl;
      destruct (initialized d) eqn:Ei; simpl;
      repeat split; auto; try lia; try congruence. }
  clearbody d1.
  destruct H1 as (Hi1 & Hnz1 & Ho1 & Hf1).
  destruct (nextchar d1) as [|c rest] eqn:En1;
    [|exfalso; eapply short_option_not_end; exact H].
  set (d2 := if (optind d1 <? last_nonopt d1)%nat
             then set_last_nonopt (optind d1) d1 else d1) in H.
  set (d3 := if (optind d2 <? first_nonopt d2)%nat
             then set_first_nonopt (optind d2) d2 else d2) in H.
  assert (H3 : optind d3 = optind d1 /\ first_nonopt d3 = last_nonopt d3).
  { subst d3 d2.
    destruct (optind d1 <? last_nonopt d1)%nat eqn:E2; simpl;
      rewrite Hf1, E2; simpl; auto. }
  clearbody d3. clear d2.
  destruct H3 as (Ho3 & Hf3).
  unfold skip_double_dash in H.
  destruct (negb (optind d3 =? List.length argv)%nat
            && streq (arg argv (optind d3)) "--") eqn:Edd.
  - apply andb_true_iff in Edd. destruct Edd as [Ene Edd].
    apply negb_true_iff, Nat.eqb_neq in Ene.
    apply String.eqb_eq in Edd.
    simpl in H. rewrite Nat.eqb_refl in H.
    rewrite Hf3, Nat.eqb_refl in H. simpl in H.
    assert (Hd' : optind d' = S (optind d3)).
    { destruct (S (optind d3) =? List.length argv)%nat eqn:E;
        inversion H; subst; simpl; [|reflexivity].
      apply Nat.eqb_eq in E. lia. }
    rewrite Hd'. simpl. rewrite Nat.sub_0_r.
    repeat split; try lia. intros _. right. exact Edd.
  - destruct (optind d3 =? List.length argv)%nat eqn:Eend.
    + apply Nat.eqb_eq in Eend.
      rewrite Hf3, Nat.eqb_refl in H. inversion H; subst.
      repeat split; try lia.
    + apply Nat.eqb_neq in Eend.
      destruct (NONOPTION_P (arg argv (optind d3))) eqn:Enon.
      * inversion H; subst. repeat split; try lia. intros _. left. exact Enon.
      * exfalso.
        destruct (arg argv (optind d3)) as [|c0 [|c1 rest]];
          try discriminate Enon.
        { unfold NONOPTION_P in Enon. simpl in Enon.
          rewrite orb_true_r in Enon. discriminate Enon. }
        destruct (Ascii.eqb_spec c1 "-") as [->|Hc1].
        -- eapply process_long_option_not_end; exact H.
        -- destruct c1 as [[] [] [] [] [] [] [] []];
             try (eapply short_option_not_end; exact H).
           apply Hc1; reflexivity.
Qed.

Lemma loop_end_index ext argv n st st' :
  cl_parser_loop ext n argv st = Some (Val tt, st') ->
  argv <> [] ->
  scanning argv (getopt st) ->
  (optind (getopt st) <= optind (getopt st') <= List.length argv)%nat
  /\ optind (getopt st') <> 0%nat
  /\ ((optind (getopt st') < List.length argv)%nat ->
      NONOPTION_P (arg argv (optind (getopt st'))) = true
      \/ arg argv (optind (getopt st') - 1) = "--").
Proof.
  revert st. induction n as [|n IH]; intros st H Hne Hs; [discriminate|].
  simpl in H.
  destruct (cl_parser_turn ext argv st) as [[[|]|s] st1] eqn:Ht;
    try discriminate;
    apply turn_spec in Ht;
    destruct Ht as (c & d1 & msgs & Hg & Hd1 & _ & Hc & Hc' & _).
  - destruct (getopt_long_step _ _ _ _ _ _ _ Hg Hs (Hc eq_refl))
      as (Hs1 & _ & Ho).
    rewrite <- Hd1 in Hs1, Ho.
    destruct (IH _ H Hne Hs1) as (A & B & C).
    repeat split; auto; lia.
  - inversion H; subst st1. rewrite (Hc' eq_refl) in Hg.
    rewrite Hd1. eapply getopt_long_end; eassumption.
Qed.

(** X2. The index [cl_parser] returns, on a non-empty argument vector
    and from a state a scan can be in, is at least 1, not before the
    [optind] it started from and at most [argc]; when it is below [argc],
    the argument there is not an option, or the argument before it is
    "--". *)
Theorem returned_index_is_in_range ext argv st idx st' :
  cl_parser ext argv st = Some (Val idx, st') ->
  argv <> [] ->
  scanning argv (getopt st) ->
  (1 <= idx /\ optind (getopt st) <= idx <= List.length argv)%nat
  /\ ((idx < List.length argv)%nat ->
      NONOPTION_P (arg argv idx) = true \/ arg argv (idx - 1) = "--").
Proof.
  unfold cl_parser, cl_parser_fuel. intros H Hne Hs.
  destruct (cl_parser_loop ext (scan_budget argv) argv st)
    as [[[[]|s] st1]|] eqn:Hl; try discriminate.
  destruct (loop_end_index _ _ _ _ _ Hl Hne Hs) as (A & B & C).
  unfold cl_parser_end in H. inversion H; subst idx. clear H.
  repeat split; auto; lia.
Qed.

(** ** An option at the head of what is left to scan *)

(** At an argument that starts with '-' and is neither "-" nor "--", with
    no cluster under way, [getopt_long] goes to the long options on a
    second '-' and to the short options otherwise. *)
Lemma getopt_long_fresh argv os lo d c1 rest :
  nextchar d = EmptyString ->
  optind d <> 0%nat ->
  (optind d < List.length argv)%nat ->
  arg argv (optind d) = String "-" (String c1 rest) ->
  c1 <> zero ->
  (c1 = "-"%char -> rest <> EmptyString) ->
  exists d0,
    optind d0 = optind d
    /\ getopt_long argv os lo d
       = if Ascii.eqb c1 "-"
         then process_long_option argv (skip_ordering os) lo
                (opterr d
                 && negb (Ascii.eqb (char_at (skip_ordering os) 0) ":"))
                (set_nextchar rest d0)
         else short_option argv (skip_ordering os)
                (opterr d
                 && negb (Ascii.eqb (char_at (skip_ordering os) 0) ":"))
                d0 c1 rest.
Proof.
  intros Hn Hnz Hlt Ha Hc1 Hdash.
  assert (Hdd : streq (arg argv (optind d)) "--" = false).
  { rewrite Ha. unfold streq. simpl.
    destruct (Ascii.eqb_spec c1 "-") as [E|E]; [|reflexivity].
    destruct rest; [exfalso; apply (Hdash E); reflexivity | reflexivity]. }
  assert (Hnon : NONOPTION_P (arg argv (optind d)) = false).
  { rewrite Ha. unfold NONOPTION_P, char_at. simpl.
    apply Ascii.eqb_neq. exact Hc1. }
  unfold getopt_long.
  assert (E1 : (List.length argv <? 1)%nat = false)
    by (apply Nat.ltb_ge; lia).
  rewrite E1.
  set (d1 := if (optind (set_optarg None d) =? 0)%nat
                || negb (initialized (set_optarg None d))
             then _getopt_initialize (set_optarg None d)
             else set_optarg None d).
  assert (H1 : optind d1 = optind d /\ opterr d1 = opterr d
               /\ nextchar d1 = EmptyString).
  { subst d1. unfold _getopt_initialize. simpl.
    destruct (Nat.eqb_spec (optind d) 0) as [E0|E0]; [contradiction|].
    simpl. destruct (initialized d); simpl.
    - auto.
    - destruct (Nat.eqb_spec (optind d) 0); [contradiction|]. simpl. auto. }
  clearbody d1. destruct H1 as (Ho1 & He1 & Hn1).
  rewrite Hn1, He1.
  set (d2 := if (optind d1 <? last_nonopt d1)%nat
             then set_last_nonopt (optind d1) d1 else d1).
  set (d3 := if (optind d2 <? first_nonopt d2)%nat
             then set_first_nonopt (optind d2) d2 else d2).
  assert (H3 : optind d3 = optind d).
  { subst d3 d2.
    destruct (optind d1 <? last_nonopt d1)%nat; simpl;
      match goal with
      | |- context [if ?b then _ else _] => destruct b
      end; simpl; exact Ho1. }
  clearbody d3. clear d2.
  assert (E3 : (optind d3 =? List.length argv)%nat = false)
    by (apply Nat.eqb_neq; lia).
  unfold skip_double_dash. rewrite H3 in *. rewrite E3, Hdd. simpl.
  rewrite H3, E3, Hnon, Ha.
  exists d3. split; [exact H3|].
  destruct (Ascii.eqb_spec c1 "-") as [->|Hne]; [reflexivity|].
  destruct c1 as [[] [] [] [] [] [] [] []]; try reflexivity.
  exfalso; apply Hne; reflexivity.
Qed.

(** A turn that ends in [exit] ends the run. *)
Lemma exit_run ext argv st c d msgs s st2 :
  getopt_long argv optstring long_options (getopt st) = (c, d, msgs) ->
  c <> -1 ->
  dispatch ext c
    (set_output (output st ++ map getopt_error msgs) (set_getopt d st))
  = (Exit s, st2) ->
  cl_parser ext argv st = Some (Exit s, st2).
Proof.
  intros Hg Hc Hd. unfold cl_parser, cl_parser_fuel, scan_budget.
  erewrite loop_exit; [reflexivity|].
  rewrite (turn_run _ _ _ _ _ _ _ _ Hg Hc Hd). reflexivity.
Qed.

Ltac fresh_option Hn Hnz Hlt Ha :=
  match type of Ha with
  | arg ?argv (optind ?d) = _ =>
      let d0 := fresh "d0" in
      let Ho := fresh "Ho" in
      let Hg := fresh "Hg" in
      destruct (getopt_long_fresh argv optstring long_options d _ _
                  Hn Hnz Hlt Ha)
        as (d0 & Ho & Hg); [discriminate | congruence | ]
  end.

(** The options that only print: the character, what is written and to
    which stream. *)
Lemma printing_option_run ext argv st a c e :
  nextchar (getopt st) = EmptyString ->
  optind (getopt st) <> 0%nat ->
  (optind (getopt st) < List.length argv)%nat ->
  arg argv (optind (getopt st)) = a ->
  (a = "-h" \/ a = "--help") /\ c = char_code "h" /\ e = fprint_help stdout
  \/ (a = "-L" \/ a = "--list") /\ c = char_code "L"
     /\ e = get_sc_list stdout (Some is_a_sc)
  \/ (a = "-R" \/ a = "--ll-list") /\ c = char_code "R"
     /\ e = get_sc_list stdout None ->
  report (cl_parser ext argv st)
  = Some (Exit EXIT_SUCCESS, clo st, Out_lf_fmt st,
          (output st ++ [e])%list).
Proof.
  intros Hn Hnz Hlt Ha Hcases.
  destruct Hcases as [([E|E] & -> & ->)|[([E|E] & -> & ->)|([E|E] & -> & ->)]];
    subst a; fresh_option Hn Hnz Hlt E;
    (erewrite exit_run;
     [ | rewrite Hg; cbn; reflexivity | discriminate
       | pick_case; cbn; reflexivity ]);
    cbn; rewrite app_nil_r; reflexivity.
Qed.

(** X10. The options that only print end the run at once: where
    the scan comes to "-h" or "--help" the usage goes to stdout, to "-L" or
    "--list" the list of the syscalls, to "-R" or "--ll-list" the list
    without filter, and the process ends with EXIT_SUCCESS; [*clo] and
    [Out_lf_fmt] are as they were, and what follows in [argv] is not looked
    at. *)
Theorem printing_options_end_the_run ext argv st :
  nextchar (getopt st) = EmptyString ->
  optind (getopt st) <> 0%nat ->
  (optind (getopt st) < List.length argv)%nat ->
  (arg argv (optind (getopt st)) = "-h"
   \/ arg argv (optind (getopt st)) = "--help" ->
   report (cl_parser ext argv st)
   = Some (Exit EXIT_SUCCESS, clo st, Out_lf_fmt st,
           (output st ++ [fprint_help stdout])%list))
  /\ (arg argv (optind (getopt st)) = "-L"
      \/ arg argv (optind (getopt st)) = "--list" ->
      report (cl_parser ext argv st)
      = Some (Exit EXIT_SUCCESS, clo st, Out_lf_fmt st,
              (output st ++ [get_sc_list stdout (Some is_a_sc)])%list))
  /\ (arg argv (optind (getopt st)) = "-R"
      \/ arg argv (optind (getopt st)) = "--ll-list" ->
      report (cl_parser ext argv st)
      = Some (Exit EXIT_SUCCESS, clo st, Out_lf_fmt st,
              (output st ++ [get_sc_list stdout None])%list)).
Proof.
  intros Hn Hnz Hlt.
  split; [|split]; intros Ha;
    eapply printing_option_run; eauto 10.
Qed.

(** ** Options that do not exist *)

Lemma prefix_refl s : String.prefix s s = true.
Proof.
  induction s as [|c s IH]; [reflexivity|]. simpl.
  destruct (ascii_dec c c); [exact IH | congruence].
Qed.

Lemma no_prefix_exact lo nm :
  forallb (fun p => negb (String.prefix nm (name p))) lo = true ->
  exact_match lo nm = None.
Proof.
  induction lo as [|p lo IH]; simpl; [reflexivity|]. intros H.
  apply andb_true_iff in H. destruct H as [Hp Hlo].
  unfold streq. destruct (String.eqb_spec (name p) nm) as [E|E].
  - rewrite E, prefix_refl in Hp. discriminate Hp.
  - apply IH. exact Hlo.
Qed.

Lemma no_prefix_abbrev lo nm pf amb :
  forallb (fun p => negb (String.prefix nm (name p))) lo = true ->
  abbrev_match lo nm pf amb = (pf, amb).
Proof.
  revert pf amb. induction lo as [|p lo IH]; simpl; [reflexivity|].
  intros pf amb H.
  apply andb_true_iff in H. destruct H as [Hp Hlo].
  apply negb_true_iff in Hp. rewrite Hp. apply IH. exact Hlo.
Qed.

(** X11. An option that does not exist ends the run: where the scan
    comes to a cluster whose first character is no option character, or to
    "--name" where no name of the table starts with [name], [getopt_long]
    writes its complaint, the parser writes the usage to stderr and the
    process ends with EXIT_FAILURE; [*clo] and [Out_lf_fmt] are as they
    were. *)
Theorem unknown_option_is_fatal ext argv st :
  nextchar (getopt st) = EmptyString ->
  optind (getopt st) <> 0%nat ->
  (optind (getopt st) < List.length argv)%nat ->
  opterr (getopt st) = true ->
  (forall c rest,
     arg argv (optind (getopt st)) = String "-" (String c rest) ->
     c <> zero -> c <> "-"%char ->
     strchr (skip_ordering optstring) c = None \/ c = ":"%char ->
     report (cl_parser ext argv st)
     = Some (Exit EXIT_FAILURE, clo st, Out_lf_fmt st,
             (output st
              ++ [getopt_error (invalid_option c); fprint_help stderr])%list))
  /\ (forall body,
        arg argv (optind (getopt st)) = "--" ++ body ->
        body <> EmptyString ->
        no_long_option (fst (split_name body)) = true ->
        report (cl_parser ext argv st)
        = Some (Exit EXIT_FAILURE, clo st, Out_lf_fmt st,
                (output st
                 ++ [getopt_error (unrecognized_option "--" body);
                     fprint_help stderr])%list)).
Proof.
  intros Hn Hnz Hlt Herr. split.
  - intros c rest Ha Hc0 Hcd Hstr.
    destruct (getopt_long_fresh argv optstring long_options (getopt st) c rest
                Hn Hnz Hlt Ha Hc0) as (d0 & Ho & Hg); [congruence|].
    apply Ascii.eqb_neq in Hcd. rewrite Hcd, Herr in Hg.
    assert (Hs : exists d',
               short_option argv (skip_ordering optstring)
                 (true && negb (Ascii.eqb
                                  (char_at (skip_ordering optstring) 0) ":"))
                 d0 c rest
               = (char_code "?", d', [invalid_option c])).
    { unfold short_option. destruct Hstr as [Hstr|Hstr].
      - rewrite Hstr. eexists; reflexivity.
      - subst c. cbn. eexists; reflexivity. }
    destruct Hs as (d' & Hs). rewrite Hs in Hg.
    erewrite exit_run;
      [ | exact Hg | discriminate | apply dispatch_question ].
    cbn. rewrite <- app_assoc. reflexivity.
  - intros body Ha Hbody Hno.
    destruct (getopt_long_fresh argv optstring long_options (getopt st)
                "-" body Hn Hnz Hlt Ha) as (d0 & Ho & Hg);
      [discriminate | intros _; exact Hbody |].
    rewrite Herr in Hg. cbn [Ascii.eqb Bool.eqb] in Hg.
    assert (Hs : exists d',
               process_long_option argv (skip_ordering optstring)
                 long_options
                 (true && negb (Ascii.eqb
                                  (char_at (skip_ordering optstring) 0) ":"))
                 (set_nextchar body d0)
               = (char_code "?", d', [unrecognized_option "--" body])).
    { unfold process_long_option. cbn [nextchar set_nextchar].
      destruct (split_name body) as [nm nameend]. simpl in Hno.
      unfold no_long_option in Hno.
      rewrite (no_prefix_exact _ _ Hno), (no_prefix_abbrev _ _ _ _ Hno).
      eexists; reflexivity. }
    destruct Hs as (d' & Hs). rewrite Hs in Hg.
    erewrite exit_run;
      [ | exact Hg | discriminate | apply dispatch_question ].
    cbn. rewrite <- app_assoc. reflexivity.
Qed.

(** ** The argument "--" *)

Lemma getopt_long_double_dash argv os lo d :
  scanning argv d ->
  nextchar d = EmptyString ->
  optind d <> 0%nat ->
  (optind d < List.length argv)%nat ->
  arg argv (optind d) = "--" ->
  exists d', getopt_long argv os lo d = (-1, d', [])
             /\ optind d' = S (optind d).
Proof.
  intros (_ & _ & Hfl) Hn Hnz Hlt Ha.
  unfold getopt_long.
  assert (E1 : (List.length argv <? 1)%nat = false)
    by (apply Nat.ltb_ge; lia).
  rewrite E1.
  set (d1 := if (optind (set_optarg None d) =? 0)%nat
                || negb (initialized (set_optarg None d))
             then _getopt_initialize (set_optarg None d)
             else set_optarg None d).
  assert (H1 : optind d1 = optind d /\ nextchar d1 = EmptyString
               /\ first_nonopt d1 = last_nonopt d1).
  { subst d1. unfold _getopt_initialize. simpl.
    destruct (Nat.eqb_spec (optind d) 0) as [E0|E0]; [contradiction|].
    simpl. destruct (initialized d) eqn:Ei; simpl.
    - auto.
    - destruct (Nat.eqb_spec (optind d) 0); [contradiction|]. simpl. auto. }
  clearbody d1. destruct H1 as (Ho1 & Hn1 & Hf1).
  rewrite Hn1.
  set (d2 := if (optind d1 <? last_nonopt d1)%nat
             then set_last_nonopt (optind d1) d1 else d1).
  set (d3 := if (optind d2 <? first_nonopt d2)%nat
             then set_first_nonopt (optind d2) d2 else d2).
  assert (H3 : optind d3 = optind d /\ first_nonopt d3 = last_nonopt d3).
  { subst d3 d2.
    destruct (optind d1 <? last_nonopt d1)%nat eqn:E2; simpl;
      rewrite Hf1, E2; simpl; auto. }
  clearbody d3. clear d2. destruct H3 as (Ho3 & Hf3).
  assert (E3 : (optind d3 =? List.length argv)%nat = false)
    by (apply Nat.eqb_neq; lia).
  unfold skip_double_dash. rewrite Ho3 in *. rewrite E3, Ha. simpl.
  rewrite Hf3, !Nat.eqb_refl. simpl. rewrite Ho3.
  destruct (Nat.eqb_spec (S (optind d)) (List.length argv)) as [E|E];
    eexists; split; try reflexivity; simpl; lia.
Qed.

(** X12. Where the scan comes to the argument "--", the loop ends:
    [cl_parser] returns the index of the argument after it, with [command]
    set when there is such an argument, [*clo] otherwise as it was, and
    nothing written; what follows "--" is not looked at. In the state the
    run ends in, [command] reads true when an argument follows "--". *)
Theorem double_dash_ends_options ext argv st :
  scanning argv (getopt st) ->
  nextchar (getopt st) = EmptyString ->
  optind (getopt st) <> 0%nat ->
  (optind (getopt st) < List.length argv)%nat ->
  arg argv (optind (getopt st)) = "--" ->
  report (cl_parser ext argv st)
  = Some (Val (S (optind (getopt st))),
          (if (S (optind (getopt st)) <? List.length argv)%nat
           then set_command true (clo st) else clo st),
          Out_lf_fmt st, output st)
  /\ exists st',
       cl_parser ext argv st = Some (Val (S (optind (getopt st))), st')
       /\ ((S (optind (getopt st)) < List.length argv)%nat ->
           command (clo st') = true)
       /\ ((List.length argv <= S (optind (getopt st)))%nat ->
           clo st' = clo st)
       /\ output st' = output st.
Proof.
  intros Hs Hn Hnz Hlt Ha.
  assert (Hrun : report (cl_parser ext argv st)
                 = Some (Val (S (optind (getopt st))),
                         (if (S (optind (getopt st)) <? List.length argv)%nat
                          then set_command true (clo st) else clo st),
                         Out_lf_fmt st, output st)).
  { destruct (getopt_long_double_dash argv optstring long_options _
                Hs Hn Hnz Hlt Ha) as (d' & Hg & Ho).
    unfold cl_parser, cl_parser_fuel, scan_budget.
    erewrite loop_break by (apply turn_end; exact Hg).
    unfold cl_parser_end. simpl. rewrite Ho.
    destruct (S (optind (getopt st)) <? List.length argv)%nat;
      simpl; rewrite app_nil_r; reflexivity. }
  split; [exact Hrun|].
  destruct (report_state _ _ _ _ _ Hrun) as (st' & Hst & Hclo & _ & Hout).
  exists st'. split; [exact Hst|]. rewrite Hclo.
  split; [|split; [|exact Hout]].
  - intros H. apply Nat.ltb_lt in H. rewrite H. reflexivity.
  - intros H. apply Nat.ltb_ge in H. rewrite H. reflexivity.
Qed.

(** ** Options that take the next argument *)

Ltac next_argument_scan Ho E4 E5 Hg :=
  cbn in Hg; rewrite ?Ho in Hg; rewrite ?E4, ?E5 in Hg; cbn in Hg;
  rewrite ?Ho in Hg;
  eexists; split; [exact Hg|];
  cbn; rewrite ?Ho; repeat split.

(** An option with a required argument, typed alone, takes the argument
    that follows, whatever that argument is. *)
Lemma getopt_long_next_argument argv d p :
  In p long_options ->
  has_arg p = required_argument ->
  nextchar d = EmptyString ->
  optind d <> 0%nat ->
  (S (optind d) < List.length argv)%nat ->
  arg argv (optind d) = short_form p \/ arg argv (optind d) = long_form p ->
  exists d',
    getopt_long argv optstring long_options d = (char_code (val p), d', [])
    /\ optarg d' = Some (arg argv (S (optind d)))
    /\ optind d' = S (S (optind d))
    /\ nextchar d' = EmptyString.
Proof.
  intros Hin Hreq Hn Hnz Hlt Ha.
  assert (Hlt' : (optind d < List.length argv)%nat) by lia.
  assert (E4 : (S (optind d) =? List.length argv)%nat = false)
    by (apply Nat.eqb_neq; lia).
  assert (E5 : (S (optind d) <? List.length argv)%nat = true)
    by (apply Nat.ltb_lt; lia).
  simpl in Hin.
  repeat (destruct Hin as [<-|Hin]; [try discriminate Hreq|]);
    try contradiction;
    (destruct Ha as [Ha|Ha];
     unfold short_form, long_form in Ha; cbn in Ha;
     (destruct (getopt_long_fresh argv optstring long_options d _ _
                  Hn Hnz Hlt' Ha) as (d0 & Ho & Hg);
      [discriminate | first [congruence | intros _; discriminate] |]);
     next_argument_scan Ho E4 E5 Hg).
Qed.

Lemma continue_turn ext argv st c d msgs st2 :
  getopt_long argv optstring long_options (getopt st) = (c, d, msgs) ->
  c <> -1 ->
  dispatch ext c
    (set_output (output st ++ map getopt_error msgs) (set_getopt d st))
  = (Val tt, st2) ->
  cl_parser_turn ext argv st = (Val true, st2).
Proof.
  intros Hg Hc Hd. rewrite (turn_run _ _ _ _ _ _ _ _ Hg Hc Hd). reflexivity.
Qed.

Lemma value_option_turn ext argv st p (f : string -> cl_options -> cl_options) :
  In p long_options ->
  has_arg p = required_argument ->
  nextchar (getopt st) = EmptyString ->
  optind (getopt st) <> 0%nat ->
  (S (optind (getopt st)) < List.length argv)%nat ->
  arg argv (optind (getopt st)) = short_form p
  \/ arg argv (optind (getopt st)) = long_form p ->
  (forall v st1,
     optarg (getopt st1) = Some v ->
     dispatch ext (char_code (val p)) st1
     = (Val tt, set_clo (f v (clo st1)) st1)) ->
  exists st',
    cl_parser_turn ext argv st = (Val true, st')
    /\ clo st' = f (arg argv (S (optind (getopt st)))) (clo st)
    /\ Out_lf_fmt st' = Out_lf_fmt st
    /\ output st' = output st
    /\ optind (getopt st') = S (S (optind (getopt st)))
    /\ nextchar (getopt st') = EmptyString.
Proof.
  intros Hin Hreq Hn Hnz Hlt Ha Hd.
  destruct (getopt_long_next_argument argv (getopt st) p
              Hin Hreq Hn Hnz Hlt Ha) as (d' & Hg & Hoa & Hoi & Hnc).
  eexists. split.
  - eapply continue_turn; [exact Hg | | apply Hd; exact Hoa].
    pose proof (char_code_nonneg (val p)). lia.
  - simpl. rewrite app_nil_r. auto.
Qed.

Lemma dispatch_plain_values ext v st1 :
  optarg (getopt st1) = Some v ->
  dispatch ext (char_code "o") st1
  = (Val tt, set_clo (set_out_fn (Some v) (clo st1)) st1)
  /\ dispatch ext (char_code "N") st1
     = (Val tt, set_clo (set_ebpf_src_dir (Some v) (clo st1)) st1)
  /\ dispatch ext (char_code "s") st1
     = (Val tt, set_clo (set_fnr_mode (choose_fnr_mode ext v) (clo st1)) st1)
  /\ dispatch ext (char_code "K") st1
     = (Val tt, set_clo (set_out_lf_fld_sep_ch (char_at v 0) (clo st1)) st1).
Proof.
  intros H. repeat split; pick_case; rewrite H; reflexivity.
Qed.

(** X13. The options "-o", "-N", "-s" and "-K" (and their long
    forms), typed alone where the scan is, take the argument that follows
    whatever it is, be it empty, "--" or something that looks like an
    option, and go on: [out_fn] and [ebpf_src_dir] get that argument as it
    is, [fnr_mode] what [choose_fnr_mode] makes of it, and
    [out_lf_fld_sep_ch] its first character (NUL when it is empty); nothing
    is written, and the scan resumes after that argument. *)
Theorem value_options_take_next_argument ext argv st :
  nextchar (getopt st) = EmptyString ->
  optind (getopt st) <> 0%nat ->
  (S (optind (getopt st)) < List.length argv)%nat ->
  forall opt o',
    ((opt = "-o" \/ opt = "--output")
     /\ o' = set_out_fn (Some (arg argv (S (optind (getopt st))))) (clo st))
    \/ ((opt = "-N" \/ opt = "--ebpf-src-dir")
        /\ o' = set_ebpf_src_dir
                  (Some (arg argv (S (optind (getopt st))))) (clo st))
    \/ ((opt = "-s" \/ opt = "--string-args")
        /\ o' = set_fnr_mode
                  (choose_fnr_mode ext (arg argv (S (optind (getopt st)))))
                  (clo st))
    \/ ((opt = "-K" \/ opt = "--hex-separator")
        /\ o' = set_out_lf_fld_sep_ch
                  (char_at (arg argv (S (optind (getopt st)))) 0) (clo st)) ->
    arg argv (optind (getopt st)) = opt ->
    exists st',
      cl_parser_turn ext argv st = (Val true, st')
      /\ clo st' = o'
      /\ Out_lf_fmt st' = Out_lf_fmt st
      /\ output st' = output st
      /\ optind (getopt st') = S (S (optind (getopt st)))
      /\ nextchar (getopt st') = EmptyString
      /\ (opt = "-o" \/ opt = "--output" ->
          out_fn (clo st') = Some (arg argv (S (optind (getopt st)))))
      /\ (opt = "-N" \/ opt = "--ebpf-src-dir" ->
          ebpf_src_dir (clo st') = Some (arg argv (S (optind (getopt st)))))
      /\ (opt = "-s" \/ opt = "--string-args" ->
          fnr_mode (clo st')
          = choose_fnr_mode ext (arg argv (S (optind (getopt st)))))
      /\ (opt = "-K" \/ opt = "--hex-separator" ->
          out_lf_fld_sep_ch (clo st')
          = char_at (arg argv (S (optind (getopt st)))) 0).
Proof.
  intros Hn Hnz Hlt opt o' Hopt Ha.
  cut (exists st',
         cl_parser_turn ext argv st = (Val true, st')
         /\ clo st' = o'
         /\ Out_lf_fmt st' = Out_lf_fmt st
         /\ output st' = output st
         /\ optind (getopt st') = S (S (optind (getopt st)))
         /\ nextchar (getopt st') = EmptyString).
  { intros (st' & Ht & Hclo & Hf & Hout & Hoi & Hnc).
    exists st'. repeat (split; [assumption|]). rewrite Hclo.
    destruct Hopt as [(Ho & ->)|[(Ho & ->)|[(Ho & ->)|(Ho & ->)]]];
      repeat split;
      try reflexivity;
      intros Ho'; exfalso;
      destruct Ho as [Ho|Ho]; destruct Ho' as [Ho'|Ho'];
      rewrite Ho in Ho'; discriminate. }
  destruct Hopt as [(Ho & ->)|[(Ho & ->)|[(Ho & ->)|(Ho & ->)]]].
  - apply (value_option_turn ext argv st
             {| name := "output"; has_arg := required_argument; val := "o" |}
             (fun v => set_out_fn (Some v)));
      auto.
    + simpl; tauto.
    + destruct Ho; subst opt; auto.
    + intros v st1 H. apply (dispatch_plain_values ext v st1 H).
  - apply (value_option_turn ext argv st
             {| name := "ebpf-src-dir"; has_arg := required_argument;
                val := "N" |}
             (fun v => set_ebpf_src_dir (Some v))); auto.
    + simpl; tauto.
    + destruct Ho; subst opt; auto.
    + intros v st1 H. apply (dispatch_plain_values ext v st1 H).
  - apply (value_option_turn ext argv st
             {| name := "string-args"; has_arg := required_argument;
                val := "s" |}
             (fun v => set_fnr_mode (choose_fnr_mode ext v))); auto.
    + simpl; tauto.
    + destruct Ho; subst opt; auto.
    + intros v st1 H. apply (dispatch_plain_values ext v st1 H).
  - apply (value_option_turn ext argv st
             {| name := "hex-separator"; has_arg := required_argument;
                val := "K" |}
             (fun v => set_out_lf_fld_sep_ch (char_at v 0))); auto.
    + simpl; tauto.
    + destruct Ho; subst opt; auto.
    + intros v st1 H. apply (dispatch_plain_values ext v st1 H).
Qed.

(** ** More on the pid option *)

Lemma strtol_digits_app acc s w :
  starts_with_digit w = false ->
  strtol_digits acc (s ++ w) = strtol_digits acc s.
Proof.
  intros Hw. revert acc. induction s as [|c r IH]; intros acc; simpl.
  - destruct w as [|c r]; [reflexivity|]. simpl in *. rewrite Hw. reflexivity.
  - destruct (isdigit c); [apply IH | reflexivity].
Qed.

Lemma skip_space_app v w :
  skip_space v <> EmptyString ->
  skip_space (v ++ w) = skip_space v ++ w.
Proof.
  induction v as [|c r IH]; simpl; [congruence|].
  destruct (isspace c); [exact IH | reflexivity].
Qed.

(** Text after the digits does not count: when [v] has digits to convert
    and [w] does not start with a digit, [atoi] gives the same for [v]
    followed by [w] as for [v]. *)
Lemma atoi_app v w :
  no_conversion v = false ->
  starts_with_digit w = false ->
  atoi (v ++ w) = atoi v.
Proof.
  unfold no_conversion, atoi, strtol10. intros Hv Hw.
  assert (Hne : skip_space v <> EmptyString).
  { intros E. rewrite E in Hv. discriminate Hv. }
  rewrite (skip_space_app _ _ Hne).
  destruct (skip_space v) as [|c r]; [congruence|].
  assert (Hs : strtol_sign (String c r ++ w)
               = (fst (strtol_sign (String c r)),
                  snd (strtol_sign (String c r)) ++ w)).
  { unfold strtol_sign. simpl.
    destruct c as [[] [] [] [] [] [] [] []]; reflexivity. }
  rewrite Hs.
  destruct (strtol_sign (String c r)) as [negative s]. simpl.
  rewrite (strtol_digits_app _ _ _ Hw). reflexivity.
Qed.

(** X15. The pid option reads its value as [atoi] does: text after
    the digits is not looked at. A value with digits to convert, followed
    by anything that does not start with a digit, is accepted or refused
    as the value without what follows, and gives the same pid: when
    accepted, [clo->pid] reads [atoi v] after the run. *)
Theorem pid_ignores_trailing_text ext v w :
  no_conversion v = false ->
  starts_with_digit w = false ->
  atoi (v ++ w) = atoi v
  /\ forall prog opt o fmt,
       opt = "--pid" \/ opt = "-p" ->
       report (cl_parser ext [prog; opt; v ++ w] (entry_state o fmt))
       = Some (if atoi v <? 1
               then (Exit EXIT_FAILURE, set_pid (atoi v) o, fmt,
                     [wrong_pid_error (v ++ w)])
               else (Val 3%nat, set_pid (atoi v) o, fmt, []))
          /\ ((atoi v <? 1) = false ->
              exists st',
                cl_parser ext [prog; opt; v ++ w] (entry_state o fmt)
                = Some (Val 3%nat, st')
                /\ pid (clo st') = atoi v
                /\ output st' = []).
Proof.
  intros Hv Hw. pose proof (atoi_app v w Hv Hw) as E.
  split; [exact E|].
  intros prog opt o fmt Hopt.
  pose proof (pid_run ext prog opt (v ++ w) o fmt Hopt) as Hrun.
  rewrite E in Hrun.
  split; [exact Hrun|].
  intros Hok. rewrite Hok in Hrun.
  destruct (report_state _ _ _ _ _ Hrun) as (st' & Hst & Hclo & _ & Hout).
  exists st'. split; [exact Hst|]. rewrite Hclo.
  split; [reflexivity | exact Hout].
Qed.



(** X16. An option given twice is dealt with twice, in order: with two
    pid options the first value is checked first and ends the run when it
    is refused, the second never being looked at; otherwise the second is
    checked in its turn and, when accepted, is the pid that stays:
    [clo->pid] reads [atoi v2] after the run. *)
Theorem pid_given_twice ext prog opt1 v1 opt2 v2 o fmt :
  opt1 = "--pid" \/ opt1 = "-p" ->
  opt2 = "--pid" \/ opt2 = "-p" ->
  report (cl_parser ext [prog; opt1; v1; opt2; v2] (entry_state o fmt))
  = Some (if atoi v1 <? 1
          then (Exit EXIT_FAILURE, set_pid (atoi v1) o, fmt,
                [wrong_pid_error v1])
          else if atoi v2 <? 1
          then (Exit EXIT_FAILURE, set_pid (atoi v2) o, fmt,
                [wrong_pid_error v2])
          else (Val 5%nat, set_pid (atoi v2) o, fmt, []))
  /\ ((atoi v1 <? 1) = false ->
      (atoi v2 <? 1) = false ->
      exists st',
        cl_parser ext [prog; opt1; v1; opt2; v2] (entry_state o fmt)
        = Some (Val 5%nat, st')
        /\ pid (clo st') = atoi v2
        /\ output st' = []).
Proof.
  intros H1 H2.
  match goal with
  | |- ?A /\ _ => assert (Hrun : A); [|split; [exact Hrun|]]
  end; cycle 1.
  { intros E1 E2. rewrite E1, E2 in Hrun.
    destruct (report_state _ _ _ _ _ Hrun) as (st' & Hst & Hclo & _ & Hout).
    exists st'. split; [exact Hst|]. rewrite Hclo.
    split; [reflexivity | exact Hout]. }
  destruct (atoi v1 <? 1) eqn:E1; [|destruct (atoi v2 <? 1) eqn:E2].
  - erewrite report_of_fuel with (n := 1%nat); cycle 1.
    + unfold cl_parser_fuel.
      destruct H1, H2; subst opt1 opt2;
        (exit_with ltac:(erewrite dispatch_pid by reflexivity;
                         rewrite E1; reflexivity));
        reflexivity.
    + budget_now.
    + reflexivity.
  - erewrite report_of_fuel with (n := 2%nat); cycle 1.
    + unfold cl_parser_fuel.
      destruct H1, H2; subst opt1 opt2;
        (continue_with ltac:(erewrite dispatch_pid by reflexivity;
                             rewrite E1; reflexivity));
        (exit_with ltac:(erewrite dispatch_pid by reflexivity;
                         rewrite E2; reflexivity));
        reflexivity.
    + budget_now.
    + reflexivity.
  - erewrite report_of_fuel with (n := 3%nat); cycle 1.
    + unfold cl_parser_fuel.
      destruct H1, H2; subst opt1 opt2;
        (continue_with ltac:(erewrite dispatch_pid by reflexivity;
                             rewrite E1; reflexivity));
        (continue_with ltac:(erewrite dispatch_pid by reflexivity;
                             rewrite E2; reflexivity));
        break_now; reflexivity.
    + budget_now.
    + reflexivity.
Qed.

(** ** Long options, abbreviated *)

Lemma prefix_cases nm s :
  String.prefix nm s = true ->
  exists k, (k <= String.length s)%nat /\ nm = String.substring 0 k s.
Proof.
  revert s. induction nm as [|a r IH]; intros s H.
  - exists 0%nat. split; [lia|]. destruct s; reflexivity.
  - destruct s as [|b s']; [discriminate H|]. simpl in H.
    destruct (ascii_dec a b) as [->|]; [|discriminate H].
    destruct (IH _ H) as (k & Hk & ->).
    exists (S k). split; [simpl; lia | reflexivity].
Qed.

Ltac abbreviation_row rest Hab Htail :=
  let Hpre := fresh "Hpre" in
  let k := fresh "k" in
  let Hk := fresh "Hk" in
  pose proof Hab as Hpre;
  unfold abbreviates in Hpre; apply andb_true_iff in Hpre;
  destruct Hpre as [_ Hpre];
  apply prefix_cases in Hpre; destruct Hpre as (k & Hk & ->);
  simpl in Hk;
  repeat (destruct k as [|k];
          [ vm_compute in Hab; try discriminate Hab;
            cbn [String.substring append name];
            destruct Htail as [->|(? & ->)];
            destruct rest as [|? ?]; same_first_turn
          | try (exfalso; lia) ]).

(** A name cut short, where one row only starts with it. *)
Lemma abbreviation_runs ext prog rest o fmt nm p tail :
  In p long_options ->
  abbreviates nm p = true ->
  tail = EmptyString \/ (exists v, tail = String "=" v) ->
  cl_parser ext (prog :: ("--" ++ nm ++ tail) :: rest) (entry_state o fmt)
  = cl_parser ext (prog :: ("--" ++ name p ++ tail) :: rest)
      (entry_state o fmt).
Proof.
  intros Hin Hab Htail. simpl in Hin.
  repeat (destruct Hin as [<-|Hin]; [abbreviation_row rest Hab Htail|]).
  contradiction.
Qed.

Lemma ambiguous_name_prefix nm :
  ambiguous_name nm = true ->
  exists q, In q long_options /\ String.prefix nm (name q) = true.
Proof.
  unfold ambiguous_name. intros H. apply andb_true_iff in H.
  destruct H as [H _].
  destruct (filter (fun q => String.prefix nm (name q)) long_options)
    as [|q l] eqn:E; [discriminate H|].
  exists q.
  apply (proj1 (filter_In (fun q => String.prefix nm (name q)) q long_options)).
  rewrite E. left. reflexivity.
Qed.

Ltac ambiguous_row Hamb Hne Htail Hpre :=
  let k := fresh "k" in
  let Hk := fresh "Hk" in
  apply prefix_cases in Hpre; destruct Hpre as (k & Hk & ->);
  simpl in Hk;
  repeat (destruct k as [|k];
          [ vm_compute in Hamb; try discriminate Hamb;
            try (exfalso; apply Hne; reflexivity);
            cbn [String.substring append];
            destruct Htail as [->|(? & ->)];
            (erewrite report_of_fuel with (n := 1%nat); cycle 1;
             [ unfold cl_parser_fuel; exit_with switch_now; reflexivity
             | budget_now
             | reflexivity ])
          | try (exfalso; lia) ]).

Lemma ambiguous_runs ext prog rest o fmt nm tail :
  ambiguous_name nm = true ->
  nm <> EmptyString ->
  tail = EmptyString \/ (exists v, tail = String "=" v) ->
  report (cl_parser ext (prog :: ("--" ++ nm ++ tail) :: rest)
            (entry_state o fmt))
  = Some (Exit EXIT_FAILURE, o, fmt,
          [getopt_error (option_is_ambiguous "--" (nm ++ tail));
           fprint_help stderr]).
Proof.
  intros Hamb Hne Htail.
  destruct (ambiguous_name_prefix nm Hamb) as (q & Hin & Hpre).
  simpl in Hin.
  repeat (destruct Hin as [<-|Hin]; [ambiguous_row Hamb Hne Htail Hpre|]).
  contradiction.
Qed.

(** X17. A long option may be cut short: "--NAME", and
    "--NAME=VALUE", where NAME is the start of the name of one row of the
    table and of no other, is parsed as the option of that row typed in
    full, whatever the rest of the argument vector. Where NAME is the
    start of two names or more and the whole of none, [getopt_long]
    reports it ambiguous, the usage goes to stderr and the process ends
    with EXIT_FAILURE, [*clo] untouched. *)
Theorem long_options_abbreviated ext prog rest o fmt nm tail :
  tail = EmptyString \/ (exists v, tail = String "=" v) ->
  (forall p,
     In p long_options ->
     abbreviates nm p = true ->
     cl_parser ext (prog :: ("--" ++ nm ++ tail) :: rest) (entry_state o fmt)
     = cl_parser ext (prog :: ("--" ++ name p ++ tail) :: rest)
         (entry_state o fmt))
  /\ (ambiguous_name nm = true ->
      nm <> EmptyString ->
      report (cl_parser ext (prog :: ("--" ++ nm ++ tail) :: rest)
                (entry_state o fmt))
      = Some (Exit EXIT_FAILURE, o, fmt,
              [getopt_error (option_is_ambiguous "--" (nm ++ tail));
               fprint_help stderr])).
Proof.
  intros Htail. split.
  - intros p Hin Hab. apply abbreviation_runs; assumption.
  - intros Hamb Hne. apply ambiguous_runs; assumption.
Qed.

(** ** Flags, alone and in a cluster *)

(** With a cluster of short options under way, [getopt_long] goes on with
    its next character. *)
Lemma getopt_long_cluster argv os lo d c rest :
  nextchar d = String c rest ->
  initialized d = true ->
  optind d <> 0%nat ->
  argv <> [] ->
  getopt_long argv os lo d
  = short_option argv (skip_ordering os)
      (opterr d && negb (Ascii.eqb (char_at (skip_ordering os) 0) ":"))
      (set_optarg None d) c rest.
Proof.
  intros Hn Hi Hnz Hne. unfold getopt_long.
  assert (E1 : (List.length argv <? 1)%nat = false).
  { apply Nat.ltb_ge. destruct argv; [congruence | simpl; lia]. }
  rewrite E1. simpl.
  destruct (Nat.eqb_spec (optind d) 0) as [E0|E0]; [contradiction|].
  rewrite Hi. simpl. rewrite Hn. reflexivity.
Qed.

(** The scan of one of the four flags 't', 'X', 'd', 'r': no argument is
    taken; the rest of the cluster, when there is one, is what comes
    next. *)
Lemma short_option_flag argv pe d c rest :
  c = "t"%char \/ c = "X"%char \/ c = "d"%char \/ c = "r"%char ->
  exists d',
    short_option argv (skip_ordering optstring) pe d c rest
    = (char_code c, d', [])
    /\ nextchar d' = rest
    /\ optind d' = match rest with
                   | EmptyString => S (optind d)
                   | String _ _ => optind d
                   end.
Proof.
  intros [-> | [-> | [-> | ->]]]; unfold short_option; cbn;
    destruct rest; eexists; repeat split.
Qed.

Lemma dispatch_flags ext c st :
  c = "t"%char \/ c = "X"%char \/ c = "d"%char \/ c = "r"%char ->
  exists o',
    dispatch ext (char_code c) st = (Val tt, set_clo o' st)
    /\ (c = "t"%char -> o' = set_timestamp true (clo st))
    /\ (c = "X"%char -> o' = set_failed true (clo st))
    /\ (c = "d"%char -> o' = set_debug true (clo st))
    /\ (c = "r"%char -> o' = set_do_not_print_progress 1 (clo st)).
Proof.
  intros [-> | [-> | [-> | ->]]]; eexists;
    (split; [pick_case; reflexivity|]);
    repeat split; intros E; first [reflexivity | discriminate E].
Qed.

(** X14. The flags 't', 'X', 'd' and 'r' are dealt with one
    character at a time, alone or in a cluster such as "-tXd": where the
    next character to scan is one of them, at the head of an argument
    "-c..." or inside a cluster under way, the turn sets the member of that
    flag and nothing else, writes nothing, and goes on with the rest of the
    cluster in the same argument, or with the next argument when the
    cluster is at its end. *)
Theorem flags_one_character_at_a_time ext argv st c rest :
  c = "t"%char \/ c = "X"%char \/ c = "d"%char \/ c = "r"%char ->
  optind (getopt st) <> 0%nat ->
  (optind (getopt st) < List.length argv)%nat ->
  (nextchar (getopt st) = EmptyString
   /\ arg argv (optind (getopt st)) = String "-" (String c rest))
  \/ (nextchar (getopt st) = String c rest
      /\ initialized (getopt st) = true) ->
  exists st',
    cl_parser_turn ext argv st = (Val true, st')
    /\ (c = "t"%char -> clo st' = set_timestamp true (clo st))
    /\ (c = "X"%char -> clo st' = set_failed true (clo st))
    /\ (c = "d"%char -> clo st' = set_debug true (clo st))
    /\ (c = "r"%char -> clo st' = set_do_not_print_progress 1 (clo st))
    /\ Out_lf_fmt st' = Out_lf_fmt st
    /\ output st' = output st
    /\ nextchar (getopt st') = rest
    /\ optind (getopt st')
       = match rest with
         | EmptyString => S (optind (getopt st))
         | String _ _ => optind (getopt st)
         end
    /\ (c = "t"%char -> timestamp (clo st') = true)
    /\ (c = "X"%char -> failed (clo st') = true)
    /\ (c = "d"%char -> debug (clo st') = true)
    /\ (c = "r"%char -> do_not_print_progress (clo st') = 1).
Proof.
  intros Hc Hnz Hlt Hwhere.
  assert (Hg : exists d',
             getopt_long argv optstring long_options (getopt st)
             = (char_code c, d', [])
             /\ nextchar d' = rest
             /\ optind d' = match rest with
                            | EmptyString => S (optind (getopt st))
                            | String _ _ => optind (getopt st)
                            end).
  { destruct Hwhere as [(Hn & Ha)|(Hn & Hi)].
    - destruct (getopt_long_fresh argv optstring long_options (getopt st)
                  c rest Hn Hnz Hlt Ha) as (d0 & Ho & Hg).
      + destruct Hc as [-> | [-> | [-> | ->]]]; discriminate.
      + destruct Hc as [-> | [-> | [-> | ->]]]; discriminate.
      + assert (E : Ascii.eqb c "-" = false)
          by (destruct Hc as [-> | [-> | [-> | ->]]]; reflexivity).
        rewrite E in Hg. rewrite Hg, <- Ho.
        apply short_option_flag. exact Hc.
    - rewrite (getopt_long_cluster argv optstring long_options (getopt st)
                 c rest Hn Hi Hnz).
      + apply (short_option_flag argv _ (set_optarg None (getopt st)) c rest).
        exact Hc.
      + destruct argv; [simpl in Hlt; lia | discriminate]. }
  destruct Hg as (d' & Hg & Hn' & Ho').
  destruct (dispatch_flags ext c
              (set_output (output st ++ map getopt_error [])
                 (set_getopt d' st)) Hc)
    as (o' & Hd & Ht & HX & Hdd & Hr).
  eexists. split.
  - eapply continue_turn; [exact Hg | | exact Hd].
    pose proof (char_code_nonneg c). lia.
  - simpl. rewrite app_nil_r.
    repeat (split; [solve [auto]|]).
    repeat split; intros E;
      [rewrite (Ht E) | rewrite (HX E) | rewrite (Hdd E) | rewrite (Hr E)];
      reflexivity.
Qed.

(** ** These properties at work on sample command lines *)

Lemma scanning_after_t argv :
  (2 <= List.length argv)%nat -> scanning argv (getopt state_after_t).
Proof.
  intros H. unfold scanning. simpl. repeat split; try lia; congruence.
Defined.

Lemma cl_parser_terminates_witness :
  (exists r,
     cl_parser ext_sample ["vltrace"; "-tX"; "-p"; "7"; "ls"]
       (entry_state clo_zero 0) = Some r)
  /\ (exists r,
        cl_parser ext_sample ["vltrace"; "-t"; "-p"; "7"; "ls"] state_after_t
        = Some r).
Proof.
  split.
  - exact (proj1 (cl_parser_terminates ext_sample
                    ["vltrace"; "-tX"; "-p"; "7"; "ls"]) clo_zero 0).
  - apply (proj1 (proj2 (cl_parser_terminates ext_sample
                           ["vltrace"; "-t"; "-p"; "7"; "ls"]))).
    + apply scanning_after_t. simpl. lia.
    + reflexivity.
Defined.

Lemma returned_index_is_in_range_witness :
  exists st',
    cl_parser ext_sample ["vltrace"; "-t"; "--"; "-x"] (entry_state clo_zero 0)
    = Some (Val 3%nat, st')
    /\ (1 <= 3 /\ 1 <= 3 <= 4)%nat
    /\ ((3 < 4)%nat ->
        NONOPTION_P "-x" = true
        \/ arg ["vltrace"; "-t"; "--"; "-x"] 2 = "--").
Proof.
  eexists. split; [vm_compute; reflexivity|].
  eapply (returned_index_is_in_range ext_sample
            ["vltrace"; "-t"; "--"; "-x"] (entry_state clo_zero 0) 3%nat).
  - vm_compute. reflexivity.
  - discriminate.
  - apply scanning_start. discriminate.
Defined.

Lemma returns_in_silence_witness :
  (exists st',
     cl_parser ext_sample ["vltrace"; "-t"; "ls"] (entry_state clo_zero 0)
     = Some (Val 2%nat, st')
     /\ output st' = [])
  /\ (exists st',
        cl_parser ext_sample ["vltrace"; "-t"; "-h"] (entry_state clo_zero 0)
        = Some (Exit EXIT_SUCCESS, st')
        /\ exists e new, output st' = e :: new).
Proof.
  split.
  - eexists. split; [vm_compute; reflexivity|].
    apply (returns_in_silence ext_sample ["vltrace"; "-t"; "ls"]
             (entry_state clo_zero 0) (Val 2%nat) _).
    vm_compute. reflexivity.
  - eexists. split; [vm_compute; reflexivity|].
    apply (returns_in_silence ext_sample ["vltrace"; "-t"; "-h"]
             (entry_state clo_zero 0) (Exit EXIT_SUCCESS) _).
    vm_compute. reflexivity.
Defined.

Lemma exit_status_values_witness :
  7 = EXIT_SUCCESS \/ 7 = EXIT_FAILURE
  \/ 7 = print_syscalls_table (ext_returning 7).
Proof.
  apply (exit_status_values (ext_returning 7) ["vltrace"; "-B"]
           (entry_state clo_zero 0) 7
           {| clo := clo_zero; Out_lf_fmt := 0;
              getopt := {| optind := 2; opterr := true;
                           optopt := 0; optarg := None;
                           initialized := true; nextchar := EmptyString;
                           first_nonopt := 1; last_nonopt := 1 |};
              output := [print_syscalls_table_to stdout] |}).
  vm_compute. reflexivity.
Defined.

Lemma switch_writes_own_fields_only_witness :
  exists st',
    dispatch ext_sample (char_code "t") (entry_state (set_pid 7 clo_zero) 0)
    = (Val tt, st')
    /\ pid (clo st') = 7 /\ timestamp (clo st') = true.
Proof.
  eexists. split; [reflexivity|]. split; [|reflexivity].
  apply (proj1 (switch_writes_own_fields_only ext_sample (char_code "t")
                  (entry_state (set_pid 7 clo_zero) 0) (Val tt) _ eq_refl)).
  reflexivity.
Defined.

Lemma flags_never_cleared_witness :
  exists st',
    cl_parser ext_sample ["vltrace"; "-t"; "-d"; "ls"] state_after_t
    = Some (Val 3%nat, st')
    /\ timestamp (clo st') = true.
Proof.
  eexists. split; [vm_compute; reflexivity|].
  match goal with
  | |- timestamp (clo ?s) = true =>
      apply (proj1 (flags_never_cleared ext_sample
                      ["vltrace"; "-t"; "-d"; "ls"] state_after_t
                      (Val 3%nat) s ltac:(vm_compute; reflexivity)))
  end.
  reflexivity.
Defined.

Lemma returned_pid_is_valid_witness :
  exists st',
    cl_parser ext_sample ["vltrace"; "--pid"; "42"] (entry_state clo_zero 0)
    = Some (Val 3%nat, st')
    /\ (pid (clo st') = 0 \/ 1 <= pid (clo st') <= INT_MAX).
Proof.
  eexists. split; [vm_compute; reflexivity|].
  apply (returned_pid_is_valid ext_sample ["vltrace"; "--pid"; "42"]
           (entry_state clo_zero 0) 3%nat _).
  vm_compute. reflexivity.
Defined.

Lemma reserved_words_never_stored_witness :
  exists st',
    cl_parser ext_sample ["vltrace"; "-e"; "openat"; "-l"; "LIST"]
      (entry_state clo_zero 0)
    = Some (Exit EXIT_SUCCESS, st')
    /\ (expr (clo st') = None
        \/ exists v, expr (clo st') = Some v /\ reserved_expr v = false)
    /\ ((out_fmt_str (clo st') = None /\ Out_lf_fmt st' = 0)
        \/ exists v, out_fmt_str (clo st') = Some v
                     /\ Out_lf_fmt st' = out_fmt_str2enum ext_sample v
                     /\ reserved_format v = false).
Proof.
  eexists. split; [vm_compute; reflexivity|].
  apply (reserved_words_never_stored ext_sample
           ["vltrace"; "-e"; "openat"; "-l"; "LIST"]
           (entry_state clo_zero 0) (Exit EXIT_SUCCESS) _).
  vm_compute. reflexivity.
Defined.

Lemma default_case_is_dead_witness :
  (forall c d' msgs,
     getopt_long ["vltrace"; "-Z"] optstring long_options getopt_start
     = (c, d', msgs) ->
     c = -1 \/ has_case c = true)
  /\ exists st',
       cl_parser ext_sample ["vltrace"; "-Z"] (entry_state clo_zero 0)
       = Some (Exit EXIT_FAILURE, st')
       /\ exists new,
            output st' = new
            /\ forall c, ~ In (unknown_option_error c) new.
Proof.
  split.
  - intros c d' msgs. apply (proj1 (default_case_is_dead ext_sample)).
  - eexists. split; [vm_compute; reflexivity|].
    apply (proj2 (default_case_is_dead ext_sample) ["vltrace"; "-Z"]
             (entry_state clo_zero 0) (Exit EXIT_FAILURE) _).
    vm_compute. reflexivity.
Defined.

Lemma printing_options_end_the_run_witness :
  report (cl_parser ext_sample ["vltrace"; "-t"; "--help"; "-Z"] state_after_t)
  = Some (Exit EXIT_SUCCESS, set_timestamp true clo_zero, 0,
          [fprint_help stdout])
  /\ report (cl_parser ext_sample ["vltrace"; "-t"; "-L"; "-p"; "0"]
               state_after_t)
     = Some (Exit EXIT_SUCCESS, set_timestamp true clo_zero, 0,
             [get_sc_list stdout (Some is_a_sc)]).
Proof.
  split.
  - apply (proj1 (printing_options_end_the_run ext_sample
                    ["vltrace"; "-t"; "--help"; "-Z"] state_after_t
                    eq_refl ltac:(discriminate) ltac:(simpl; lia))).
    right. reflexivity.
  - apply (proj1 (proj2 (printing_options_end_the_run ext_sample
                           ["vltrace"; "-t"; "-L"; "-p"; "0"] state_after_t
                           eq_refl ltac:(discriminate) ltac:(simpl; lia)))).
    left. reflexivity.
Defined.

Lemma unknown_option_is_fatal_witness :
  report (cl_parser ext_sample ["vltrace"; "-t"; "-Zt"] state_after_t)
  = Some (Exit EXIT_FAILURE, set_timestamp true clo_zero, 0,
          [getopt_error (invalid_option "Z"); fprint_help stderr])
  /\ report (cl_parser ext_sample ["vltrace"; "-t"; "--bogus=1"]
               state_after_t)
     = Some (Exit EXIT_FAILURE, set_timestamp true clo_zero, 0,
             [getopt_error (unrecognized_option "--" "bogus=1");
              fprint_help stderr]).
Proof.
  split.
  - apply (proj1 (unknown_option_is_fatal ext_sample
                    ["vltrace"; "-t"; "-Zt"] state_after_t
                    eq_refl ltac:(discriminate) ltac:(simpl; lia) eq_refl)
             "Z"%char "t").
    + reflexivity.
    + discriminate.
    + discriminate.
    + left. reflexivity.
  - apply (proj2 (unknown_option_is_fatal ext_sample
                    ["vltrace"; "-t"; "--bogus=1"] state_after_t
                    eq_refl ltac:(discriminate) ltac:(simpl; lia) eq_refl)
             "bogus=1").
    + reflexivity.
    + discriminate.
    + reflexivity.
Defined.

Lemma double_dash_ends_options_witness :
  report (cl_parser ext_sample ["vltrace"; "-t"; "--"; "-p"; "0"]
            state_after_t)
  = Some (Val 3%nat, set_command true (set_timestamp true clo_zero), 0, [])
  /\ report (cl_parser ext_sample ["vltrace"; "-t"; "--"] state_after_t)
     = Some (Val 3%nat, set_timestamp true clo_zero, 0, [])
  /\ (exists st',
        cl_parser ext_sample ["vltrace"; "-t"; "--"; "-p"; "0"] state_after_t
        = Some (Val 3%nat, st')
        /\ command (clo st') = true
        /\ pid (clo st') = 0
        /\ output st' = []).
Proof.
  assert (Hs : scanning ["vltrace"; "-t"; "--"; "-p"; "0"]
                 (getopt state_after_t))
    by (apply scanning_after_t; simpl; lia).
  destruct (double_dash_ends_options ext_sample
              ["vltrace"; "-t"; "--"; "-p"; "0"] state_after_t
              Hs eq_refl ltac:(discriminate) ltac:(simpl; lia) eq_refl)
    as (H1 & st' & Hst & Hc & _ & Hout).
  split; [exact H1|]. split.
  - apply (double_dash_ends_options ext_sample
             ["vltrace"; "-t"; "--"] state_after_t).
    + apply scanning_after_t. simpl. lia.
    + reflexivity.
    + discriminate.
    + simpl. lia.
    + reflexivity.
  - exists st'. split; [exact Hst|].
    split; [apply Hc; simpl; lia|].
    split; [|exact Hout].
    destruct (report_state _ _ _ _ _ H1) as (st2 & Hst2 & Hclo & _).
    rewrite Hst in Hst2. inversion Hst2. subst st2. rewrite Hclo.
    reflexivity.
Defined.

Lemma value_options_take_next_argument_witness :
  (exists st',
     cl_parser_turn ext_sample ["vltrace"; "-t"; "-o"; "-X"] state_after_t
     = (Val true, st')
     /\ out_fn (clo st') = Some "-X"
     /\ Out_lf_fmt st' = 0
     /\ output st' = []
     /\ optind (getopt st') = 4%nat
     /\ nextchar (getopt st') = EmptyString)
  /\ (exists st',
        cl_parser_turn ext_sample ["vltrace"; "-t"; "--hex-separator"; ""]
          state_after_t
        = (Val true, st')
        /\ out_lf_fld_sep_ch (clo st') = zero
        /\ Out_lf_fmt st' = 0
        /\ output st' = []
        /\ optind (getopt st') = 4%nat
        /\ nextchar (getopt st') = EmptyString).
Proof.
  split.
  - destruct (value_options_take_next_argument ext_sample
                ["vltrace"; "-t"; "-o"; "-X"] state_after_t
                eq_refl ltac:(discriminate) ltac:(simpl; lia) "-o"
                (set_out_fn (Some "-X") (set_timestamp true clo_zero))
                ltac:(left; split; [left; reflexivity | reflexivity])
                eq_refl)
      as (st' & Ht & _ & Hf & Hout & Hoi & Hnc & Ho & _).
    exists st'. split; [exact Ht|].
    split; [exact (Ho (or_introl eq_refl))|].
    split; [exact Hf|]. split; [exact Hout|]. split; [exact Hoi|exact Hnc].
  - destruct (value_options_take_next_argument ext_sample
                ["vltrace"; "-t"; "--hex-separator"; ""] state_after_t
                eq_refl ltac:(discriminate) ltac:(simpl; lia)
                "--hex-separator"
                (set_out_lf_fld_sep_ch zero (set_timestamp true clo_zero))
                ltac:(right; right; right;
                      split; [right; reflexivity | reflexivity])
                eq_refl)
      as (st' & Ht & _ & Hf & Hout & Hoi & Hnc & _ & _ & _ & HK).
    exists st'. split; [exact Ht|].
    split; [exact (HK (or_intror eq_refl))|].
    split; [exact Hf|]. split; [exact Hout|]. split; [exact Hoi|exact Hnc].
Defined.

Lemma pid_ignores_trailing_text_witness :
  atoi "42abc" = 42
  /\ report (cl_parser ext_sample ["vltrace"; "--pid"; "42abc"]
               (entry_state clo_zero 0))
     = Some (Val 3%nat, set_pid 42 clo_zero, 0, [])
  /\ (exists st',
        cl_parser ext_sample ["vltrace"; "--pid"; "42abc"]
          (entry_state clo_zero 0)
        = Some (Val 3%nat, st')
        /\ pid (clo st') = 42
        /\ output st' = []).
Proof.
  pose proof (pid_ignores_trailing_text ext_sample "42" "abc"
                eq_refl eq_refl) as [H1 H2].
  split; [|split].
  - exact H1.
  - exact (proj1 (H2 "vltrace" "--pid" clo_zero 0 (or_introl eq_refl))).
  - exact (proj2 (H2 "vltrace" "--pid" clo_zero 0 (or_introl eq_refl))
             eq_refl).
Defined.

Lemma pid_given_twice_witness :
  report (cl_parser ext_sample ["vltrace"; "-p"; "7"; "--pid"; "9"]
            (entry_state clo_zero 0))
  = Some (Val 5%nat, set_pid 9 clo_zero, 0, [])
  /\ report (cl_parser ext_sample ["vltrace"; "-p"; "0"; "--pid"; "9"]
               (entry_state clo_zero 0))
     = Some (Exit EXIT_FAILURE, set_pid 0 clo_zero, 0, [wrong_pid_error "0"])
  /\ (exists st',
        cl_parser ext_sample ["vltrace"; "-p"; "7"; "--pid"; "9"]
          (entry_state clo_zero 0)
        = Some (Val 5%nat, st')
        /\ pid (clo st') = 9
        /\ output st' = []).
Proof.
  split; [|split].
  - exact (proj1 (pid_given_twice ext_sample "vltrace" "-p" "7" "--pid" "9"
                    clo_zero 0 (or_intror eq_refl) (or_introl eq_refl))).
  - exact (proj1 (pid_given_twice ext_sample "vltrace" "-p" "0" "--pid" "9"
                    clo_zero 0 (or_intror eq_refl) (or_introl eq_refl))).
  - exact (proj2 (pid_given_twice ext_sample "vltrace" "-p" "7" "--pid" "9"
                    clo_zero 0 (or_intror eq_refl) (or_introl eq_refl))
             eq_refl eq_refl).
Defined.

Lemma long_options_abbreviated_witness :
  cl_parser ext_sample ["vltrace"; "--pi"; "42"] (entry_state clo_zero 0)
  = cl_parser ext_sample ["vltrace"; "--pid"; "42"] (entry_state clo_zero 0)
  /\ report (cl_parser ext_sample ["vltrace"; "--l"] (entry_state clo_zero 0))
     = Some (Exit EXIT_FAILURE, clo_zero, 0,
             [getopt_error (option_is_ambiguous "--" "l");
              fprint_help stderr]).
Proof.
  split.
  - apply (proj1 (long_options_abbreviated ext_sample "vltrace" ["42"]
                    clo_zero 0 "pi" EmptyString (or_introl eq_refl))
             pid_row).
    + simpl. tauto.
    + reflexivity.
  - apply (proj2 (long_options_abbreviated ext_sample "vltrace" []
                    clo_zero 0 "l" EmptyString (or_introl eq_refl))).
    + reflexivity.
    + discriminate.
Defined.

Lemma flags_one_character_at_a_time_witness :
  exists st',
    cl_parser_turn ext_sample ["vltrace"; "-t"; "-Xd"] state_after_t
    = (Val true, st')
    /\ clo st' = set_failed true (set_timestamp true clo_zero)
    /\ nextchar (getopt st') = "d"
    /\ optind (getopt st') = 2%nat
    /\ failed (clo st') = true.
Proof.
  destruct (flags_one_character_at_a_time ext_sample
              ["vltrace"; "-t"; "-Xd"] state_after_t "X"%char "d"
              ltac:(right; left; reflexivity) ltac:(discriminate)
              ltac:(simpl; lia)
              ltac:(left; split; reflexivity))
    as (st' & Ht & _ & HX & _ & _ & _ & _ & Hn & Ho & _ & HX' & _).
  exists st'. split; [exact Ht|]. split; [exact (HX eq_refl)|].
  split; [exact Hn|]. split; [exact Ho | exact (HX' eq_refl)].
Defined.
